(** * ss-analyzer: the fingerprint-indexed store and the structured diff/patch
    engine, embedded in Rocq.

    The development follows the Python sources:
    - [src/core/updater.py]      (module [Updater])
    - [src/core/memory_store.py] (module [Store])
    - [src/core/engine.py]       (module [Engine])
    The module [Props] holds the notions in which the properties are stated;
    [DiffLog] embeds the compression of the diff log of [src/core/updater.py],
    and [Derived] holds the notions of the further properties.  The
    properties follow the definitions.

    Conventions of the embedding.
    - A JSON-like Python object is a [value]; a [dict] with string keys is a
      [gmap string value], so two dicts are equal exactly when Python's [==]
      says so (insertion order plays no role in [==]).
    - Python floats are idealised as canonical rationals [Qc]: rounding,
      infinities and NaN are outside the model.
    - Strings are sequences of ASCII characters; [len] is [String.length].
    - A method that mutates its argument in place returns the object after the
      call, together with the exception it raised, if any.  Values placed into
      a document by an operation are treated as fresh trees (no aliasing
      between the values carried by different operations).
    - The iteration order of a Python [set] is not specified; it is supplied by
      the class [Updater.Runtime].
    - The interpreter is a 64-bit CPython with the default limit of 4300
      digits on the conversion of a string to an integer.  The exhaustion of
      the machine's memory and the recursion limit are outside the model.
    - The store is modelled for the values that both connections bind as they
      are: summaries that are strings and 64-bit integers (see
      [Store.add_memory] and [Store.update_memory]).
    - The time stamps of a diff log are ISO time stamps of one kind, as
      [datetime.now().isoformat()] writes them: [datetime.fromisoformat]
      reads each of them and any two of them can be subtracted (class
      [DiffLog.Library]). *)

From Stdlib Require Import ZArith QArith Qcanon Lqa Ascii String.
From stdpp Require Import gmap strings list fin_maps numbers.
Close Scope Qc_scope.
Close Scope Q_scope.
Set Warnings "-register-all".

(** ** Python objects *)
Module Py.

Inductive value :=
  | VNone
  | VBool (b : bool)
  | VInt (z : Z)
  | VFloat (q : Qc)
  | VStr (s : string)
  | VList (l : list value)
  | VDict (d : gmap string value).

(** [type(v)] *)
Inductive pytype := TNone | TBool | TInt | TFloat | TStr | TList | TDict.

Definition type_of (v : value) : pytype :=
  match v with
  | VNone => TNone
  | VBool _ => TBool
  | VInt _ => TInt
  | VFloat _ => TFloat
  | VStr _ => TStr
  | VList _ => TList
  | VDict _ => TDict
  end.

Global Instance pytype_eq_dec : EqDecision pytype.
Proof. solve_decision. Defined.

(** The exceptions that the modelled code can raise. *)
Inductive exn :=
  | KeyError | IndexError | TypeError | ValueError | AttributeError
  | OverflowError    (* a count that does not fit an index-sized integer *)
  | MemoryError      (* a list that the interpreter refuses to allocate *)
  | IntegrityError   (* raised by [sqlite3] on a violated constraint *)
  | ExternalError.   (* raised by a collaborator outside the core *)

Global Instance exn_eq_dec : EqDecision exn.
Proof. solve_decision. Defined.

(** The result of a call that either returns or lets an exception escape. *)
Inductive outcome (A : Type) :=
  | Returned (a : A)
  | Raised (e : exn).
Global Arguments Returned {A} a.
Global Arguments Raised {A} e.

(** The numeric reading of [bool], [int] and [float] objects
    ([isinstance(v, (int, float))] holds for exactly these). *)
Definition num_of (v : value) : option Qc :=
  match v with
  | VBool b => Some (if b then Qc_of_Z 1 else Qc_of_Z 0)
  | VInt z => Some (Qc_of_Z z)
  | VFloat q => Some q
  | _ => None
  end.

(** Python's [==] on objects: numbers compare by value across [bool], [int]
    and [float]; strings, lists and dicts compare structurally. *)
Fixpoint py_eq (a b : value) {struct a} : bool :=
  match a, b with
  | VNone, VNone => true
  | VStr s, VStr t => bool_decide (s = t)
  | VList l, VList m =>
      (fix eq_list (l : list value) (m : list value) {struct l} : bool :=
         match l, m with
         | [], [] => true
         | x :: l', y :: m' => py_eq x y && eq_list l' m'
         | _, _ => false
         end) l m
  | VDict d, VDict e =>
      let eq_at : gmap string (value → bool) := py_eq <$> d in
      bool_decide (dom d = dom e) &&
      map_fold (λ k f acc, acc && match e !! k with
                                  | Some v => f v
                                  | None => false
                                  end) true eq_at
  | _, _ =>
      match num_of a, num_of b with
      | Some x, Some y => bool_decide (x = y)
      | _, _ => false
      end
  end.

(** [isinstance(x, (str, int, float, bool))] *)
Definition is_primitive (v : value) : bool :=
  match v with
  | VStr _ | VInt _ | VFloat _ | VBool _ => true
  | _ => false
  end.

(** [x in l] for a list [l] *)
Definition py_in (x : value) (l : list value) : bool :=
  existsb (py_eq x) l.

(** *** Strings *)

(** [c.isspace()] on ASCII *)
Definition is_space (c : ascii) : bool :=
  let n := nat_of_ascii c in
  ((9 <=? n) && (n <=? 13)) || ((28 <=? n) && (n <=? 32)).

Definition lower_char (c : ascii) : ascii :=
  let n := nat_of_ascii c in
  if (65 <=? n) && (n <=? 90) then ascii_of_nat (n + 32) else c.

(** [s.lower()] *)
Fixpoint lower (s : string) : string :=
  match s with
  | EmptyString => EmptyString
  | String c s' => String (lower_char c) (lower s')
  end.

(** [s.split()]: the maximal runs of non-whitespace characters *)
Fixpoint split (s : string) : list string :=
  match s with
  | EmptyString => []
  | String c s' =>
      let rest := split s' in
      if is_space c then rest
      else match s' with
           | EmptyString => [String c EmptyString]
           | String d _ =>
               if is_space d then String c EmptyString :: rest
               else match rest with
                    | w :: ws => String c w :: ws
                    | [] => [String c EmptyString]
                    end
           end
  end.

(** [s.split(sep)] for a separator [sep] of the two characters [a], [b] *)
Fixpoint split_on (a b : ascii) (s : string) : list string :=
  match s with
  | EmptyString => [EmptyString]
  | String c s' =>
      match s' with
      | EmptyString => [String c EmptyString]
      | String d s'' =>
          if bool_decide (c = a) && bool_decide (d = b)
          then EmptyString :: split_on a b s''
          else match split_on a b s' with
               | w :: ws => String c w :: ws
               | [] => [String c EmptyString]
               end
      end
  end.

(** [sep.join(l)] *)
Definition join (sep : string) (l : list string) : string := String.concat sep l.

(** [s.startswith(p)] *)
Definition startswith (s p : string) : bool := String.prefix p s.

(** [needle in s] for strings *)
Fixpoint contains (needle s : string) : bool :=
  String.prefix needle s ||
  match s with
  | EmptyString => false
  | String _ s' => contains needle s'
  end.

(** [s[:n]] for [0 <= n] *)
Definition take_chars (n : nat) (s : string) : string := String.substring 0 n s.

(** The white space that [int] strips: [" \t\n\v\f\r"].  The separators
    [\x1c] to [\x1f], which [str.split] and [str.isspace] count as white
    space, are not stripped by [int]. *)
Definition is_int_space (c : ascii) : bool :=
  let n := nat_of_ascii c in
  ((9 <=? n) && (n <=? 13)) || (n =? 32).

Fixpoint lstrip_int (s : string) : string :=
  match s with
  | EmptyString => EmptyString
  | String c s' => if is_int_space c then lstrip_int s' else s
  end.

Fixpoint rstrip_int (s : string) : string :=
  match s with
  | EmptyString => EmptyString
  | String c s' =>
      let r := rstrip_int s' in
      if is_int_space c && bool_decide (r = EmptyString) then EmptyString else String c r
  end.

Definition digit_of (c : ascii) : option Z :=
  let n := nat_of_ascii c in
  if (48 <=? n) && (n <=? 57) then Some (Z.of_nat (n - 48)) else None.

(** Decimal digits, single underscores allowed between two digits. *)
Fixpoint parse_digits (s : string) (acc : Z) (after_digit : bool) : option Z :=
  match s with
  | EmptyString => if after_digit then Some acc else None
  | String c s' =>
      match digit_of c with
      | Some d => parse_digits s' (10 * acc + d)%Z true
      | None =>
          if bool_decide (c = "_"%char) && after_digit
          then parse_digits s' acc false
          else None
      end
  end.

(** The number of decimal digits of a string (underscores and other
    characters are not counted). *)
Fixpoint count_digits (s : string) : nat :=
  match s with
  | EmptyString => 0
  | String c s' =>
      match digit_of c with
      | Some _ => S (count_digits s')
      | None => count_digits s'
      end
  end.

(** The default of [sys.int_info.default_max_str_digits]: [int] refuses a
    string with more decimal digits. *)
Definition max_str_digits : nat := 4300.

(** [int(s)] for a string [s]; [None] stands for [ValueError]. *)
Definition py_int (s : string) : option Z :=
  let digits_of ds :=
    if max_str_digits <? count_digits ds then None
    else parse_digits ds 0%Z false in
  match rstrip_int (lstrip_int s) with
  | String "-" ds => Z.opp <$> digits_of ds
  | String "+" ds => digits_of ds
  | ds => digits_of ds
  end.

End Py.

(** ** [src/core/updater.py] *)
Module Updater.
Import Py.

(** The parts of the Python runtime that the sources rely on and that are not
    fixed by the language: the order in which a [set] of strings is iterated,
    and the text [str(v)] of an object inside an f-string. *)
Class Runtime := {
  iter_set : gset string → list string;
  iter_set_perm : ∀ s, iter_set s ≡ₚ elements s;
  py_str : value → string;
}.

(** [class DiffOperation]; [old_value], [new_value] default to [None] and
    [confidence] to [1.0]. *)
Record DiffOperation := {
  op : string;
  path : list string;
  old_value : value;
  new_value : value;
  confidence : Qc;
}.

Definition Qc_max (a b : Qc) : Qc := if decide (a < b)%Qc then b else a.
Definition Qc_abs (a : Qc) : Qc := if decide (a < Qc_of_Z 0)%Qc then (- a)%Qc else a.

(** [MemoryUpdater._compute_similarity] *)
Definition _compute_similarity (old_val new_val : value) : Qc :=
  if py_eq old_val new_val then Qc_of_Z 1
  else match old_val, new_val with
       | VStr s, VStr t =>
           if bool_decide (s = EmptyString) || bool_decide (t = EmptyString)
           then Qc_of_Z 0
           else
             let old_words : gset string := list_to_set (split (lower s)) in
             let new_words : gset string := list_to_set (split (lower t)) in
             if bool_decide (old_words = ∅) || bool_decide (new_words = ∅)
             then Qc_of_Z 0
             else
               let intersection := size (old_words ∩ new_words) in
               let union := size (old_words ∪ new_words) in
               (Qc_of_Z (Z.of_nat intersection) / Qc_of_Z (Z.of_nat union))%Qc
       | _, _ =>
           match num_of old_val, num_of new_val with
           | Some a, Some b =>
               if bool_decide (a = Qc_of_Z 0) && bool_decide (b = Qc_of_Z 0)
               then Qc_of_Z 1
               else if bool_decide (a = Qc_of_Z 0) || bool_decide (b = Qc_of_Z 0)
               then Qc_of_Z 0
               else
                 let diff := Qc_abs (a - b)%Qc in
                 let max_val := Qc_max (Qc_abs a) (Qc_abs b) in
                 (Qc_of_Z 1 - diff / max_val)%Qc
           | _, _ => Qc_of_Z 0
           end
       end.

(** [MemoryUpdater._compare_lists] *)
Definition _compare_lists (old_list new_list : list value)
    (path : list string) (operations : list DiffOperation) : list DiffOperation :=
  if forallb is_primitive old_list && forallb is_primitive new_list then
    let added := List.filter (λ x, negb (py_in x old_list)) new_list in
    let removed := List.filter (λ x, negb (py_in x new_list)) old_list in
    operations
      ++ map (λ item, Build_DiffOperation "add" path VNone item (Qc_of_Z 1)) added
      ++ map (λ item, Build_DiffOperation "remove" path item VNone (Qc_of_Z 1)) removed
  else if py_eq (VList old_list) (VList new_list) then operations
  else operations ++
       [Build_DiffOperation "update" path (VList old_list) (VList new_list)
          (Qc_of_Z 8 / Qc_of_Z 10)%Qc].

Section diff.
Context `{!Runtime}.

(** The loop of [_compare_dicts]; [compare !! key] is the recursive call
    [self._compare_values(old_dict[key], ...)] for the keys of [old_dict]. *)
Definition _compare_dicts_loop
    (compare : gmap string (value → list string → list DiffOperation → list DiffOperation))
    (old_dict new_dict : gmap string value)
    (path : list string) (operations : list DiffOperation) : list DiffOperation :=
  let all_keys := dom old_dict ∪ dom new_dict in
  foldl (λ operations key,
    if startswith key "_" then operations
    else
      let new_path := path ++ [key] in
      match old_dict !! key, new_dict !! key with
      | None, new_val =>
          operations ++
          [Build_DiffOperation "add" new_path VNone (default VNone new_val) (Qc_of_Z 1)]
      | Some old_val, None =>
          operations ++
          [Build_DiffOperation "remove" new_path old_val VNone (Qc_of_Z 1)]
      | Some _, Some new_val =>
          match compare !! key with
          | Some compare_old_val => compare_old_val new_val new_path operations
          | None => operations
          end
      end) operations (iter_set all_keys).

(** [MemoryUpdater._compare_values] *)
Fixpoint _compare_values (old_val new_val : value)
    (path : list string) (operations : list DiffOperation) {struct old_val}
    : list DiffOperation :=
  if negb (bool_decide (type_of old_val = type_of new_val)) then
    operations ++ [Build_DiffOperation "update" path old_val new_val (Qc_of_Z 1)]
  else
    match old_val, new_val with
    | VDict old_dict, VDict new_dict =>
        _compare_dicts_loop (_compare_values <$> old_dict) old_dict new_dict path operations
    | VList old_list, VList new_list =>
        _compare_lists old_list new_list path operations
    | _, _ =>
        if negb (py_eq old_val new_val) then
          operations ++
          [Build_DiffOperation "update" path old_val new_val
             (_compute_similarity old_val new_val)]
        else operations
    end.

(** [MemoryUpdater._compare_dicts] *)
Definition _compare_dicts (old_dict new_dict : gmap string value)
    (path : list string) (operations : list DiffOperation) : list DiffOperation :=
  _compare_dicts_loop (_compare_values <$> old_dict) old_dict new_dict path operations.

(** [MemoryUpdater._compute_structured_diff] *)
Definition _compute_structured_diff (old new : gmap string value) : list DiffOperation :=
  let all_keys := dom old ∪ dom new in
  foldl (λ operations key,
    if startswith key "_" then operations
    else
      match old !! key, new !! key with
      | None, new_val =>
          operations ++
          [Build_DiffOperation "add" [key] VNone (default VNone new_val) (Qc_of_Z 1)]
      | Some old_val, None =>
          operations ++
          [Build_DiffOperation "remove" [key] old_val VNone (Qc_of_Z 1)]
      | Some old_val, Some new_val =>
          _compare_values old_val new_val [key] operations
      end) [] (iter_set all_keys).

End diff.

(** *** Patching *)

(** [current[index] = v] on a list, for an index already known to be in range *)
Definition list_set (l : list value) (index : Z) (v : value) : list value :=
  <[Z.to_nat index := v]> l.

(** [MemoryUpdater._update_nested] *)
Fixpoint _update_nested (current : value) (path : list string) (v : value)
    : value * option exn :=
  match path with
  | [] =>
      (* the loop over [path[:-1]] is empty; [path[-1]] raises when evaluated *)
      match current with
      | VDict _ | VList _ => (current, Some IndexError)
      | _ => (current, None)
      end
  | [last_key] =>
      match current with
      | VDict d => (VDict (<[last_key := v]> d), None)
      | VList l =>
          match py_int last_key with
          | None => (current, Some ValueError)
          | Some index =>
              if (0 <=? index)%Z && (index <? Z.of_nat (length l))%Z
              then (VList (list_set l index v), None)
              else (current, Some IndexError)
          end
      | _ => (current, None)
      end
  | key :: rest =>
      match current with
      | VDict d =>
          (* [if key not in current: current[key] = {}] *)
          let d := match d !! key with
                   | None => <[key := VDict ∅]> d
                   | Some _ => d
                   end in
          let '(sub, raised) := _update_nested (default (VDict ∅) (d !! key)) rest v in
          (VDict (<[key := sub]> d), raised)
      | _ =>
          (* [key not in current], [current[key] = {}] or [current[key]] fails *)
          (current, Some TypeError)
      end
  end.

(** [sys.maxsize] of a 64-bit interpreter: a repetition count above it does
    not fit an index-sized integer ([OverflowError]). *)
Definition sys_maxsize : Z := 2 ^ 63 - 1.

(** The largest number of items for which the interpreter requests the memory
    of a list at all ([sys.maxsize] over the size of a pointer); above it
    [MemoryError] is raised without a request.  A request that passes this
    check is taken to be granted: the exhaustion of the machine's memory is
    outside the model. *)
Definition max_list_items : Z := 2 ^ 60 - 1.

(** [MemoryUpdater._add_to_nested] *)
Fixpoint _add_to_nested (current : value) (path : list string) (v : value)
    : value * option exn :=
  match path with
  | [] => (current, Some IndexError)
  | [last_key] =>
      match current with
      | VDict d =>
          match d !! last_key with
          | None => (VDict (<[last_key := v]> d), None)
          | Some (VList existing) =>
              (VDict (<[last_key := VList (existing ++ [v])]> d), None)
          | Some existing =>
              (VDict (<[last_key := VList [existing; v]]> d), None)
          end
      | VList l =>
          match py_int last_key with
          | None => (current, Some ValueError)
          | Some index =>
              let len := Z.of_nat (length l) in
              let count := (index - len + 1)%Z in   (* of [[None] * count] *)
              if (len <=? index)%Z && (sys_maxsize <? count)%Z then
                (current, Some OverflowError)
              else if (len <=? index)%Z && (max_list_items <? count)%Z then
                (current, Some MemoryError)
              else
                let l := if (len <=? index)%Z
                         then l ++ replicate (Z.to_nat count) VNone
                         else l in
                let len := Z.of_nat (length l) in
                if (0 <=? index)%Z then (VList (list_set l index v), None)
                else if (- len <=? index)%Z then (VList (list_set l (len + index) v), None)
                else (VList l, Some IndexError)
          end
      | _ => (current, None)
      end
  | key :: rest =>
      match current with
      | VDict d =>
          let d := match d !! key with
                   | None => <[key := VDict ∅]> d
                   | Some _ => d
                   end in
          let '(sub, raised) := _add_to_nested (default (VDict ∅) (d !! key)) rest v in
          (VDict (<[key := sub]> d), raised)
      | _ => (current, Some TypeError)
      end
  end.

(** [MemoryUpdater._remove_from_nested] *)
Fixpoint _remove_from_nested (current : value) (path : list string)
    : value * option exn :=
  match path with
  | [] => (current, Some IndexError)
  | [last_key] =>
      match current with
      | VDict d =>
          match d !! last_key with
          | Some _ => (VDict (delete last_key d), None)
          | None => (current, None)
          end
      | VList l =>
          match py_int last_key with
          | None => (current, Some ValueError)
          | Some index =>
              if (0 <=? index)%Z && (index <? Z.of_nat (length l))%Z
              then (VList (delete (Z.to_nat index) l), None)
              else (current, None)
          end
      | _ => (current, None)
      end
  | key :: rest =>
      match current with
      | VDict d =>
          match d !! key with
          | None => (current, None)
          | Some sub =>
              let '(sub, raised) := _remove_from_nested sub rest in
              (VDict (<[key := sub]> d), raised)
          end
      | VList l =>
          if py_in (VStr key) l then (current, Some TypeError) else (current, None)
      | VStr s =>
          if contains key s then (current, Some TypeError) else (current, None)
      | _ => (current, Some TypeError)
      end
  end.

(** The body of the [try] block of [apply_diff]. *)
Definition apply_operation (new_content : value) (operation : DiffOperation)
    : value * option exn :=
  if bool_decide (op operation = "update") then
    _update_nested new_content (path operation) (new_value operation)
  else if bool_decide (op operation = "add") then
    _add_to_nested new_content (path operation) (new_value operation)
  else if bool_decide (op operation = "remove") then
    _remove_from_nested new_content (path operation)
  else (new_content, None).

(** The [for] loop of [apply_diff], with its
    [except (KeyError, IndexError, TypeError)]. *)
Fixpoint apply_operations (new_content : value) (diff_operations : list DiffOperation)
    : outcome value :=
  match diff_operations with
  | [] => Returned new_content
  | operation :: rest =>
      let '(new_content, raised) := apply_operation new_content operation in
      match raised with
      | None | Some KeyError | Some IndexError | Some TypeError =>
          apply_operations new_content rest
      | Some e => Raised e
      end
  end.


(** [MemoryUpdater.apply_diff]; the deep copy is the identity on values. *)
Definition apply_diff (old_content : value) (diff_operations : list DiffOperation)
    : outcome value :=
  apply_operations old_content diff_operations.

(** *** Summary regeneration *)

Definition significant_keywords : list string :=
  ["extracted_text"; "key_points"; "ui_components"; "content_type"].

(** [any(keyword in ' '.join(change.path) for keyword in [...])] *)
Definition touches_significant (change : DiffOperation) : bool :=
  existsb (λ keyword, contains keyword (join " " (path change))) significant_keywords.

Section summary.
Context `{!Runtime}.

(** What one change appends to [significant_changes], if anything.
    [change.path[-1]] is only evaluated after a keyword was found in the joined
    path, so the path is not empty there. *)
Definition describe_change (change : DiffOperation) : option string :=
  if touches_significant change then
    let last_key := List.last (path change) EmptyString in
    if bool_decide (op change = "add") then
      Some ("Added " +:+ last_key +:+ ": " +:+ py_str (new_value change))
    else if bool_decide (op change = "remove") then
      Some ("Removed " +:+ last_key +:+ ": " +:+ py_str (old_value change))
    else if bool_decide (op change = "update") then
      match old_value change, new_value change with
      | VStr old_text, VStr new_text =>
          if (50 <? Z.of_nat (String.length new_text) - Z.of_nat (String.length old_text))%Z
          then Some ("Updated " +:+ last_key +:+ " with additional content")
          else None
      | _, _ => None
      end
    else None
  else None.

Definition significant_changes (changes : list DiffOperation) : list string :=
  omap describe_change changes.

(** The text [updated_summary] of [_generate_incremental_summary] before the
    cap on its length, given the collected descriptions. *)
Definition incorporate_changes (old_summary : string) (collected : list string) : string :=
  let changes_text := join "; " (take 3 collected) in
  if String.length old_summary <? 200 then
    old_summary +:+ " [Updated: " +:+ changes_text +:+ "]"
  else
    let sentences := split_on "." " " old_summary in
    if 1 <? length sentences
    then join ". " (take 1 sentences ++ ("Updated: " +:+ changes_text) :: drop 1 sentences)
    else old_summary +:+ " [Updated: " +:+ changes_text +:+ "]".

(** [MemoryUpdater._generate_incremental_summary]; [new_content] is not read
    by the source either. *)
Definition _generate_incremental_summary (old_summary : string)
    (changes : list DiffOperation) (new_content : value) : string :=
  match changes with
  | [] => old_summary
  | _ :: _ =>
      match significant_changes changes with
      | [] => old_summary
      | collected =>
          let updated_summary := incorporate_changes old_summary collected in
          if 500 <? String.length updated_summary
          then take_chars 497 updated_summary +:+ "..."
          else updated_summary
      end
  end.

(** The dictionary returned by [update_memory_incrementally].  The entry
    [diff_log_entry] (text diffs of three fields, a timestamp and a digest of
    the changes) is read by no caller in the repository and is left out.  Its
    text diffs are computed by [difflib] on the fields [extracted_text],
    [layout_description] and [full_summary], which is defined on strings and
    raises on other values; the statements about an update that changes the
    document are made for documents whose text fields are strings or absent
    ([text_fields_are_strings] below). *)
Record update_result := {
  updated : bool;
  memory_id : string;
  changes : list DiffOperation;
  new_content : gmap string value;
  new_summary : value;
  version_increment : Z;
}.

(** [MemoryUpdater.update_memory_incrementally] *)
Definition update_memory_incrementally (memory_id : string)
    (old_content new_content : gmap string value) : outcome update_result :=
  let changes := _compute_structured_diff old_content new_content in
  let old_summary := default (VStr EmptyString) (old_content !! "full_summary") in
  match changes with
  | [] =>
      Returned {| updated := false; memory_id := memory_id; changes := [];
                  new_content := old_content; new_summary := old_summary;
                  version_increment := 0 |}
  | _ :: _ =>
      match apply_diff (VDict old_content) changes with
      | Raised e => Raised e
      | Returned updated_content =>
          (* a summary that is not a string has no [lower] method *)
          let new_summary :=
            match old_summary with
            | VStr s => Returned (VStr (_generate_incremental_summary s changes updated_content))
            | other =>
                match significant_changes changes with
                | [] => Returned other
                | _ :: _ => Raised AttributeError
                end
            end in
          match new_summary, updated_content with
          | Raised e, _ => Raised e
          | Returned new_summary, VDict updated_content =>
              Returned {| updated := true; memory_id := memory_id; changes := changes;
                          new_content := <["full_summary" := new_summary]> updated_content;
                          new_summary := new_summary;
                          version_increment := 1 |}
          | Returned _, _ => Raised TypeError
          end
      end
  end.

End summary.

End Updater.

(** ** [src/core/memory_store.py] *)
Module Store.
Import Py.

(** A row of the table [memories].  The JSON columns are kept decoded; the
    conversions of SQLite's column affinities are not modelled: a record
    stands for a row whose [summary] is a string (the summary of every
    document of the vision processor) and whose time stamps are the ISO time
    stamps that [datetime.now().isoformat()] writes, which SQLite stores as
    they are bound. *)
Record MemoryRecord := {
  id : string;
  content_hash : option string;
  perceptual_hash : option string;
  structured_content : gmap string value;
  summary : value;
  version : Z;
  created_at : string;
  updated_at : string;
  metadata : gmap string value;
}.

(** A row of the table [memory_versions]. *)
Record VersionHistoryEntry := {
  memory_id : string;
  entry_version : Z;
  diff_content : list Updater.DiffOperation;
  entry_created_at : string;
}.

(** [class MemoryDatabase].  [is_remote] selects the libsql connection, whose
    rows are plain tuples; the local [sqlite3] connection yields [sqlite3.Row]
    objects (see the [isinstance(row, tuple)] tests of [get_memory],
    [find_by_perceptual_hash] and [get_recent_memories]).  The tables are
    listed in the order in which a scan returns their rows. *)
Record MemoryDatabase := {
  is_remote : bool;
  memories : list MemoryRecord;
  memory_versions : list VersionHistoryEntry;
}.

(** [MemoryDatabase.get_memory] *)
Definition get_memory (self : MemoryDatabase) (memory_id : string) : option MemoryRecord :=
  List.find (λ row, bool_decide (id row = memory_id)) (memories self).

(** The exception of [dict(row)] for a row that is a tuple: [dict] wants every
    element to be a sequence of length two, so a string of another length
    raises [ValueError] and [None] or an integer raises [TypeError]; the
    integer column [version] is reached at the latest. *)
Definition dict_of_tuple_error (row : MemoryRecord) : exn :=
  let columns : list (option nat) :=
    [ Some (String.length (id row));
      String.length <$> content_hash row;
      String.length <$> perceptual_hash row;
      (* the JSON text of a dict has two characters exactly when it is empty *)
      Some (if bool_decide (structured_content row = ∅) then 2 else 3);
      match summary row with VStr s => Some (String.length s) | _ => None end ] in
  match List.find (λ column, negb (bool_decide (column = Some 2))) columns with
  | Some (Some _) => ValueError
  | _ => TypeError
  end.

(** [MemoryDatabase.find_by_content_hash].  The dictionary that the code
    returns holds the column [metadata] as the JSON text of the row (only
    [structured_content] is decoded); the callers read [id] and [summary],
    and no statement below reads the [metadata] of a record returned here. *)
Definition find_by_content_hash (self : MemoryDatabase) (hash : string)
    : outcome (option MemoryRecord) :=
  match List.find (λ row, bool_decide (content_hash row = Some hash)) (memories self) with
  | Some row =>
      if is_remote self then Raised (dict_of_tuple_error row)   (* [dict(row)] *)
      else Returned (Some row)
  | None => Returned None
  end.

(** The local function [hamming_distance] of [find_by_perceptual_hash]. *)
Fixpoint mismatches (s1 s2 : string) : Z :=
  match s1, s2 with
  | String c1 s1', String c2 s2' =>
      ((if bool_decide (c1 = c2) then 0 else 1) + mismatches s1' s2')%Z
  | _, _ => 0%Z
  end.

Definition hamming_distance (s1 s2 : string) : Z :=
  if bool_decide (String.length s1 = String.length s2) then mismatches s1 s2
  else 1000%Z.

(** The scan of [find_by_perceptual_hash]: the pair [(best_match, min_dist)]
    after the candidates in [candidates] were visited. *)
Fixpoint scan_candidates (target_hash : string) (threshold : Z)
    (candidates : list MemoryRecord) (best_match : option string) (min_dist : Z)
    : option string * Z :=
  match candidates with
  | [] => (best_match, min_dist)
  | row :: rest =>
      match perceptual_hash row with
      | None | Some EmptyString =>
          (* [if not candidate_hash: continue] *)
          scan_candidates target_hash threshold rest best_match min_dist
      | Some candidate_hash =>
          let dist := hamming_distance target_hash candidate_hash in
          if (dist <=? threshold)%Z && (dist <? min_dist)%Z
          then scan_candidates target_hash threshold rest (Some (id row)) dist
          else scan_candidates target_hash threshold rest best_match min_dist
      end
  end.

(** [MemoryDatabase.find_by_perceptual_hash] *)
Definition find_by_perceptual_hash (self : MemoryDatabase) (p_hash : string)
    (threshold : Z) : option MemoryRecord :=
  match fst (scan_candidates p_hash threshold (memories self) None 1000%Z) with
  | None | Some EmptyString => None          (* [if best_match:] fails *)
  | Some best_match => get_memory self best_match
  end.

(** The default value of [threshold]. *)
Definition default_threshold : Z := 4.

(** The exception of a violated constraint: [sqlite3.IntegrityError] on the
    local connection; the libsql connection reports a database error as
    [ValueError]. *)
Definition constraint_error (self : MemoryDatabase) : exn :=
  if is_remote self then ValueError else IntegrityError.

(** [MemoryDatabase.add_memory]; [now] is the time stamp of the call.  A row
    whose id or content hash is taken violates a constraint and the
    transaction is rolled back.  The parameters are taken to be bound as they
    are: [content.get('full_summary', '')] is a string (a list or a dict is
    refused by the binding of [sqlite3], a number is stored as its text);
    the statements about [add_memory] carry this as a hypothesis. *)
Definition add_memory (self : MemoryDatabase) (now : string) (memory_id : string)
    (content : gmap string value) (content_fp perceptual_fp : option string)
    (metadata : gmap string value) : MemoryDatabase * option exn :=
  if existsb (λ row, bool_decide (id row = memory_id) ||
                     bool_decide (is_Some content_fp ∧ content_hash row = content_fp))
       (memories self)
  then (self, Some (constraint_error self))
  else
    let row := {| id := memory_id; content_hash := content_fp;
                  perceptual_hash := perceptual_fp; structured_content := content;
                  summary := default (VStr EmptyString) (content !! "full_summary");
                  version := 1; created_at := now; updated_at := now;
                  metadata := metadata |} in
    ({| is_remote := is_remote self; memories := memories self ++ [row];
        memory_versions := memory_versions self |}, None).

(** [MemoryDatabase.update_memory]: the update and the history entry are one
    transaction; when no row has the id, [fetchone()] is [None] and indexing
    it raises.  The parameters are taken to be bound as they are:
    [new_content.get('full_summary', '')] is a string, and [version_inc] and
    the new version fit SQLite's 64-bit integers; the statements about
    [update_memory] carry this as hypotheses. *)
Definition update_memory (self : MemoryDatabase) (now : string) (memory_id : string)
    (new_content : gmap string value) (changes : list Updater.DiffOperation)
    (version_inc : Z) : MemoryDatabase * option exn :=
  let update_row row :=
    if bool_decide (id row = memory_id)
    then {| id := id row; content_hash := content_hash row;
            perceptual_hash := perceptual_hash row;
            structured_content := new_content;
            summary := default (VStr EmptyString) (new_content !! "full_summary");
            version := version row + version_inc;
            created_at := created_at row; updated_at := now;
            metadata := metadata row |}
    else row in
  let updated := update_row <$> memories self in
  match List.find (λ row, bool_decide (id row = memory_id)) updated with
  | None => (self, Some TypeError)
  | Some row =>
      let entry := {| memory_id := memory_id; entry_version := version row;
                      diff_content := changes; entry_created_at := now |} in
      ({| is_remote := is_remote self; memories := updated;
          memory_versions := memory_versions self ++ [entry] |}, None)
  end.

End Store.

(** ** [src/core/engine.py] *)
Module Engine.
Import Py.

(** The dictionary of [ImageFingerprinter.generate_all_fingerprints]; the
    entries [size] and [mode] are not read by the engine. *)
Record FingerprintSet := {
  content : string;
  perceptual : string;
  structural : string;
}.

(** The optional [metadata] argument: the entry [update_memory_id], when
    present, is a string. *)
Record Metadata := {
  update_memory_id : option string;
  other_entries : gmap string value;
}.

Definition metadata_dict (metadata : option Metadata) : gmap string value :=
  match metadata with
  | None => ∅
  | Some m =>
      match update_memory_id m with
      | Some target => <["update_memory_id" := VStr target]> (other_entries m)
      | None => other_entries m
      end
  end.

(** The dictionary returned by [process_screen]; the entries [summary] and
    [changes_count] are absent from some results. *)
Record Response := {
  status : string;
  memory_id : string;
  summary : option value;
  changes_count : option nat;
  message : string;
}.

(** What the collaborators outside the core do during one call of
    [process_screen]. *)
Record Collaborators (image : Type) := {
  generate_all_fingerprints : image → outcome FingerprintSet;
  process_hybrid : image → outcome (gmap string value);
  uuid4 : string;
  now : string;
}.
Global Arguments generate_all_fingerprints {image} _ _.
Global Arguments process_hybrid {image} _ _.
Global Arguments uuid4 {image} _.
Global Arguments now {image} _.

Section engine.
Context `{!Updater.Runtime} {image : Type} (world : Collaborators image).

(** [VisualMemoryEngine._perform_update] *)
Definition _perform_update (store : Store.MemoryDatabase) (memory_id : string)
    (old_memory : Store.MemoryRecord) (new_content : gmap string value)
    : Store.MemoryDatabase * outcome Response :=
  match Updater.update_memory_incrementally memory_id
          (Store.structured_content old_memory) new_content with
  | Raised e => (store, Raised e)
  | Returned update_result =>
      if Updater.updated update_result then
        let '(store, raised) :=
          Store.update_memory store (now world) memory_id
            (Updater.new_content update_result)
            (Updater.changes update_result)
            (Updater.version_increment update_result) in
        match raised with
        | Some e => (store, Raised e)
        | None =>
            (store, Returned {|
               status := "updated";
               memory_id := memory_id;
               summary := Some (Updater.new_summary update_result);
               changes_count := Some (length (Updater.changes update_result));
               message := "Memory updated with semantic changes." |})
        end
      else
        (store, Returned {|
           status := "skipped";
           memory_id := memory_id;
           summary := None;
           changes_count := None;
           message := "No semantic changes detected." |})
  end.

(** [if s:] for an optional string *)
Definition nonempty (s : option string) : option string :=
  match s with
  | Some EmptyString | None => None
  | Some s => Some s
  end.

(** [VisualMemoryEngine.process_screen]; the state of the engine is its
    store. *)
Definition process_screen (store : Store.MemoryDatabase) (image_path : image)
    (metadata : option Metadata) : Store.MemoryDatabase * outcome Response :=
  match generate_all_fingerprints world image_path with
  | Raised e => (store, Raised e)
  | Returned fingerprints =>
      match Store.find_by_content_hash store (content fingerprints) with
      | Raised e => (store, Raised e)
      | Returned (Some existing_exact) =>
          (store, Returned {|
             status := "unchanged";
             memory_id := Store.id existing_exact;
             summary := Some (Store.summary existing_exact);
             changes_count := None;
             message := "Exact duplicate found. No processing needed." |})
      | Returned None =>
          match process_hybrid world image_path with
          | Raised e => (store, Raised e)
          | Returned structured_content =>
              let target_memory_id :=
                match nonempty (metadata ≫= update_memory_id) with
                | Some target => Some target
                | None =>
                    Store.id <$>
                      Store.find_by_perceptual_hash store (perceptual fingerprints) 4
                end in
              match nonempty target_memory_id ≫= Store.get_memory store,
                    nonempty target_memory_id with
              | Some old_memory, Some target =>
                  _perform_update store target old_memory structured_content
              | _, _ =>
                  let '(store, raised) :=
                    Store.add_memory store (now world) (uuid4 world) structured_content
                      (Some (content fingerprints)) (Some (perceptual fingerprints))
                      (metadata_dict metadata) in
                  match raised with
                  | Some e => (store, Raised e)
                  | None =>
                      (store, Returned {|
                         status := "created";
                         memory_id := uuid4 world;
                         summary := Some (default VNone (structured_content !! "full_summary"));
                         changes_count := None;
                         message := "New memory created successfully." |})
                  end
              end
          end
      end
  end.

End engine.

End Engine.

(** ** Notions used to state the properties *)
Module Props.
Import Py Updater.

(** A runtime for the examples: sets are iterated in the order of [elements],
    and [str] prints a string as it is and anything else as [<object>]. *)
Definition example_runtime : Runtime := {|
  iter_set := elements;
  iter_set_perm := λ s, reflexivity (elements s);
  py_str := λ v, match v with VStr s => s | _ => "<object>"%string end;
|}.

(** The operations as the diff engine builds them. *)
Definition add_op (path : list string) (item : value) : DiffOperation :=
  Build_DiffOperation "add" path VNone item (Qc_of_Z 1).
Definition remove_op (path : list string) (item : value) : DiffOperation :=
  Build_DiffOperation "remove" path item VNone (Qc_of_Z 1).
Definition update_op (path : list string) (old new : value) (c : Qc) : DiffOperation :=
  Build_DiffOperation "update" path old new c.

(** Scalars: [None], booleans, numbers and strings. *)
Definition is_scalar (v : value) : bool :=
  match v with
  | VList _ | VDict _ => false
  | _ => true
  end.

(** The mapping found by following [p] from [doc] through mappings. *)
Fixpoint mapping_at (doc : value) (p : list string) : option (gmap string value) :=
  match doc, p with
  | VDict m, [] => Some m
  | VDict m, k :: p' => m !! k ≫= λ sub, mapping_at sub p'
  | _, _ => None
  end.

(** [doc] with the object at the end of [p] replaced by [new]. *)
Fixpoint replace_at (doc : value) (p : list string) (new : value) : value :=
  match p with
  | [] => new
  | k :: p' =>
      match doc with
      | VDict m =>
          match m !! k with
          | Some sub => VDict (<[k := replace_at sub p' new]> m)
          | None => doc
          end
      | _ => doc
      end
  end.

(** The similarity function in the words of the specification: identical
    values give 1; two strings give the Jaccard similarity of their sets of
    lower-case words, 0 when a side has no word; two numbers [a], [b] give
    [1 - |a - b| / max(|a|, |b|)], with 1 when both are zero and 0 when exactly
    one is; any other combination gives 0. *)
Definition word_set (s : string) : gset string := list_to_set (split (lower s)).

Definition jaccard (s t : string) : Qc :=
  if bool_decide (word_set s = ∅ ∨ word_set t = ∅) then Qc_of_Z 0
  else (Qc_of_Z (Z.of_nat (size (word_set s ∩ word_set t)))
        / Qc_of_Z (Z.of_nat (size (word_set s ∪ word_set t))))%Qc.

Definition number_of (v : value) : option Qc :=
  match v with
  | VInt z => Some (Qc_of_Z z)
  | VFloat q => Some q
  | _ => None
  end.

Definition numeric_similarity (a b : Qc) : Qc :=
  if bool_decide (a = Qc_of_Z 0 ∧ b = Qc_of_Z 0) then Qc_of_Z 1
  else if bool_decide (a = Qc_of_Z 0 ∨ b = Qc_of_Z 0) then Qc_of_Z 0
  else (Qc_of_Z 1 - Qc_abs (a - b) / Qc_max (Qc_abs a) (Qc_abs b))%Qc.

Definition similarity_spec (old new : value) : Qc :=
  match old, new with
  | VNone, VNone => Qc_of_Z 1
  | VBool a, VBool b => if bool_decide (a = b) then Qc_of_Z 1 else Qc_of_Z 0
  | VStr s, VStr t => if bool_decide (s = t) then Qc_of_Z 1 else jaccard s t
  | _, _ =>
      match number_of old, number_of new with
      | Some a, Some b => if bool_decide (a = b) then Qc_of_Z 1 else numeric_similarity a b
      | _, _ => Qc_of_Z 0
      end
  end.

(** The scalar-list comparison in the words of the specification: the two
    lists are compared as sets of distinct values. *)
Fixpoint distinct (l : list value) : list value :=
  match l with
  | [] => []
  | x :: l' => if py_in x l' then distinct l' else x :: distinct l'
  end.

Definition distinct_membership_diff (old_list new_list : list value)
    (path : list string) : list DiffOperation :=
  map (add_op path) (distinct (List.filter (λ x, negb (py_in x old_list)) new_list))
  ++ map (remove_op path) (distinct (List.filter (λ x, negb (py_in x new_list)) old_list)).

(** Documents without lists, and documents without a key that starts with an
    underscore. *)
Fixpoint list_free (v : value) : Prop :=
  match v with
  | VList _ => False
  | VDict d => map_fold (λ _ v' P, list_free v' ∧ P) True d
  | _ => True
  end.

Fixpoint public_keys (v : value) : Prop :=
  match v with
  | VList l => foldr (λ v' P, public_keys v' ∧ P) True l
  | VDict d =>
      map_fold (λ k v' P, startswith k "_" = false ∧ public_keys v' ∧ P) True d
  | _ => True
  end.

(** What patching [old] with its diff against [new] yields on documents
    without lists: [new], except that in two mappings found at the same place
    the entries whose key starts with an underscore are those of [old]. *)
Definition pick_entry (keep : option (value → value)) (new_val : option value)
    : option value :=
  match keep, new_val with
  | Some keep_old, Some new_val => Some (keep_old new_val)
  | Some _, None => None
  | None, new_val => new_val
  end.

Fixpoint overlay (old new : value) {struct old} : value :=
  match old, new with
  | VDict old_dict, VDict new_dict =>
      VDict (filter (λ entry, startswith entry.1 "_" = true) old_dict
             ∪ filter (λ entry, startswith entry.1 "_" = false)
                      (merge pick_entry (overlay <$> old_dict) new_dict))
  | _, _ => new
  end.

Definition overlay_dict (old_dict new_dict : gmap string value) : gmap string value :=
  filter (λ entry, startswith entry.1 "_" = true) old_dict
  ∪ filter (λ entry, startswith entry.1 "_" = false)
           (merge pick_entry (overlay <$> old_dict) new_dict).

(** The exceptions that the three path walkers of the patcher can raise. *)
Definition structural (e : exn) : Prop :=
  e = IndexError ∨ e = TypeError ∨ e = ValueError
  ∨ e = OverflowError ∨ e = MemoryError.

(** A summary of 501 characters. *)
Definition long_summary : string :=
  String.concat EmptyString (replicate 501 "x"%string).

(** The number of constructors of an object, for inductions on objects. *)
Fixpoint weight (v : value) : nat :=
  match v with
  | VList l => S (foldr (λ v' n, weight v' + n) 0 l)
  | VDict d => S (map_fold (λ _ v' n, weight v' + n) 0 d)
  | _ => 1
  end.

(** *** The store *)

(** The distance of a stored row to the query, for the rows that the scan
    considers: those with a perceptual hash that is not empty. *)
Definition candidate_distance (query : string) (row : Store.MemoryRecord) : option Z :=
  match Store.perceptual_hash row with
  | None | Some EmptyString => None
  | Some h => Some (Store.hamming_distance query h)
  end.

(** Row [i] is the first of the considered rows whose distance is least among
    those within the threshold, and that distance is below 1000. *)
Definition nearest_within (rows : list Store.MemoryRecord) (query : string)
    (threshold : Z) (i : nat) (r : Store.MemoryRecord) : Prop :=
  rows !! i = Some r ∧
  ∃ d, candidate_distance query r = Some d ∧ (d ≤ threshold)%Z ∧ (d < 1000)%Z ∧
       ∀ j r' d', rows !! j = Some r' → candidate_distance query r' = Some d' →
                  (d' ≤ threshold)%Z → (d ≤ d')%Z ∧ (d' = d → i ≤ j).

(** The distance of a stored record from the query, for a record that has a
    perceptual hash: the number of positions at which the two hashes differ
    (for hashes of one length, see [Store.hamming_distance]). *)
Definition record_distance (query : string) (row : Store.MemoryRecord) : option Z :=
  Store.hamming_distance query <$> Store.perceptual_hash row.

(** Row [i] is the record of least distance among the records within the
    threshold, the first of them in the order of the table. *)
Definition nearest_record (rows : list Store.MemoryRecord) (query : string)
    (threshold : Z) (i : nat) (r : Store.MemoryRecord) : Prop :=
  rows !! i = Some r ∧
  ∃ d, record_distance query r = Some d ∧ (d ≤ threshold)%Z ∧
       ∀ j r' d', rows !! j = Some r' → record_distance query r' = Some d' →
                  (d' ≤ threshold)%Z → (d ≤ d')%Z ∧ (d' = d → i ≤ j).

(** The records that the engine stores: the id is a uuid and the perceptual
    hash, when there is one, is the hash of the fingerprinter; neither is the
    empty string. *)
Definition stored_by_engine (rows : list Store.MemoryRecord) : Prop :=
  ∀ r, r ∈ rows →
    Store.id r ≠ EmptyString ∧ Store.perceptual_hash r ≠ Some EmptyString.

(** A row with the given id and hashes, for the examples. *)
Definition example_row (id : string) (content_hash perceptual_hash : option string)
    : Store.MemoryRecord := {|
  Store.id := id;
  Store.content_hash := content_hash;
  Store.perceptual_hash := perceptual_hash;
  Store.structured_content := {[ "full_summary" := VStr "A login form." ]};
  Store.summary := VStr "A login form.";
  Store.version := 1;
  Store.created_at := "2024-01-01T00:00:00";
  Store.updated_at := "2024-01-01T00:00:00";
  Store.metadata := ∅;
|}.

Definition example_store (remote : bool) (rows : list Store.MemoryRecord)
    : Store.MemoryDatabase := {|
  Store.is_remote := remote;
  Store.memories := rows;
  Store.memory_versions := [];
|}.

(** Collaborators for the examples: every image has the content hash
    ["c0ffee"] and the perceptual hash ["ff00"], and the extractor returns a
    document with a summary. *)
Definition example_world : Engine.Collaborators string := {|
  Engine.generate_all_fingerprints := λ _,
    Returned {| Engine.content := "c0ffee"; Engine.perceptual := "ff00";
                Engine.structural := "5eed" |};
  Engine.process_hybrid := λ _,
    Returned {[ "full_summary" := VStr "A login form, again." ]};
  Engine.uuid4 := "mem-2";
  Engine.now := "2024-01-02T00:00:00";
|}.

(** *** The structure of a diff *)

(** An operation with [p] put in front of its path. *)
Definition with_prefix (p : list string) (operation : DiffOperation) : DiffOperation :=
  Build_DiffOperation (op operation) (p ++ path operation)
    (old_value operation) (new_value operation) (confidence operation).

(** One turn of the loop of [_compare_dicts], with the recursive call
    written out. *)
Definition dict_step `{!Runtime} (old_dict new_dict : gmap string value)
    (path : list string) (operations : list DiffOperation) (key : string)
    : list DiffOperation :=
  if startswith key "_" then operations
  else
    match old_dict !! key, new_dict !! key with
    | None, new_val => operations ++ [add_op (path ++ [key]) (default VNone new_val)]
    | Some old_val, None => operations ++ [remove_op (path ++ [key]) old_val]
    | Some old_val, Some new_val =>
        _compare_values old_val new_val (path ++ [key]) operations
    end.

(** Two documents without lists for the examples. *)
Definition example_old : gmap string value :=
  {[ "content_type" := VStr "form";
     "layout" := VDict {[ "width" := VInt 10; "height" := VInt 20 ]};
     "note" := VNone ]}.

Definition example_new : gmap string value :=
  {[ "content_type" := VStr "login form";
     "layout" := VDict {[ "width" := VInt 10; "depth" := VBool true ]};
     "confidence" := VInt 1 ]}.

End Props.

(** ** [src/core/updater.py]: the diff log *)
Module DiffLog.
Import Py.

(** An entry of the diff log, as [update_memory_incrementally] builds it in
    [diff_log_entry] and [_merge_diffs] rebuilds it.  The optional entry
    [text_diffs] is read with the default [{}]; [merged_from] is present in
    merged entries only. *)
Record DiffLogEntry := {
  timestamp : string;
  operations : list Updater.DiffOperation;
  text_diffs : gmap string value;
  change_count : Z;
  change_hash : string;
  merged_from : option (string * string);
}.

(** The library functions that the diff log relies on: the instant, in
    seconds, that [datetime.fromisoformat] reads from a time stamp; the text
    [str(op)] of an operation; the hexadecimal MD5 digest of a string. *)
Class Library := {
  seconds_of : string → Qc;
  str_of_operation : Updater.DiffOperation → string;
  md5_hexdigest : string → string;
}.

Section compress.
Context `{!Library}.

(** [MemoryUpdater._can_merge_diffs]; [None] stands for the
    [ZeroDivisionError] of the division by [max(len(ops1), len(ops2))]. *)
Definition _can_merge_diffs (diff1 diff2 : DiffLogEntry) : option bool :=
  let time1 := seconds_of (timestamp diff1) in
  let time2 := seconds_of (timestamp diff2) in
  let time_diff := Updater.Qc_abs (time2 - time1)%Qc in
  if bool_decide (Qc_of_Z 300 < time_diff)%Qc then Some false
  else
    let ops1 : gset string := list_to_set (str_of_operation <$> operations diff1) in
    let ops2 : gset string := list_to_set (str_of_operation <$> operations diff2) in
    let denominator := Nat.max (size ops1) (size ops2) in
    if bool_decide (denominator = 0) then None
    else
      let similarity :=
        (Qc_of_Z (Z.of_nat (size (ops1 ∩ ops2))) / Qc_of_Z (Z.of_nat denominator))%Qc in
      Some (bool_decide (Qc_of_Z 1 / Qc_of_Z 2 < similarity)%Qc).

(** [MemoryUpdater._merge_diffs] *)
Definition _merge_diffs (diff1 diff2 : DiffLogEntry) : DiffLogEntry := {|
  timestamp := timestamp diff2;
  operations := operations diff1 ++ operations diff2;
  text_diffs := text_diffs diff2 ∪ text_diffs diff1;
  change_count := change_count diff1 + change_count diff2;
  change_hash := md5_hexdigest (change_hash diff1 +:+ change_hash diff2);
  merged_from := Some (change_hash diff1, change_hash diff2);
|}.

(** The loop of [compress_diffs] over [diff_log[1:]]. *)
Fixpoint compress_loop (compressed : list DiffLogEntry) (current : DiffLogEntry)
    (rest : list DiffLogEntry) : option (list DiffLogEntry) :=
  match rest with
  | [] => Some (compressed ++ [current])
  | next_diff :: rest =>
      match _can_merge_diffs current next_diff with
      | None => None
      | Some true => compress_loop compressed (_merge_diffs current next_diff) rest
      | Some false => compress_loop (compressed ++ [current]) next_diff rest
      end
  end.

(** [MemoryUpdater.compress_diffs] *)
Definition compress_diffs (diff_log : list DiffLogEntry) : option (list DiffLogEntry) :=
  match diff_log with
  | [] | [_] => Some diff_log
  | first :: rest => compress_loop [] first rest
  end.

End compress.

End DiffLog.

(** ** Further notions: the document after a patch, values at a path, the
    invariant of the store *)
Module Derived.
Import Py Updater Props.

(** *** The document that patching with a diff produces *)

(** The value left under a key whose old and new values are lists; [None]
    when the entry is gone. *)
Definition patched_list (old_list new_list : list value) : option value :=
  if forallb is_primitive old_list && forallb is_primitive new_list then
    match List.filter (λ x, negb (py_in x new_list)) old_list with
    | [] => Some (VList (old_list
                         ++ List.filter (λ x, negb (py_in x old_list)) new_list))
    | _ :: _ => None
    end
  else if py_eq (VList old_list) (VList new_list) then Some (VList old_list)
  else Some (VList new_list).

Definition pick_patched (keep : option (value → option value)) (new_val : option value)
    : option value :=
  match keep, new_val with
  | Some patch_old, Some new_val => patch_old new_val
  | Some _, None => None
  | None, new_val => new_val
  end.

(** The value left under a key present in both documents. *)
Fixpoint patched (old new : value) {struct old} : option value :=
  match old, new with
  | VDict old_dict, VDict new_dict =>
      Some (VDict (filter (λ entry, startswith entry.1 "_" = true) old_dict
                   ∪ filter (λ entry, startswith entry.1 "_" = false)
                            (merge pick_patched (patched <$> old_dict) new_dict)))
  | VList old_list, VList new_list => patched_list old_list new_list
  | _, _ => Some new
  end.

Definition patched_dict (old_dict new_dict : gmap string value) : gmap string value :=
  filter (λ entry, startswith entry.1 "_" = true) old_dict
  ∪ filter (λ entry, startswith entry.1 "_" = false)
           (merge pick_patched (patched <$> old_dict) new_dict).

(** *** Paths *)

(** The object at the end of [path], following keys of mappings. *)
Fixpoint value_at (doc : value) (path : list string) : option value :=
  match path with
  | [] => Some doc
  | key :: rest =>
      match doc with
      | VDict d => d !! key ≫= λ sub, value_at sub rest
      | _ => None
      end
  end.

(** [path] leads through mappings as far as the document goes: every object
    met before the last segment is a mapping, or the key is missing. *)
Fixpoint passable (doc : value) (path : list string) : Prop :=
  match path with
  | [] => False
  | key :: rest =>
      match doc with
      | VDict d =>
          match rest with
          | [] => True
          | _ :: _ =>
              match d !! key with
              | Some sub => passable sub rest
              | None => True
              end
          end
      | _ => False
      end
  end.

(** *** The store *)

(** The constraints of the table [memories]: the ids are unique (primary
    key) and so are the content hashes that are not null. *)
Definition constraints_hold (db : Store.MemoryDatabase) : Prop :=
  NoDup (Store.id <$> Store.memories db)
  ∧ NoDup (omap Store.content_hash (Store.memories db)).

(** Values and documents without floats.  Floats are idealised as rationals,
    which leaves out the overflow of float arithmetic (an infinite
    difference of two finite floats, a huge integer that meets a float); the
    statements about the range of the similarity are made for values that
    are not floats, on which the code computes a correctly rounded quotient
    of two integers. *)
Definition is_float (v : value) : bool :=
  match v with
  | VFloat _ => true
  | _ => false
  end.

Fixpoint float_free (v : value) : Prop :=
  match v with
  | VFloat _ => False
  | VList l => foldr (λ v' P, float_free v' ∧ P) True l
  | VDict d => map_fold (λ _ v' P, float_free v' ∧ P) True d
  | _ => True
  end.

(** The summary that the store binds for a document is a string:
    [content.get('full_summary', '')] is the entry, a string, or the default
    ['']. *)
Definition summary_is_text (content : gmap string value) : Prop :=
  match content !! "full_summary" with
  | Some (VStr _) | None => True
  | Some _ => False
  end.

(** The integers that SQLite stores and adds as integers. *)
Definition fits_int64 (z : Z) : Prop := (- 2 ^ 63 ≤ z < 2 ^ 63)%Z.

(** The fields of which [update_memory_incrementally] computes a text diff
    for its log entry.  The embedding leaves the log entry out; the text diff
    is computed by [difflib] and is defined on strings, so the statements
    about an update that changes the document are made for documents whose
    text fields are strings or absent. *)
Definition text_fields : list string :=
  ["extracted_text"; "layout_description"; "full_summary"].

Definition text_fields_are_strings (content : gmap string value) : Prop :=
  Forall (λ field, match content !! field with
                   | Some (VStr _) | None => True
                   | Some _ => False
                   end) text_fields.

(** An example entry of the diff log. *)
Definition example_entry (time : string) (ops : list DiffOperation) (count : Z)
    : DiffLog.DiffLogEntry := {|
  DiffLog.timestamp := time;
  DiffLog.operations := ops;
  DiffLog.text_diffs := ∅;
  DiffLog.change_count := count;
  DiffLog.change_hash := "00";
  DiffLog.merged_from := None;
|}.

(** A library for the examples: a time stamp is read as the number of seconds
    that its digits spell, an operation is printed as its kind, and the
    digest is the identity. *)
Definition example_library : DiffLog.Library := {|
  DiffLog.seconds_of := λ s, Qc_of_Z (default 0%Z (py_int s));
  DiffLog.str_of_operation := op;
  DiffLog.md5_hexdigest := λ s, s;
|}.

End Derived.

Import Py Updater Props Derived.

(** ** Lists of scalars (claim C3) *)
Section scalar_lists.

Lemma py_in_perm (x : value) (l l' : list value) :
  l ≡ₚ l' → py_in x l = py_in x l'.
Proof.
  unfold py_in. induction 1 as [|y l l' _ IH|y z l|l l' l'' _ IH1 _ IH2]; simpl.
  - reflexivity.
  - by rewrite IH.
  - destruct (py_eq x y), (py_eq x z); reflexivity.
  - by rewrite IH1.
Qed.

Lemma filter_perm (f : value → bool) (l l' : list value) :
  l ≡ₚ l' → List.filter f l ≡ₚ List.filter f l'.
Proof.
  induction 1 as [|y l l' _ IH|y z l|l l' l'' _ IH1 _ IH2]; simpl.
  - reflexivity.
  - destruct (f y); by rewrite IH.
  - destruct (f y), (f z); try reflexivity. apply perm_swap.
  - by etrans.
Qed.

Lemma filter_ext_bool (f g : value → bool) (l : list value) :
  (∀ x, f x = g x) → List.filter f l = List.filter g l.
Proof. intros Hfg. induction l as [|x l IH]; simpl; [done|]. by rewrite Hfg, IH. Qed.

Lemma forallb_perm (f : value → bool) (l l' : list value) :
  l ≡ₚ l' → forallb f l = forallb f l'.
Proof.
  induction 1 as [|y l l' _ IH|y z l|l l' l'' _ IH1 _ IH2]; simpl.
  - reflexivity.
  - by rewrite IH.
  - destruct (f y), (f z); reflexivity.
  - by rewrite IH1.
Qed.

Lemma compare_lists_primitive (old_list new_list : list value) path ops :
  forallb is_primitive old_list = true →
  forallb is_primitive new_list = true →
  _compare_lists old_list new_list path ops =
    ops ++ map (add_op path) (List.filter (λ x, negb (py_in x old_list)) new_list)
        ++ map (remove_op path) (List.filter (λ x, negb (py_in x new_list)) old_list).
Proof. intros Ho Hn. unfold _compare_lists. by rewrite Ho, Hn. Qed.

(** C3, as the code has it: two lists of scalars (strings, integers, floats,
    booleans) are compared by membership.  Every element of the new list that
    equals no element of the old list emits one [add], once per occurrence,
    and every element of the old list that equals no element of the new list
    emits one [remove], once per occurrence; elements with an equal on the
    other side emit nothing, whatever their multiplicities.  Reordering either
    list only reorders the operations.  Diffing [1,2,2,3] against [2,3,4]
    yields exactly one [add] of 4 and one [remove] of 1. *)
Theorem compare_lists_by_membership
    (old_list new_list old_list' new_list' : list value) path ops :
  forallb is_primitive old_list = true →
  forallb is_primitive new_list = true →
  old_list' ≡ₚ old_list →
  new_list' ≡ₚ new_list →
  _compare_lists old_list new_list path ops =
    ops ++ map (add_op path) (List.filter (λ x, negb (py_in x old_list)) new_list)
        ++ map (remove_op path) (List.filter (λ x, negb (py_in x new_list)) old_list)
  ∧ _compare_lists old_list' new_list' path ops
      ≡ₚ _compare_lists old_list new_list path ops
  ∧ _compare_lists [VInt 1; VInt 2; VInt 2; VInt 3] [VInt 2; VInt 3; VInt 4] path []
      = [add_op path (VInt 4); remove_op path (VInt 1)].
Proof.
  intros Ho Hn Hpo Hpn. split_and!.
  - by apply compare_lists_primitive.
  - rewrite !compare_lists_primitive;
      rewrite ?(forallb_perm _ _ _ Hpo), ?(forallb_perm _ _ _ Hpn); try done.
    apply Permutation_app_head. apply Permutation_app.
    + apply Permutation_map.
      rewrite (filter_ext_bool _ (λ x, negb (py_in x old_list)))
        by (intros x; by rewrite (py_in_perm x _ _ Hpo)).
      by apply filter_perm.
    + apply Permutation_map.
      rewrite (filter_ext_bool _ (λ x, negb (py_in x new_list)))
        by (intros x; by rewrite (py_in_perm x _ _ Hpn)).
      by apply filter_perm.
  - reflexivity.
Qed.

Lemma compare_lists_by_membership_witness :
  forallb is_primitive [VStr "a"; VInt 7] = true
  ∧ forallb is_primitive [VInt 7; VInt 9; VInt 9] = true
  ∧ [VInt 7; VStr "a"] ≡ₚ [VStr "a"; VInt 7]
  ∧ [VInt 9; VInt 7; VInt 9] ≡ₚ [VInt 7; VInt 9; VInt 9]
  ∧ _compare_lists [VInt 7; VStr "a"] [VInt 9; VInt 7; VInt 9] ["tags"] []
      ≡ₚ _compare_lists [VStr "a"; VInt 7] [VInt 7; VInt 9; VInt 9] ["tags"] [].
Proof.
  assert (H1 : forallb is_primitive [VStr "a"; VInt 7] = true) by reflexivity.
  assert (H2 : forallb is_primitive [VInt 7; VInt 9; VInt 9] = true) by reflexivity.
  assert (H3 : [VInt 7; VStr "a"] ≡ₚ [VStr "a"; VInt 7]) by apply perm_swap.
  assert (H4 : [VInt 9; VInt 7; VInt 9] ≡ₚ [VInt 7; VInt 9; VInt 9]) by apply perm_swap.
  split_and!; [exact H1 | exact H2 | exact H3 | exact H4 |].
  exact (proj1 (proj2 (compare_lists_by_membership _ _ _ _ ["tags"] [] H1 H2 H3 H4))).
Defined.

(** The claim C3 as worded fails: a value that occurs twice in the new list
    and not in the old one emits two [add] operations, where the comparison of
    distinct values has one. *)
Lemma compare_lists_repeats_an_added_value :
  _compare_lists [] [VInt 4; VInt 4] ["k"] []
    = [add_op ["k"] (VInt 4); add_op ["k"] (VInt 4)]
  ∧ distinct_membership_diff [] [VInt 4; VInt 4] ["k"] = [add_op ["k"] (VInt 4)]
  ∧ _compare_lists [] [VInt 4; VInt 4] ["k"] []
      ≠ distinct_membership_diff [] [VInt 4; VInt 4] ["k"].
Proof. split_and!; [reflexivity | reflexivity | discriminate]. Qed.

End scalar_lists.

(** ** The confidence of an update (claim C4) *)
Section similarity.
Context `{!Runtime}.

Lemma word_set_empty_string : word_set EmptyString = ∅.
Proof. reflexivity. Qed.

Lemma compute_similarity_strings (s t : string) :
  s ≠ t → _compute_similarity (VStr s) (VStr t) = jaccard s t.
Proof.
  intros Hst. unfold _compute_similarity, jaccard, word_set. simpl.
  rewrite (bool_decide_eq_false_2 _ Hst).
  destruct (decide (s = EmptyString)) as [->|Hs].
  { simpl. by rewrite bool_decide_eq_true_2 by (left; reflexivity). }
  destruct (decide (t = EmptyString)) as [->|Ht].
  { rewrite (bool_decide_eq_false_2 _ Hs). simpl.
    by rewrite bool_decide_eq_true_2 by (right; reflexivity). }
  rewrite (bool_decide_eq_false_2 _ Hs), (bool_decide_eq_false_2 _ Ht). simpl.
  destruct (decide (list_to_set (split (lower s)) = (∅ : gset string))) as [Hes|Hes],
           (decide (list_to_set (split (lower t)) = (∅ : gset string))) as [Het|Het].
  - rewrite (bool_decide_eq_true_2 _ Hes). simpl.
    by rewrite bool_decide_eq_true_2 by (by left).
  - rewrite (bool_decide_eq_true_2 _ Hes). simpl.
    by rewrite bool_decide_eq_true_2 by (by left).
  - rewrite (bool_decide_eq_false_2 _ Hes), (bool_decide_eq_true_2 _ Het). simpl.
    by rewrite bool_decide_eq_true_2 by (by right).
  - rewrite (bool_decide_eq_false_2 _ Hes), (bool_decide_eq_false_2 _ Het). simpl.
    by rewrite bool_decide_eq_false_2 by tauto.
Qed.

Lemma numeric_similarity_tests (a b : Qc) :
  (if bool_decide (a = Qc_of_Z 0) && bool_decide (b = Qc_of_Z 0) then Qc_of_Z 1
   else if bool_decide (a = Qc_of_Z 0) || bool_decide (b = Qc_of_Z 0) then Qc_of_Z 0
   else (Qc_of_Z 1 - Qc_abs (a - b) / Qc_max (Qc_abs a) (Qc_abs b))%Qc)
  = numeric_similarity a b.
Proof.
  unfold numeric_similarity.
  destruct (decide (a = Qc_of_Z 0)) as [Ha|Ha], (decide (b = Qc_of_Z 0)) as [Hb|Hb].
  - rewrite (bool_decide_eq_true_2 _ Ha), (bool_decide_eq_true_2 _ Hb). simpl.
    by rewrite bool_decide_eq_true_2 by done.
  - rewrite (bool_decide_eq_true_2 _ Ha), (bool_decide_eq_false_2 _ Hb). simpl.
    rewrite bool_decide_eq_false_2 by tauto.
    by rewrite bool_decide_eq_true_2 by (by left).
  - rewrite (bool_decide_eq_false_2 _ Ha), (bool_decide_eq_true_2 _ Hb). simpl.
    rewrite bool_decide_eq_false_2 by tauto.
    by rewrite bool_decide_eq_true_2 by (by right).
  - rewrite (bool_decide_eq_false_2 _ Ha), (bool_decide_eq_false_2 _ Hb). simpl.
    rewrite bool_decide_eq_false_2 by tauto.
    by rewrite bool_decide_eq_false_2 by tauto.
Qed.

Lemma compute_similarity_numbers (old new : value) (a b : Qc) :
  num_of old = Some a → num_of new = Some b → a ≠ b →
  _compute_similarity old new = numeric_similarity a b.
Proof.
  intros Ha Hb Hab. rewrite <- numeric_similarity_tests. unfold _compute_similarity.
  assert (py_eq old new = false) as ->.
  { destruct old, new; try done; simpl in *;
      injection Ha as <-; injection Hb as <-; by apply bool_decide_eq_false_2. }
  destruct old, new; try done; by rewrite Ha, Hb.
Qed.

(** On two differing scalars of one type the code computes the similarity
    function of the specification. *)
Lemma compute_similarity_refines (old new : value) :
  is_scalar old = true → is_scalar new = true →
  type_of old = type_of new → py_eq old new = false →
  _compute_similarity old new = similarity_spec old new.
Proof.
  intros Ho Hn Hty Hne.
  destruct old as [|a|a|a|s| |], new as [|b|b|b|t| |]; try done.
  - (* booleans *)
    unfold _compute_similarity. rewrite Hne. simpl.
    destruct a, b; try done.
  - (* integers *)
    simpl in Hne. apply bool_decide_eq_false in Hne.
    rewrite (compute_similarity_numbers _ _ (Qc_of_Z a) (Qc_of_Z b)) by done.
    simpl. by rewrite bool_decide_eq_false_2.
  - (* floats *)
    simpl in Hne. apply bool_decide_eq_false in Hne.
    rewrite (compute_similarity_numbers _ _ a b) by done.
    simpl. by rewrite bool_decide_eq_false_2.
  - (* strings *)
    simpl in Hne. apply bool_decide_eq_false in Hne.
    rewrite compute_similarity_strings by done. simpl.
    by rewrite bool_decide_eq_false_2.
Qed.

Lemma compare_values_scalars (old new : value) path ops :
  is_scalar old = true → is_scalar new = true →
  _compare_values old new path ops =
    if bool_decide (type_of old = type_of new)
    then if py_eq old new then ops
         else ops ++ [update_op path old new (_compute_similarity old new)]
    else ops ++ [update_op path old new (Qc_of_Z 1)].
Proof.
  intros Ho Hn.
  destruct old, new; try done; simpl;
    repeat case_bool_decide; try done; simpl; by destruct (py_eq _ _).
Qed.

(** C4, as the code has it: for two differing scalars the diff emits one
    [update]; when the two are of the same type its confidence is the
    similarity function of the specification (Jaccard similarity of the
    lower-case word sets for strings, 0 when a side has no word;
    [1 - |a-b| / max(|a|,|b|)] for numbers, 0 when exactly one is zero; 0 for
    two booleans), and when they are of different types the confidence is 1.
    The similarity of ["a b c"] and ["a b d"] is 1/2. *)
Theorem update_confidence_of_scalars (old new : value) path ops :
  is_scalar old = true → is_scalar new = true → py_eq old new = false →
  _compare_values old new path ops =
    ops ++ [update_op path old new
              (if bool_decide (type_of old = type_of new)
               then similarity_spec old new else Qc_of_Z 1)]
  ∧ _compute_similarity (VStr "a b c") (VStr "a b d") = (Qc_of_Z 1 / Qc_of_Z 2)%Qc
  ∧ similarity_spec (VStr "a b c") (VStr "a b d") = (Qc_of_Z 1 / Qc_of_Z 2)%Qc.
Proof.
  intros Ho Hn Hne. split_and!.
  - rewrite compare_values_scalars by done. rewrite Hne.
    case_bool_decide as Hty; [|done].
    by rewrite compute_similarity_refines.
  - apply Qc_is_canon. reflexivity.
  - apply Qc_is_canon. reflexivity.
Qed.

End similarity.

Lemma update_confidence_of_scalars_witness :
  is_scalar (VInt 10) = true ∧ is_scalar (VInt 8) = true
  ∧ py_eq (VInt 10) (VInt 8) = false
  ∧ @_compare_values example_runtime (VInt 10) (VInt 8) ["confidence"] [] =
      [update_op ["confidence"] (VInt 10) (VInt 8) (similarity_spec (VInt 10) (VInt 8))].
Proof.
  split_and!; [reflexivity | reflexivity | reflexivity |].
  exact (proj1 (@update_confidence_of_scalars example_runtime (VInt 10) (VInt 8)
                  ["confidence"] [] eq_refl eq_refl eq_refl)).
Defined.

(** The claim C4 as worded fails: for a string and an integer the similarity
    function gives 0 ("any other combination"), and the emitted update has
    confidence 1. *)
Lemma update_confidence_on_type_change :
  confidence <$> @_compare_values example_runtime (VStr "a") (VInt 1) ["k"] []
    = [Qc_of_Z 1]
  ∧ similarity_spec (VStr "a") (VInt 1) = Qc_of_Z 0
  ∧ _compute_similarity (VStr "a") (VInt 1) = Qc_of_Z 0
  ∧ Qc_of_Z 1 ≠ Qc_of_Z 0.
Proof. split_and!; [reflexivity | reflexivity | reflexivity | discriminate]. Qed.

(** ** Single operations of the patcher (claims C5, C6, C9) *)
Section patch_operations.

Lemma add_to_nested_at (p : list string) (doc : value) (m : gmap string value)
    (k : string) (v : value) :
  mapping_at doc p = Some m →
  _add_to_nested doc (p ++ [k]) v =
    (replace_at doc p
       (VDict (<[k := match m !! k with
                      | None => v
                      | Some (VList existing) => VList (existing ++ [v])
                      | Some existing => VList [existing; v]
                      end]> m)), None).
Proof.
  revert doc. induction p as [|k0 p IH]; intros doc Hm.
  - destruct doc; try done. simpl in Hm. simplify_eq. simpl.
    destruct (m !! k) as [[]|]; reflexivity.
  - destruct doc as [| | | | | |d]; try done. simpl in Hm.
    destruct (d !! k0) as [sub|] eqn:Hsub; [|done]. simpl in Hm.
    specialize (IH sub Hm).
    change ((k0 :: p) ++ [k]) with (k0 :: (p ++ [k])).
    destruct (p ++ [k]) as [|k1 rest] eqn:Hrest.
    { by destruct p. }
    simpl. rewrite Hsub. simpl. rewrite Hsub. simpl.
    simpl in IH. by rewrite IH.
Qed.

Lemma remove_from_nested_at (p : list string) (doc : value) (m : gmap string value)
    (k : string) :
  mapping_at doc p = Some m → is_Some (m !! k) →
  _remove_from_nested doc (p ++ [k]) = (replace_at doc p (VDict (delete k m)), None).
Proof.
  revert doc. induction p as [|k0 p IH]; intros doc Hm [x Hx].
  - destruct doc; try done. simpl in Hm. simplify_eq. simpl. by rewrite Hx.
  - destruct doc as [| | | | | |d]; try done. simpl in Hm.
    destruct (d !! k0) as [sub|] eqn:Hsub; [|done]. simpl in Hm.
    specialize (IH sub Hm (ex_intro _ x Hx)).
    change ((k0 :: p) ++ [k]) with (k0 :: (p ++ [k])).
    destruct (p ++ [k]) as [|k1 rest] eqn:Hrest.
    { by destruct p. }
    simpl. rewrite Hsub. simpl in IH. by rewrite IH.
Qed.

(** C5: an [add] whose path ends at the key [k] of a mapping of the document
    sets [k] when it is absent, appends to the value of [k] when that is a
    sequence, and otherwise replaces the value by the two-element sequence of
    the old and the new value; adding [k = "y"] to [{"k": "x"}] yields
    [{"k": ["x", "y"]}]. *)
Theorem add_coalesces (doc : value) (p : list string) (m : gmap string value)
    (k : string) (v : value) (c : Qc) (old : value) :
  mapping_at doc p = Some m →
  apply_diff doc [Build_DiffOperation "add" (p ++ [k]) old v c] =
    Returned (replace_at doc p
      (VDict (<[k := match m !! k with
                     | None => v
                     | Some (VList existing) => VList (existing ++ [v])
                     | Some existing => VList [existing; v]
                     end]> m)))
  ∧ apply_diff (VDict {[ "k" := VStr "x" ]}) [add_op ["k"] (VStr "y")] =
      Returned (VDict {[ "k" := VList [VStr "x"; VStr "y"] ]}).
Proof.
  intros Hm. split; [|reflexivity].
  unfold apply_diff, apply_operations, apply_operation. simpl.
  by rewrite (add_to_nested_at _ _ _ _ _ Hm).
Qed.

Lemma add_coalesces_witness :
  mapping_at (VDict {[ "ui" := VDict {[ "tags" := VList [VStr "a"] ]} ]}) ["ui"]
    = Some {[ "tags" := VList [VStr "a"] ]}
  ∧ apply_diff (VDict {[ "ui" := VDict {[ "tags" := VList [VStr "a"] ]} ]})
      [add_op ["ui"; "tags"] (VStr "b")]
    = Returned (VDict {[ "ui" := VDict {[ "tags" := VList [VStr "a"; VStr "b"] ]} ]}).
Proof.
  split; [reflexivity|].
  exact (proj1 (add_coalesces
    (VDict {[ "ui" := VDict {[ "tags" := VList [VStr "a"] ]} ]}) ["ui"]
    {[ "tags" := VList [VStr "a"] ]} "tags" (VStr "b") (Qc_of_Z 1) VNone eq_refl)).
Defined.

(** C6 fails on the code: an operation whose last path segment addresses a
    sequence and is not a number makes [int] raise [ValueError], which the
    [except] clause of [apply_diff] does not list; the exception leaves
    [apply_diff] and the operations that follow are not applied. *)
Theorem apply_diff_lets_value_error_escape :
  apply_diff (VDict {[ "a" := VList [VInt 1; VInt 2] ]})
    [update_op ["a"; "x"] VNone (VInt 0) (Qc_of_Z 1);
     update_op ["b"] VNone (VInt 1) (Qc_of_Z 1)]
    = Raised ValueError
  ∧ apply_diff (VDict {[ "a" := VList [VInt 1; VInt 2] ]})
      [add_op ["a"; "x"] (VInt 0)] = Raised ValueError
  ∧ apply_diff (VDict {[ "a" := VList [VInt 1; VInt 2] ]})
      [remove_op ["a"; "x"] VNone] = Raised ValueError.
Proof. split_and!; reflexivity. Qed.

(** The structural errors that the [except] clause lists are skipped: an index
    out of bounds, a path through an object that is not a mapping. *)
Lemma apply_diff_skips_listed_errors :
  apply_diff (VDict {[ "a" := VList [VInt 1; VInt 2] ]})
    [update_op ["a"; "7"] VNone (VInt 0) (Qc_of_Z 1);
     update_op ["a"; "0"; "z"] VNone (VInt 0) (Qc_of_Z 1);
     update_op ["b"] VNone (VInt 1) (Qc_of_Z 1)]
    = Returned (VDict {[ "a" := VList [VInt 1; VInt 2]; "b" := VInt 1 ]}).
Proof. reflexivity. Qed.

(** C9: a [remove] whose path is the path of a list under the key [k] of a
    mapping, as the comparison of scalar lists emits it for a value that
    disappeared, deletes the entry [k] with the whole list. *)
Theorem remove_deletes_the_list `{!Runtime} (doc : value) (p : list string)
    (m : gmap string value) (k : string) (old_list new_list : list value)
    (operation : DiffOperation) :
  mapping_at doc p = Some m →
  m !! k = Some (VList old_list) →
  operation ∈ _compare_values (VList old_list) (VList new_list) (p ++ [k]) [] →
  op operation = "remove" →
  path operation = p ++ [k]
  ∧ apply_diff doc [operation] = Returned (replace_at doc p (VDict (delete k m))).
Proof.
  intros Hm Hk Hin Hop.
  assert (path operation = p ++ [k]) as Hpath.
  { simpl in Hin. unfold _compare_lists in Hin.
    destruct (forallb is_primitive old_list && forallb is_primitive new_list).
    - simpl in Hin. apply elem_of_app in Hin as [Hin|Hin];
        apply list_elem_of_fmap in Hin as (item & -> & _); reflexivity.
    - destruct (py_eq _ _); [by apply elem_of_nil in Hin|].
      apply list_elem_of_singleton in Hin. by subst. }
  split; [done|].
  unfold apply_diff, apply_operations, apply_operation.
  rewrite Hop, Hpath. simpl.
  by rewrite (remove_from_nested_at _ _ _ _ Hm) by (by rewrite Hk).
Qed.

Lemma remove_deletes_the_list_witness :
  mapping_at (VDict {[ "key_points" := VList [VInt 1; VInt 2]; "n" := VInt 0 ]}) []
    = Some {[ "key_points" := VList [VInt 1; VInt 2]; "n" := VInt 0 ]}
  ∧ remove_op ["key_points"] (VInt 1)
      ∈ @_compare_values example_runtime (VList [VInt 1; VInt 2]) (VList [VInt 2])
          ["key_points"] []
  ∧ apply_diff (VDict {[ "key_points" := VList [VInt 1; VInt 2]; "n" := VInt 0 ]})
      [remove_op ["key_points"] (VInt 1)]
    = Returned (VDict {[ "n" := VInt 0 ]}).
Proof.
  assert (Hin : remove_op ["key_points"] (VInt 1)
      ∈ @_compare_values example_runtime (VList [VInt 1; VInt 2]) (VList [VInt 2])
          ([] ++ ["key_points"]) []) by (vm_compute; left).
  split_and!; [reflexivity | exact Hin |].
  exact (proj2 (@remove_deletes_the_list example_runtime
    (VDict {[ "key_points" := VList [VInt 1; VInt 2]; "n" := VInt 0 ]}) []
    {[ "key_points" := VList [VInt 1; VInt 2]; "n" := VInt 0 ]} "key_points"
    [VInt 1; VInt 2] [VInt 2] (remove_op ["key_points"] (VInt 1))
    eq_refl eq_refl Hin eq_refl)).
Defined.

End patch_operations.

(** ** Summary regeneration (claim C8) *)
Section summary_cap.
Context `{!Runtime}.

Lemma string_length_append (s t : string) :
  String.length (s +:+ t) = String.length s + String.length t.
Proof. induction s as [|c s IH]; simpl; [done|]. by rewrite IH. Qed.

Lemma string_length_take (n : nat) (s : string) :
  n ≤ String.length s → String.length (take_chars n s) = n.
Proof.
  unfold take_chars. revert s. induction n as [|n IH]; intros s Hn.
  - by destruct s.
  - destruct s as [|c s]; simpl in *; [lia|]. rewrite IH; lia.
Qed.

Lemma significant_changes_untouched (changes : list DiffOperation) :
  existsb touches_significant changes = false → significant_changes changes = [].
Proof.
  unfold significant_changes. induction changes as [|c changes IH]; [done|].
  simpl. intros [Hc Hrest]%orb_false_elim.
  unfold describe_change at 1. rewrite Hc. simpl. by apply IH.
Qed.

Lemma generate_summary_unfold (old_summary : string) (changes : list DiffOperation)
    (new_content : value) :
  _generate_incremental_summary old_summary changes new_content =
    match significant_changes changes with
    | [] => old_summary
    | collected =>
        if 500 <? String.length (incorporate_changes old_summary collected)
        then take_chars 497 (incorporate_changes old_summary collected) +:+ "..."
        else incorporate_changes old_summary collected
    end.
Proof. by destruct changes. Qed.

(** C8, as the code has it: when no description is collected from the changes
    (in particular when no change touches a significant field, and when the
    change list is empty) the prior summary is returned unchanged, whatever
    its length; otherwise the new summary is the old one with the descriptions
    worked in, cut to its first 497 characters followed by ["..."] when it is
    longer than 500 characters, and so at most 500 characters long. *)
Theorem summary_capped_or_kept (old_summary : string) (changes : list DiffOperation)
    (new_content : value) :
  let summary := _generate_incremental_summary old_summary changes new_content in
  match significant_changes changes with
  | [] => summary = old_summary
  | collected =>
      let text := incorporate_changes old_summary collected in
      String.length summary ≤ 500
      ∧ summary = if 500 <? String.length text
                  then take_chars 497 text +:+ "..." else text
  end
  ∧ (existsb touches_significant changes = false → summary = old_summary).
Proof.
  intros summary. subst summary. rewrite generate_summary_unfold. split.
  - destruct (significant_changes changes) as [|d ds]; [done|].
    cbv zeta. split; [|done].
    destruct (Nat.ltb_spec 500
                (String.length (incorporate_changes old_summary (d :: ds)))) as [Hlen|Hlen].
    + cbv iota. rewrite string_length_append, string_length_take by lia. simpl. lia.
    + cbv iota. lia.
  - intros Hno. by rewrite significant_changes_untouched.
Qed.

End summary_cap.

Lemma summary_capped_or_kept_witness :
  existsb touches_significant [update_op ["layout_description"] (VStr "a") (VStr "b") (Qc_of_Z 0)]
    = false
  ∧ @_generate_incremental_summary example_runtime "A login form."
      [update_op ["layout_description"] (VStr "a") (VStr "b") (Qc_of_Z 0)] VNone
    = "A login form."%string.
Proof.
  split; [reflexivity|].
  exact (proj2 (@summary_capped_or_kept example_runtime "A login form."
    [update_op ["layout_description"] (VStr "a") (VStr "b") (Qc_of_Z 0)] VNone) eq_refl).
Defined.

(** The claim C8 as worded fails: with no significant change a prior summary
    of 501 characters is returned as it is, and is longer than 500. *)
Lemma summary_longer_than_cap :
  @_generate_incremental_summary example_runtime long_summary [] VNone = long_summary
  ∧ String.length
      (@_generate_incremental_summary example_runtime long_summary [] VNone) = 501
  ∧ ¬ String.length
        (@_generate_incremental_summary example_runtime long_summary [] VNone) ≤ 500.
Proof. split_and!; [reflexivity | by vm_compute | vm_compute; lia]. Qed.

(** ** Nearest match by perceptual hash (claims C2, C10) *)
Section nearest_match.
Implicit Types (rows : list Store.MemoryRecord) (r row : Store.MemoryRecord).

Lemma scan_step query threshold row rows best min_dist :
  Store.scan_candidates query threshold (row :: rows) best min_dist =
    match candidate_distance query row with
    | Some d =>
        if (d <=? threshold)%Z && (d <? min_dist)%Z
        then Store.scan_candidates query threshold rows (Some (Store.id row)) d
        else Store.scan_candidates query threshold rows best min_dist
    | None => Store.scan_candidates query threshold rows best min_dist
    end.
Proof.
  unfold candidate_distance. simpl.
  destruct (Store.perceptual_hash row) as [[|c h]|]; reflexivity.
Qed.

(** Rows that are not both within the threshold and below the current minimum
    leave the scan where it is. *)
Lemma scan_no_improvement query threshold rows best min_dist :
  (∀ r d, r ∈ rows → candidate_distance query r = Some d →
          ¬ ((d ≤ threshold)%Z ∧ (d < min_dist)%Z)) →
  Store.scan_candidates query threshold rows best min_dist = (best, min_dist).
Proof.
  induction rows as [|row rows IH]; intros Hno; [done|].
  rewrite scan_step.
  destruct (candidate_distance query row) as [d|] eqn:Hd.
  - destruct (Z.leb_spec d threshold), (Z.ltb_spec d min_dist); simpl;
      try (apply IH; intros r d' Hr; apply Hno; by right).
    exfalso. apply (Hno row d); [by left|done|done].
  - apply IH. intros r d' Hr. apply Hno. by right.
Qed.

(** The scan ends on the first row of least distance. *)
Lemma scan_finds_nearest query threshold rows best min_dist i r d :
  rows !! i = Some r →
  candidate_distance query r = Some d →
  (d ≤ threshold)%Z → (d < min_dist)%Z →
  (∀ j r' d', rows !! j = Some r' → candidate_distance query r' = Some d' →
              (d' ≤ threshold)%Z → (d ≤ d')%Z ∧ (d' = d → i ≤ j)) →
  Store.scan_candidates query threshold rows best min_dist = (Some (Store.id r), d).
Proof.
  revert best min_dist i.
  induction rows as [|row rows IH]; intros best min_dist i Hi Hd Hle Hlt Hmin; [done|].
  rewrite scan_step. destruct i as [|i]; simpl in Hi.
  - simplify_eq. rewrite Hd.
    rewrite (proj2 (Z.leb_le _ _) Hle), (proj2 (Z.ltb_lt _ _) Hlt). simpl.
    apply scan_no_improvement. intros r' d' [j Hj]%list_elem_of_lookup Hd' [Hle' Hlt'].
    destruct (Hmin (S j) r' d' Hj Hd' Hle') as [? _]. lia.
  - destruct (candidate_distance query row) as [d0|] eqn:Hd0.
    + destruct (Z.leb_spec d0 threshold) as [Hle0|Hgt0],
               (Z.ltb_spec d0 min_dist) as [Hlt0|Hge0]; simpl.
      * destruct (Hmin 0 row d0 eq_refl Hd0 Hle0) as [Hdd0 Hfirst].
        assert (d < d0)%Z.
        { destruct (decide (d0 = d)) as [Heq|]; [|lia]. specialize (Hfirst Heq). lia. }
        apply (IH _ _ i); try done.
        intros j r' d' Hj Hd' Hle'.
        destruct (Hmin (S j) r' d' Hj Hd' Hle') as [? Hij]. split; [done|].
        intros Heq. specialize (Hij Heq). lia.
      * apply (IH _ _ i); try done.
        intros j r' d' Hj Hd' Hle'.
        destruct (Hmin (S j) r' d' Hj Hd' Hle') as [? Hij]. split; [done|].
        intros Heq. specialize (Hij Heq). lia.
      * apply (IH _ _ i); try done.
        intros j r' d' Hj Hd' Hle'.
        destruct (Hmin (S j) r' d' Hj Hd' Hle') as [? Hij]. split; [done|].
        intros Heq. specialize (Hij Heq). lia.
      * apply (IH _ _ i); try done.
        intros j r' d' Hj Hd' Hle'.
        destruct (Hmin (S j) r' d' Hj Hd' Hle') as [? Hij]. split; [done|].
        intros Heq. specialize (Hij Heq). lia.
    + apply (IH _ _ i); try done.
      intros j r' d' Hj Hd' Hle'.
      destruct (Hmin (S j) r' d' Hj Hd' Hle') as [? Hij]. split; [done|].
      intros Heq. specialize (Hij Heq). lia.
Qed.

(** The id that the scan ends on is the initial one or the id of a row within
    the threshold and below the initial minimum. *)
Lemma scan_result_origin query threshold rows best min_dist best' :
  fst (Store.scan_candidates query threshold rows best min_dist) = Some best' →
  best = Some best' ∨
  ∃ r d, r ∈ rows ∧ Store.id r = best' ∧ candidate_distance query r = Some d
         ∧ (d ≤ threshold)%Z ∧ (d < min_dist)%Z.
Proof.
  revert best min_dist.
  induction rows as [|row rows IH]; intros best min_dist Hscan; [by left|].
  rewrite scan_step in Hscan.
  assert (∀ P : Store.MemoryRecord → Prop,
            (∃ r, r ∈ rows ∧ P r) → ∃ r, r ∈ row :: rows ∧ P r) as Hweaken.
  { intros P (r & Hr & HP). exists r. split; [by right|done]. }
  destruct (candidate_distance query row) as [d0|] eqn:Hd0.
  - destruct (Z.leb_spec d0 threshold) as [Hle0|Hgt0],
             (Z.ltb_spec d0 min_dist) as [Hlt0|Hge0]; simpl in Hscan;
      try (destruct (IH _ _ Hscan) as [?|(r & d & Hr & ?)];
           [by left | right; exists r, d; split; [by right|done]]).
    destruct (IH _ _ Hscan) as [Hbest|(r & d & Hr & Hid & Hd & Hle & Hlt)].
    + right. exists row, d0. simplify_eq. split_and!; try done. by left.
    + right. exists r, d. split_and!; try done; [by right|lia].
  - destruct (IH _ _ Hscan) as [?|(r & d & Hr & ?)];
      [by left | right; exists r, d; split; [by right|done]].
Qed.

(** Either no considered row is within the bounds, or there is a first row of
    least distance. *)
Lemma nearest_within_or_none rows query threshold :
  (∀ r d, r ∈ rows → candidate_distance query r = Some d →
          ¬ ((d ≤ threshold)%Z ∧ (d < 1000)%Z))
  ∨ ∃ i r, nearest_within rows query threshold i r.
Proof.
  induction rows as [|row rows IH].
  { left. intros r d Hr. by apply elem_of_nil in Hr. }
  destruct (candidate_distance query row) as [d0|] eqn:Hd0;
    [destruct (decide ((d0 ≤ threshold)%Z ∧ (d0 < 1000)%Z)) as [[Hle0 Hlt0]|Hout]|].
  - (* the first row is within the bounds *)
    right. destruct IH as [Hnone|(i & r & Hi & d & Hd & Hle & Hlt & Hmin)].
    + exists 0, row. split; [done|]. exists d0. split_and!; try done.
      intros [|j] r' d' Hj Hd' Hle'; simplify_eq/=; [split; [lia|done]|].
      assert (¬ (d' < 1000)%Z).
      { intros ?. apply (Hnone r' d'); [|done|done].
        apply list_elem_of_lookup. by exists j. }
      split; lia.
    + destruct (decide (d < d0)%Z) as [Hlt'|Hge].
      * exists (S i), r. split; [done|]. exists d. split_and!; try done.
        intros [|j] r' d' Hj Hd' Hle'; simplify_eq/=; [split; lia|].
        destruct (Hmin j r' d' Hj Hd' Hle') as [? Hij]. split; [done|].
        intros Heq. specialize (Hij Heq). lia.
      * exists 0, row. split; [done|]. exists d0. split_and!; try done.
        intros [|j] r' d' Hj Hd' Hle'; simplify_eq/=; [split; [lia|done]|].
        destruct (Hmin j r' d' Hj Hd' Hle') as [? _]. split; lia.
  - (* the first row is considered and out of the bounds *)
    destruct IH as [Hnone|(i & r & Hi & d & Hd & Hle & Hlt & Hmin)].
    + left. intros r' d' [->|Hr']%elem_of_cons Hd'; [by simplify_eq|by apply (Hnone r' d')].
    + right. exists (S i), r. split; [done|]. exists d. split_and!; try done.
      intros [|j] r' d' Hj Hd' Hle'; simplify_eq/=; [split; lia|].
      destruct (Hmin j r' d' Hj Hd' Hle') as [? Hij]. split; [done|].
      intros Heq. specialize (Hij Heq). lia.
  - (* the first row is not considered *)
    destruct IH as [Hnone|(i & r & Hi & d & Hd & Hle & Hlt & Hmin)].
    + left. intros r' d' [->|Hr']%elem_of_cons Hd'; [congruence|by apply (Hnone r' d')].
    + right. exists (S i), r. split; [done|]. exists d. split_and!; try done.
      intros [|j] r' d' Hj Hd' Hle'; simplify_eq/=.
      destruct (Hmin j r' d' Hj Hd' Hle') as [? Hij]. split; [done|].
      intros Heq. specialize (Hij Heq). lia.
Qed.

Lemma get_memory_of_row (db : Store.MemoryDatabase) r :
  NoDup (Store.id <$> Store.memories db) → r ∈ Store.memories db →
  Store.get_memory db (Store.id r) = Some r.
Proof.
  unfold Store.get_memory. induction (Store.memories db) as [|row rows IH]; intros Hnd Hr.
  - by apply elem_of_nil in Hr.
  - rewrite fmap_cons in Hnd.
    pose proof (NoDup_cons_1_1 _ _ Hnd) as Hnotin. apply NoDup_cons_1_2 in Hnd. simpl.
    apply elem_of_cons in Hr as [->|Hr].
    + by rewrite bool_decide_eq_true_2.
    + rewrite bool_decide_eq_false_2; [by apply IH|].
      intros Heq. apply Hnotin. rewrite Heq. by apply list_elem_of_fmap_2.
Qed.

Lemma get_memory_id (db : Store.MemoryDatabase) memory_id r :
  Store.get_memory db memory_id = Some r → Store.id r = memory_id ∧ r ∈ Store.memories db.
Proof.
  unfold Store.get_memory. intros Hfind. apply find_some in Hfind as [Hin Hid].
  apply bool_decide_eq_true in Hid. split; [done|]. by apply list_elem_of_In.
Qed.

Lemma string_nonempty_match {A} (s : string) (x y : A) :
  s ≠ EmptyString →
  match s with EmptyString => x | String _ _ => y end = y.
Proof. by destruct s. Qed.

(** The scan as the code has it, on every table: it considers the stored rows
    whose perceptual hash is not empty, in table order.  When a considered row
    lies within the threshold and below the initial bound 1000, the first row
    of least distance is selected and the record with its id is returned,
    unless that id is empty; when there is no such row nothing is returned,
    and these are the only outcomes. *)
Lemma find_by_perceptual_hash_scan (db : Store.MemoryDatabase) (query : string)
    (threshold : Z) :
  NoDup (Store.id <$> Store.memories db) →
  (∀ i r, nearest_within (Store.memories db) query threshold i r →
      Store.find_by_perceptual_hash db query threshold =
        if bool_decide (Store.id r = EmptyString) then None else Some r)
  ∧ ((∀ r d, r ∈ Store.memories db → candidate_distance query r = Some d →
             ¬ ((d ≤ threshold)%Z ∧ (d < 1000)%Z)) →
      Store.find_by_perceptual_hash db query threshold = None)
  ∧ (∀ r, Store.memories db = [r] → Store.id r ≠ EmptyString →
          candidate_distance query r = Some 4%Z →
          Store.find_by_perceptual_hash db query Store.default_threshold = Some r)
  ∧ (∀ r, Store.memories db = [r] →
          candidate_distance query r = Some 5%Z →
          Store.find_by_perceptual_hash db query Store.default_threshold = None)
  ∧ match Store.find_by_perceptual_hash db query threshold with
    | Some r =>
        Store.id r ≠ EmptyString
        ∧ ∃ i, nearest_within (Store.memories db) query threshold i r
    | None =>
        (∀ r d, r ∈ Store.memories db → candidate_distance query r = Some d →
                ¬ ((d ≤ threshold)%Z ∧ (d < 1000)%Z))
        ∨ ∃ i r, nearest_within (Store.memories db) query threshold i r
                 ∧ Store.id r = EmptyString
    end.
Proof.
  intros Hnd.
  assert (∀ threshold i r, nearest_within (Store.memories db) query threshold i r →
      Store.find_by_perceptual_hash db query threshold =
        if bool_decide (Store.id r = EmptyString) then None else Some r) as Hnearest.
  { intros t i r (Hi & d & Hd & Hle & Hlt & Hmin). unfold Store.find_by_perceptual_hash.
    rewrite (scan_finds_nearest _ _ _ _ _ i r d) by done. simpl.
    case_bool_decide as Hid; [by rewrite Hid|].
    rewrite string_nonempty_match by done.
    apply get_memory_of_row; [done|]. apply list_elem_of_lookup. by exists i. }
  assert (∀ threshold,
      (∀ r d, r ∈ Store.memories db → candidate_distance query r = Some d →
             ¬ ((d ≤ threshold)%Z ∧ (d < 1000)%Z)) →
      Store.find_by_perceptual_hash db query threshold = None) as Hnone.
  { intros t Hno. unfold Store.find_by_perceptual_hash.
    by rewrite scan_no_improvement. }
  split_and!.
  - apply Hnearest.
  - apply Hnone.
  - intros r Hrows Hid Hd.
    rewrite (Hnearest Store.default_threshold 0 r).
    + by rewrite bool_decide_eq_false_2.
    + rewrite Hrows. split; [done|]. exists 4%Z. unfold Store.default_threshold.
      split_and!; try done. intros [|j] r' d' Hj Hd' Hle'; simplify_eq/=.
      split; [done|lia].
  - intros r Hrows Hd. apply Hnone. rewrite Hrows.
    intros r' d' ->%list_elem_of_singleton Hd'. simplify_eq.
    unfold Store.default_threshold. lia.
  - destruct (nearest_within_or_none (Store.memories db) query threshold)
      as [Hno|(i & r & Hir)].
    + rewrite (Hnone threshold Hno). by left.
    + rewrite (Hnearest threshold i r Hir). case_bool_decide as Hid.
      * right. by exists i, r.
      * split; [done|]. by exists i.
Qed.

Lemma record_distance_considered (query : string) r :
  Store.perceptual_hash r ≠ Some EmptyString →
  candidate_distance query r = record_distance query r.
Proof.
  unfold candidate_distance, record_distance.
  by destruct (Store.perceptual_hash r) as [[|c h]|].
Qed.

Lemma nearest_record_within rows query threshold i r :
  stored_by_engine rows → (threshold < 1000)%Z →
  nearest_within rows query threshold i r ↔ nearest_record rows query threshold i r.
Proof.
  intros Hrows Ht.
  assert (∀ j r', rows !! j = Some r' →
            candidate_distance query r' = record_distance query r') as Hsame.
  { intros j r' Hj. apply record_distance_considered.
    apply Hrows, list_elem_of_lookup. by exists j. }
  split.
  - intros (Hi & d & Hd & Hle & _ & Hmin). split; [done|]. exists d.
    rewrite <- (Hsame i r Hi). split_and!; try done.
    intros j r' d' Hj Hd'. rewrite <- (Hsame j r' Hj) in Hd'. by apply (Hmin j r').
  - intros (Hi & d & Hd & Hle & Hmin). split; [done|]. exists d.
    rewrite (Hsame i r Hi). split_and!; [done|done|lia|].
    intros j r' d' Hj Hd'. rewrite (Hsame j r' Hj) in Hd'. by apply (Hmin j r').
Qed.

(** C2: on a table of records as the engine stores them (unique ids; no id
    and no perceptual hash is the empty string) and for a threshold below the
    sentinel 1000, [find_by_perceptual_hash] returns the stored record whose
    distance to the query is least among the records within the threshold,
    the first of them in table order; it returns nothing exactly when no
    record is within the threshold.  With the default threshold 4, a sole
    record at distance 4 is returned and a sole record at distance 5 is
    not. *)
Theorem nearest_match_is_returned (db : Store.MemoryDatabase) (query : string)
    (threshold : Z) :
  NoDup (Store.id <$> Store.memories db) →
  stored_by_engine (Store.memories db) →
  (threshold < 1000)%Z →
  (∀ i r, nearest_record (Store.memories db) query threshold i r →
      Store.find_by_perceptual_hash db query threshold = Some r)
  ∧ ((∀ r d, r ∈ Store.memories db → record_distance query r = Some d →
             ¬ (d ≤ threshold)%Z) →
      Store.find_by_perceptual_hash db query threshold = None)
  ∧ match Store.find_by_perceptual_hash db query threshold with
    | Some r => ∃ i, nearest_record (Store.memories db) query threshold i r
    | None => ∀ r d, r ∈ Store.memories db → record_distance query r = Some d →
                     ¬ (d ≤ threshold)%Z
    end
  ∧ (∀ r, Store.memories db = [r] → record_distance query r = Some 4%Z →
          Store.find_by_perceptual_hash db query Store.default_threshold = Some r)
  ∧ (∀ r, Store.memories db = [r] → record_distance query r = Some 5%Z →
          Store.find_by_perceptual_hash db query Store.default_threshold = None).
Proof.
  intros Hnd Hrows Ht.
  assert (∀ r, r ∈ Store.memories db →
            candidate_distance query r = record_distance query r) as Hsame.
  { intros r Hr. apply record_distance_considered. by destruct (Hrows r Hr). }
  destruct (find_by_perceptual_hash_scan db query threshold Hnd)
    as (Hnearest & Hnone & Hfour & Hfive & Hall).
  split_and!.
  - intros i r Hir. pose proof Hir as [Hi _].
    apply (nearest_record_within _ _ _ _ _ Hrows Ht) in Hir.
    rewrite (Hnearest i r Hir). rewrite bool_decide_eq_false_2; [done|].
    apply Hrows, list_elem_of_lookup. by exists i.
  - intros Hfar. apply Hnone. intros r d Hr Hd [Hle _].
    rewrite (Hsame r Hr) in Hd. by apply (Hfar r d).
  - destruct (Store.find_by_perceptual_hash db query threshold) as [r|].
    + destruct Hall as [_ [i Hir]]. exists i.
      by apply (nearest_record_within _ _ _ _ _ Hrows Ht).
    + destruct Hall as [Hfar|(i & r & Hir & Hid)].
      * intros r d Hr Hd Hle. rewrite <- (Hsame r Hr) in Hd.
        apply (Hfar r d Hr Hd). split; [done|lia].
      * exfalso. destruct Hir as [Hi _].
        destruct (Hrows r) as [Hne _]; [apply list_elem_of_lookup; by exists i|].
        by apply Hne.
  - intros r Hr Hd.
    assert (r ∈ Store.memories db) as Hin by (rewrite Hr; by left).
    apply Hfour; [done| |].
    + by destruct (Hrows r Hin).
    + by rewrite (Hsame r Hin).
  - intros r Hr Hd.
    assert (r ∈ Store.memories db) as Hin by (rewrite Hr; by left).
    apply (Hfive r); [done|]. by rewrite (Hsame r Hin).
Qed.

(** C10: a stored record whose perceptual hash differs in length from the
    query is at distance 1000, and for a threshold below 1000 it is never
    the record that [find_by_perceptual_hash] returns. *)
Theorem length_mismatch_never_matches (db : Store.MemoryDatabase) (query : string)
    (threshold : Z) (r : Store.MemoryRecord) (h : string) :
  NoDup (Store.id <$> Store.memories db) →
  r ∈ Store.memories db →
  Store.perceptual_hash r = Some h →
  String.length h ≠ String.length query →
  (threshold < 1000)%Z →
  Store.hamming_distance query h = 1000%Z
  ∧ Store.find_by_perceptual_hash db query threshold ≠ Some r.
Proof.
  intros Hnd Hr Hh Hlen Ht.
  assert (Store.hamming_distance query h = 1000%Z) as Hdist.
  { unfold Store.hamming_distance. by rewrite bool_decide_eq_false_2. }
  split; [done|]. unfold Store.find_by_perceptual_hash. intros Hfind.
  destruct (fst (Store.scan_candidates _ _ _ _ _)) as [[|c best]|] eqn:Hscan; try done.
  apply get_memory_id in Hfind as [Hid _].
  apply scan_result_origin in Hscan as [?|(r' & d & Hr' & Hid' & Hd & Hle & Hlt)]; [done|].
  assert (r' = r) as ->.
  { apply (get_memory_of_row db) in Hr, Hr'; try done.
    rewrite Hid', <- Hid in Hr'. congruence. }
  unfold candidate_distance in Hd. rewrite Hh in Hd.
  destruct h; simplify_eq. lia.
Qed.

End nearest_match.

Lemma nearest_match_is_returned_witness :
  NoDup (Store.id <$> Store.memories (example_store false
           [example_row "m1" None (Some "ab12"); example_row "m2" None (Some "ff00")]))
  ∧ stored_by_engine (Store.memories (example_store false
           [example_row "m1" None (Some "ab12"); example_row "m2" None (Some "ff00")]))
  ∧ Store.find_by_perceptual_hash (example_store false
      [example_row "m1" None (Some "ab12"); example_row "m2" None (Some "ff00")])
      "ff01" 4
    = Some (example_row "m2" None (Some "ff00")).
Proof.
  assert (Hnd : NoDup (Store.id <$> Store.memories (example_store false
           [example_row "m1" None (Some "ab12"); example_row "m2" None (Some "ff00")]))).
  { apply (bool_decide_unpack _). vm_compute. exact I. }
  assert (Hrows : stored_by_engine (Store.memories (example_store false
           [example_row "m1" None (Some "ab12"); example_row "m2" None (Some "ff00")]))).
  { intros r Hr. simpl in Hr.
    repeat (apply elem_of_cons in Hr as [->|Hr]); [by split|by split|].
    by apply elem_of_nil in Hr. }
  assert (Ht : (4 < 1000)%Z) by lia.
  split_and!; [exact Hnd | exact Hrows |].
  refine (proj1 (nearest_match_is_returned _ "ff01" 4 Hnd Hrows Ht) 1
            (example_row "m2" None (Some "ff00")) _).
  split; [reflexivity|]. exists 1%Z. split_and!; [reflexivity | lia |].
  intros [|[|j]] r' d' Hj Hd' Hle; simplify_eq/=;
    vm_compute in Hd'; simplify_eq; split; lia.
Defined.

Lemma length_mismatch_never_matches_witness :
  NoDup (Store.id <$> Store.memories (example_store false
           [example_row "m1" None (Some "ab1")]))
  ∧ example_row "m1" None (Some "ab1")
      ∈ Store.memories (example_store false [example_row "m1" None (Some "ab1")])
  ∧ String.length "ab1" ≠ String.length "ab12"
  ∧ (4 < 1000)%Z
  ∧ Store.hamming_distance "ab12" "ab1" = 1000%Z
  ∧ Store.find_by_perceptual_hash
      (example_store false [example_row "m1" None (Some "ab1")]) "ab12" 4
    ≠ Some (example_row "m1" None (Some "ab1")).
Proof.
  assert (Hnd : NoDup (Store.id <$> Store.memories (example_store false
           [example_row "m1" None (Some "ab1")]))).
  { apply (bool_decide_unpack _). vm_compute. exact I. }
  assert (Hin : example_row "m1" None (Some "ab1")
      ∈ Store.memories (example_store false [example_row "m1" None (Some "ab1")])).
  { simpl. by left. }
  assert (Hlen : String.length "ab1" ≠ String.length "ab12") by (simpl; lia).
  assert (Hlt : (4 < 1000)%Z) by lia.
  split_and!; [exact Hnd | exact Hin | exact Hlen | exact Hlt | ..];
    apply (length_mismatch_never_matches _ "ab12" 4 _ "ab1" Hnd Hin eq_refl Hlen Hlt).
Defined.

(** Outside the records that the engine stores: a record whose perceptual
    hash is the empty string is skipped by the scan, also for the empty query,
    from which it is at distance 0. *)
Lemma nearest_match_skips_empty_hash :
  Store.hamming_distance "" "" = 0%Z
  ∧ (0 ≤ Store.default_threshold)%Z
  ∧ Store.find_by_perceptual_hash
      (example_store false [example_row "m1" None (Some ""%string)]) ""
      Store.default_threshold = None.
Proof. split_and!; [reflexivity | by vm_compute | reflexivity]. Qed.

(** ** Exact duplicates (claim C7) *)
Section exact_duplicate.
Context `{!Runtime} {image : Type} (world : Engine.Collaborators image).

(** With the local connection, an image whose content hash is stored is
    reported as unchanged, with the id and the summary of the stored record,
    and the store is left as it was. *)
Lemma process_screen_duplicate_local (store : Store.MemoryDatabase) (image_path : image)
    (metadata : option Engine.Metadata) (fingerprints : Engine.FingerprintSet)
    (existing : Store.MemoryRecord) :
  Engine.generate_all_fingerprints world image_path = Returned fingerprints →
  Store.is_remote store = false →
  List.find (λ row, bool_decide (Store.content_hash row
                                   = Some (Engine.content fingerprints)))
    (Store.memories store) = Some existing →
  Engine.process_screen world store image_path metadata =
    (store, Returned {|
       Engine.status := "unchanged";
       Engine.memory_id := Store.id existing;
       Engine.summary := Some (Store.summary existing);
       Engine.changes_count := None;
       Engine.message := "Exact duplicate found. No processing needed." |}).
Proof.
  intros Hfp Hlocal Hfind. unfold Engine.process_screen, Store.find_by_content_hash.
  by rewrite Hfp, Hfind, Hlocal.
Qed.

(** With the libsql connection the same call raises and leaves the store as it
    was: [find_by_content_hash] converts the row with [dict(row)], and the row
    is a tuple there. *)
Lemma process_screen_duplicate_remote (store : Store.MemoryDatabase) (image_path : image)
    (metadata : option Engine.Metadata) (fingerprints : Engine.FingerprintSet)
    (existing : Store.MemoryRecord) :
  Engine.generate_all_fingerprints world image_path = Returned fingerprints →
  Store.is_remote store = true →
  List.find (λ row, bool_decide (Store.content_hash row
                                   = Some (Engine.content fingerprints)))
    (Store.memories store) = Some existing →
  Engine.process_screen world store image_path metadata =
    (store, Raised (Store.dict_of_tuple_error existing)).
Proof.
  intros Hfp Hremote Hfind. unfold Engine.process_screen, Store.find_by_content_hash.
  by rewrite Hfp, Hfind, Hremote.
Qed.

End exact_duplicate.

(** C7 fails on the code when the store uses the libsql connection: for an
    image whose content hash is stored, [process_screen] raises [ValueError]
    instead of returning the status [unchanged] (the store is not modified).
    With the local connection the same call returns [unchanged] with the id
    and the summary of the stored record. *)
Theorem process_screen_duplicate_raises_on_remote_store :
  @Engine.process_screen example_runtime string example_world
    (example_store true [example_row "mem-1" (Some "c0ffee") (Some "ff00")])
    "screenshot.png" None
  = (example_store true [example_row "mem-1" (Some "c0ffee") (Some "ff00")],
     Raised ValueError)
  ∧ @Engine.process_screen example_runtime string example_world
      (example_store false [example_row "mem-1" (Some "c0ffee") (Some "ff00")])
      "screenshot.png" None
    = (example_store false [example_row "mem-1" (Some "c0ffee") (Some "ff00")],
       Returned {|
         Engine.status := "unchanged";
         Engine.memory_id := "mem-1";
         Engine.summary := Some (VStr "A login form.");
         Engine.changes_count := None;
         Engine.message := "Exact duplicate found. No processing needed." |}).
Proof. split; reflexivity. Qed.

(** ** Diff followed by patch (claim C1) *)
Section value_induction.

Lemma weight_lookup (d : gmap string value) (k : string) (v : value) :
  d !! k = Some v → weight v < weight (VDict d).
Proof.
  intros Hk. simpl.
  rewrite (map_fold_delete_L (λ _ v' n, weight v' + n) 0 k v d); [lia| |done].
  intros. lia.
Qed.

(** Induction on objects through the values of mappings. *)
Lemma value_dict_ind (P : value → Prop) :
  (∀ v, (∀ d k v', v = VDict d → d !! k = Some v' → P v') → P v) →
  ∀ v, P v.
Proof.
  intros Hstep v. remember (weight v) as n eqn:Hn. revert v Hn.
  induction (lt_wf n) as [n _ IH]. intros v ->.
  apply Hstep. intros d k v' -> Hk. eapply IH; [|reflexivity].
  by eapply weight_lookup.
Qed.

Lemma list_free_dict (d : gmap string value) :
  list_free (VDict d) ↔ ∀ k v, d !! k = Some v → list_free v.
Proof.
  simpl.
  apply (map_fold_weak_ind
    (λ (r : Prop) (m : gmap string value), r ↔ ∀ k v, m !! k = Some v → list_free v)).
  - split; [intros _ k v Hk; by rewrite lookup_empty in Hk|done].
  - intros i x m r Hi IH. split.
    + intros [Hx Hr] k v Hk. destruct (decide (i = k)) as [->|Hne].
      * rewrite lookup_insert_eq in Hk. by simplify_eq.
      * rewrite lookup_insert_ne in Hk by done. by eapply IH.
    + intros Hall. split.
      * apply (Hall i). by rewrite lookup_insert_eq.
      * apply IH. intros k v Hk. apply (Hall k).
        rewrite lookup_insert_ne; [done|]. intros ->. congruence.
Qed.

Lemma public_keys_dict (d : gmap string value) :
  public_keys (VDict d) ↔
  ∀ k v, d !! k = Some v → startswith k "_" = false ∧ public_keys v.
Proof.
  simpl.
  apply (map_fold_weak_ind
    (λ (r : Prop) (m : gmap string value),
       r ↔ ∀ k v, m !! k = Some v → startswith k "_" = false ∧ public_keys v)).
  - split; [intros _ k v Hk; by rewrite lookup_empty in Hk|done].
  - intros i x m r Hi IH. split.
    + intros (Hi' & Hx & Hr) k v Hk. destruct (decide (i = k)) as [->|Hne].
      * rewrite lookup_insert_eq in Hk. by simplify_eq.
      * rewrite lookup_insert_ne in Hk by done. by eapply IH.
    + intros Hall. split_and!.
      * apply (Hall i x). by rewrite lookup_insert_eq.
      * apply (Hall i x). by rewrite lookup_insert_eq.
      * apply IH. intros k v Hk. apply (Hall k).
        rewrite lookup_insert_ne; [done|]. intros ->. congruence.
Qed.

End value_induction.

Section diff_structure.
Context `{!Runtime}.

Lemma foldl_pointwise {A B} (f g : A → B → A) (a : A) (l : list B) :
  (∀ a b, b ∈ l → f a b = g a b) → foldl f a l = foldl g a l.
Proof.
  revert a. induction l as [|b l IH]; intros a Hfg; [done|]. simpl.
  rewrite Hfg by (by left). apply IH. intros a' b' Hb'. apply Hfg. by right.
Qed.

Lemma foldl_appending {A B} (f : list A → B → list A) (acc : list A) (l : list B) :
  (∀ acc b, b ∈ l → f acc b = acc ++ f [] b) →
  foldl f acc l = acc ++ flat_map (f []) l.
Proof.
  revert acc. induction l as [|b l IH]; intros acc Hf; simpl.
  - by rewrite app_nil_r.
  - rewrite IH by (intros acc' b' Hb'; apply Hf; by right).
    rewrite (Hf acc b) by (by left). by rewrite <- app_assoc.
Qed.

Lemma compare_dicts_fold (old_dict new_dict : gmap string value) path ops :
  _compare_dicts old_dict new_dict path ops =
    foldl (dict_step old_dict new_dict path) ops
      (iter_set (dom old_dict ∪ dom new_dict)).
Proof.
  unfold _compare_dicts, _compare_dicts_loop. apply foldl_pointwise.
  intros acc key _. unfold dict_step.
  destruct (startswith key "_"); [done|].
  rewrite lookup_fmap.
  destruct (old_dict !! key) as [old_val|], (new_dict !! key) as [new_val|]; done.
Qed.

Lemma compare_values_dicts (old_dict new_dict : gmap string value) path ops :
  _compare_values (VDict old_dict) (VDict new_dict) path ops =
    _compare_dicts old_dict new_dict path ops.
Proof. reflexivity. Qed.

Lemma compute_structured_diff_root (old new : gmap string value) :
  _compute_structured_diff old new = _compare_dicts old new [] [].
Proof.
  rewrite compare_dicts_fold. unfold _compute_structured_diff.
  apply foldl_pointwise. intros acc key _. unfold dict_step.
  destruct (startswith key "_"); [done|].
  destruct (old !! key) as [old_val|], (new !! key) as [new_val|]; done.
Qed.

Lemma compare_lists_appends (old_list new_list : list value) path ops :
  _compare_lists old_list new_list path ops =
    ops ++ _compare_lists old_list new_list path [].
Proof.
  unfold _compare_lists.
  destruct (forallb is_primitive old_list && forallb is_primitive new_list); [done|].
  destruct (py_eq _ _); [by rewrite app_nil_r|done].
Qed.

(** The operations of a comparison are appended to those collected before. *)
Lemma compare_values_appends (old_val new_val : value) path ops :
  _compare_values old_val new_val path ops =
    ops ++ _compare_values old_val new_val path [].
Proof.
  revert new_val path ops.
  induction old_val as [old_val IH] using value_dict_ind. intros new_val path ops.
  destruct (decide (type_of old_val = type_of new_val)) as [Hty|Hty]; cycle 1.
  { destruct old_val, new_val; try done. }
  destruct old_val as [| | | | |old_list|old_dict],
           new_val as [| | | | |new_list|new_dict]; try done;
    try (simpl; try destruct (negb _); by rewrite ?app_nil_r).
  - apply compare_lists_appends.
  - rewrite !compare_values_dicts, !compare_dicts_fold.
    assert (∀ acc key, dict_step old_dict new_dict path acc key =
                       acc ++ dict_step old_dict new_dict path [] key) as Hstep.
    { intros acc key. unfold dict_step.
      destruct (startswith key "_"); [by rewrite app_nil_r|].
      destruct (old_dict !! key) as [old_val|] eqn:Hold,
               (new_dict !! key) as [new_val|]; try done.
      by apply (IH old_dict key). }
    rewrite (foldl_appending _ ops), (foldl_appending _ []); [done|..];
      intros; apply Hstep.
Qed.

Lemma dict_step_appends (old_dict new_dict : gmap string value) path ops key :
  dict_step old_dict new_dict path ops key =
    ops ++ dict_step old_dict new_dict path [] key.
Proof.
  unfold dict_step. destruct (startswith key "_"); [by rewrite app_nil_r|].
  destruct (old_dict !! key) as [old_val|], (new_dict !! key) as [new_val|]; try done.
  apply compare_values_appends.
Qed.

Lemma compare_dicts_flat_map (old_dict new_dict : gmap string value) path :
  _compare_dicts old_dict new_dict path [] =
    flat_map (dict_step old_dict new_dict path [])
      (iter_set (dom old_dict ∪ dom new_dict)).
Proof.
  rewrite compare_dicts_fold, foldl_appending; [done|].
  intros acc key _. apply dict_step_appends.
Qed.

Lemma flat_map_pointwise {A B} (f g : A → list B) (l : list A) :
  (∀ a, a ∈ l → f a = g a) → flat_map f l = flat_map g l.
Proof.
  induction l as [|a l IH]; intros Hfg; [done|]. simpl.
  rewrite Hfg by (by left). rewrite IH; [done|]. intros a' Ha'. apply Hfg. by right.
Qed.

Lemma fmap_flat_map {A B C} (h : B → C) (f : A → list B) (l : list A) :
  h <$> flat_map f l = flat_map (λ a, h <$> f a) l.
Proof. induction l as [|a l IH]; [done|]. simpl. by rewrite fmap_app, IH. Qed.

Lemma compare_lists_prefix (old_list new_list : list value) p q :
  _compare_lists old_list new_list (p ++ q) [] =
    with_prefix p <$> _compare_lists old_list new_list q [].
Proof.
  unfold _compare_lists.
  destruct (forallb is_primitive old_list && forallb is_primitive new_list).
  - simpl. rewrite fmap_app. f_equal.
    + rewrite <- list_fmap_compose. by apply list_fmap_ext.
    + rewrite <- list_fmap_compose. by apply list_fmap_ext.
  - by destruct (py_eq _ _).
Qed.

(** Comparing below the path [p ++ q] gives the operations of the comparison
    below [q], with [p] in front of every path. *)
Lemma compare_values_prefix (old_val new_val : value) p q :
  _compare_values old_val new_val (p ++ q) [] =
    with_prefix p <$> _compare_values old_val new_val q [].
Proof.
  revert new_val q.
  induction old_val as [old_val IH] using value_dict_ind. intros new_val q.
  destruct (decide (type_of old_val = type_of new_val)) as [Hty|Hty]; cycle 1.
  { destruct old_val, new_val; try done. }
  destruct old_val as [| | | | |old_list|old_dict],
           new_val as [| | | | |new_list|new_dict]; try done;
    try (simpl; try destruct (negb _); done).
  - apply compare_lists_prefix.
  - rewrite !compare_values_dicts, !compare_dicts_flat_map, fmap_flat_map.
    apply flat_map_pointwise. intros key _. unfold dict_step.
    destruct (startswith key "_"); [done|].
    destruct (old_dict !! key) as [old_val|] eqn:Hold,
             (new_dict !! key) as [new_val|]; simpl;
      rewrite <- ?(assoc_L (++)); try done.
    by apply (IH old_dict key).
Qed.

End diff_structure.

Section patch_of_diff.
Context `{!Runtime}.

Lemma apply_operations_app (doc : value) (ops1 ops2 : list DiffOperation) :
  apply_operations doc (ops1 ++ ops2) =
    match apply_operations doc ops1 with
    | Returned doc' => apply_operations doc' ops2
    | Raised e => Raised e
    end.
Proof.
  revert doc. induction ops1 as [|operation ops1 IH]; intros doc; [done|]. simpl.
  destruct (apply_operation doc operation) as [doc' [[]|]]; try done; apply IH.
Qed.

Lemma update_nested_below (d : gmap string value) (k k1 : string) (rest : list string)
    (sub v : value) :
  d !! k = Some sub →
  _update_nested (VDict d) (k :: k1 :: rest) v =
    (VDict (<[k := (_update_nested sub (k1 :: rest) v).1]> d),
     (_update_nested sub (k1 :: rest) v).2).
Proof.
  intros Hk.
  change (_update_nested (VDict d) (k :: k1 :: rest) v) with
    (let d' := match d !! k with
               | None => <[k := VDict ∅]> d
               | Some _ => d
               end in
     let '(sub', raised) :=
       _update_nested (default (VDict ∅) (d' !! k)) (k1 :: rest) v in
     (VDict (<[k := sub']> d'), raised)).
  rewrite Hk. cbv zeta. rewrite Hk. cbn [default from_option id].
  by destruct (_update_nested sub (k1 :: rest) v).
Qed.

Lemma add_to_nested_below (d : gmap string value) (k k1 : string) (rest : list string)
    (sub v : value) :
  d !! k = Some sub →
  _add_to_nested (VDict d) (k :: k1 :: rest) v =
    (VDict (<[k := (_add_to_nested sub (k1 :: rest) v).1]> d),
     (_add_to_nested sub (k1 :: rest) v).2).
Proof.
  intros Hk.
  change (_add_to_nested (VDict d) (k :: k1 :: rest) v) with
    (let d' := match d !! k with
               | None => <[k := VDict ∅]> d
               | Some _ => d
               end in
     let '(sub', raised) :=
       _add_to_nested (default (VDict ∅) (d' !! k)) (k1 :: rest) v in
     (VDict (<[k := sub']> d'), raised)).
  rewrite Hk. cbv zeta. rewrite Hk. cbn [default from_option id].
  by destruct (_add_to_nested sub (k1 :: rest) v).
Qed.

Lemma remove_from_nested_below (d : gmap string value) (k k1 : string)
    (rest : list string) (sub : value) :
  d !! k = Some sub →
  _remove_from_nested (VDict d) (k :: k1 :: rest) =
    (VDict (<[k := (_remove_from_nested sub (k1 :: rest)).1]> d),
     (_remove_from_nested sub (k1 :: rest)).2).
Proof.
  intros Hk.
  change (_remove_from_nested (VDict d) (k :: k1 :: rest)) with
    (match d !! k with
     | None => (VDict d, None)
     | Some sub =>
         let '(sub', raised) := _remove_from_nested sub (k1 :: rest) in
         (VDict (<[k := sub']> d), raised)
     end).
  rewrite Hk. by destruct (_remove_from_nested sub (k1 :: rest)).
Qed.

(** An operation whose path continues below the key [k] of a mapping acts on
    the value of [k]. *)
Lemma apply_operation_under_key (d : gmap string value) (k : string) (sub : value)
    (operation : DiffOperation) :
  d !! k = Some sub → path operation ≠ [] →
  apply_operation (VDict d) (with_prefix [k] operation) =
    (VDict (<[k := (apply_operation sub operation).1]> d),
     (apply_operation sub operation).2).
Proof.
  intros Hk Hpath. unfold apply_operation, with_prefix. cbn [op path new_value].
  destruct (path operation) as [|k1 rest] eqn:Hp; [done|].
  change ([k] ++ k1 :: rest) with (k :: k1 :: rest).
  repeat case_bool_decide.
  - by apply update_nested_below.
  - by apply add_to_nested_below.
  - by apply remove_from_nested_below.
  - cbn [fst snd]. by rewrite (insert_id _ _ _ Hk).
Qed.

Lemma apply_operations_under_key (ops : list DiffOperation) (d : gmap string value)
    (k : string) (sub : value) :
  d !! k = Some sub → Forall (λ operation, path operation ≠ []) ops →
  apply_operations (VDict d) (with_prefix [k] <$> ops) =
    match apply_operations sub ops with
    | Returned sub' => Returned (VDict (<[k := sub']> d))
    | Raised e => Raised e
    end.
Proof.
  revert d sub. induction ops as [|operation ops IH]; intros d sub Hk Hpaths.
  - simpl. by rewrite (insert_id _ _ _ Hk).
  - apply Forall_cons_1 in Hpaths as [Hpath Hpaths].
    rewrite fmap_cons. simpl.
    rewrite (apply_operation_under_key _ _ _ _ Hk Hpath).
    destruct (apply_operation sub operation) as [sub1 raised]. simpl.
    assert (apply_operations (VDict (<[k:=sub1]> d)) (with_prefix [k] <$> ops) =
            match apply_operations sub1 ops with
            | Returned sub' => Returned (VDict (<[k := sub']> d))
            | Raised e => Raised e
            end) as Hrest.
    { rewrite (IH (<[k:=sub1]> d) sub1); [|by rewrite lookup_insert_eq|done].
      destruct (apply_operations sub1 ops); [|done]. by rewrite insert_insert_eq. }
    destruct raised as [[]|]; done.
Qed.

(** Two scalars of one type that Python finds equal are the same object. *)
Lemma py_eq_same_type (a b : value) :
  is_scalar a = true → type_of a = type_of b → py_eq a b = true → a = b.
Proof.
  intros Ha Hty Heq. destruct a, b; try done; simpl in Heq.
  - apply bool_decide_eq_true in Heq. by destruct b0, b.
  - apply bool_decide_eq_true in Heq. by simplify_eq.
  - apply bool_decide_eq_true in Heq. by subst.
  - apply bool_decide_eq_true in Heq. by subst.
Qed.

Lemma dict_step_paths (old_dict new_dict : gmap string value) key :
  Forall (λ operation, path operation ≠ []) (dict_step old_dict new_dict [] [] key).
Proof.
  unfold dict_step. destruct (startswith key "_"); [constructor|].
  destruct (old_dict !! key) as [old_val|], (new_dict !! key) as [new_val|];
    try (repeat constructor; done).
  rewrite (compare_values_prefix old_val new_val [key] []).
  apply Forall_fmap, Forall_true. intros operation. done.
Qed.

Lemma compare_dicts_paths (old_dict new_dict : gmap string value) :
  Forall (λ operation, path operation ≠ []) (_compare_dicts old_dict new_dict [] []).
Proof.
  rewrite compare_dicts_flat_map.
  induction (iter_set _) as [|key keys IH]; simpl; [constructor|].
  apply Forall_app. split; [apply dict_step_paths|done].
Qed.

End patch_of_diff.

Section roundtrip.
Context `{!Runtime}.

Lemma compare_values_type_change (old_val new_val : value) path ops :
  type_of old_val ≠ type_of new_val →
  _compare_values old_val new_val path ops =
    ops ++ [update_op path old_val new_val (Qc_of_Z 1)].
Proof. intros Hty. destruct old_val, new_val; done. Qed.

Lemma apply_update_at_key (m : gmap string value) (key : string) (old new : value) c :
  apply_operations (VDict m) [update_op [key] old new c] =
    Returned (VDict (<[key := new]> m)).
Proof. reflexivity. Qed.

Lemma overlay_dicts (old_dict new_dict : gmap string value) :
  overlay (VDict old_dict) (VDict new_dict) = VDict (overlay_dict old_dict new_dict).
Proof. reflexivity. Qed.

Lemma overlay_not_dicts (old new : value) :
  type_of old ≠ TDict ∨ type_of new ≠ TDict → overlay old new = new.
Proof. intros [Hty|Hty]; destruct old, new; done. Qed.

(** The entries of the overlay of two mappings. *)
Lemma overlay_dict_lookup (old_dict new_dict : gmap string value) (key : string) :
  overlay_dict old_dict new_dict !! key =
    if startswith key "_" then old_dict !! key
    else match old_dict !! key, new_dict !! key with
         | Some old_val, Some new_val => Some (overlay old_val new_val)
         | Some _, None => None
         | None, new_val => new_val
         end.
Proof.
  unfold overlay_dict.
  rewrite lookup_union, !map_lookup_filter, lookup_merge, lookup_fmap. simpl.
  destruct (startswith key "_"), (old_dict !! key) as [old_val|],
           (new_dict !! key) as [new_val|]; done.
Qed.

Lemma list_free_lookup (d : gmap string value) (k : string) (v : value) :
  list_free (VDict d) → d !! k = Some v → list_free v.
Proof. rewrite list_free_dict. eauto. Qed.

(** Patching with the comparison of the values of one key puts the overlay of
    the two values under that key. *)
Lemma compare_values_patch (m : gmap string value) (key : string)
    (old_val new_val : value) :
  list_free old_val → list_free new_val →
  m !! key = Some old_val →
  (∀ od nd, old_val = VDict od → list_free (VDict nd) →
      apply_operations (VDict od) (_compare_dicts od nd [] [])
        = Returned (VDict (overlay_dict od nd))) →
  apply_operations (VDict m) (_compare_values old_val new_val [key] []) =
    Returned (VDict (<[key := overlay old_val new_val]> m)).
Proof.
  intros Ho Hn Hm IH.
  destruct (decide (type_of old_val = type_of new_val)) as [Hty|Hty]; cycle 1.
  { rewrite compare_values_type_change by done.
    rewrite overlay_not_dicts by (destruct old_val, new_val; naive_solver).
    apply apply_update_at_key. }
  destruct old_val as [| | | | |old_list|old_dict] eqn:Hold; rewrite <- Hold in *.
  1-5: rewrite overlay_not_dicts by (left; by subst);
       rewrite compare_values_scalars by (by subst; destruct new_val);
       rewrite bool_decide_eq_true_2 by done;
       destruct (py_eq old_val new_val) eqn:Heq;
       [ apply py_eq_same_type in Heq; [|by subst|done];
         simpl; subst new_val; by rewrite insert_id
       | apply apply_update_at_key ].
  - by subst.
  - destruct new_val as [| | | | | |new_dict]; try (by subst). subst old_val.
    pose proof (compare_values_prefix (VDict old_dict) (VDict new_dict) [key] [])
      as Hprefix.
    change ([key] ++ []) with [key] in Hprefix. rewrite Hprefix.
    rewrite compare_values_dicts.
    rewrite (apply_operations_under_key _ _ _ _ Hm (compare_dicts_paths _ _)).
    by rewrite (IH old_dict new_dict).
Qed.

Lemma dict_step_patch (old_dict new_dict m : gmap string value) (key : string) :
  list_free (VDict old_dict) → list_free (VDict new_dict) →
  key ∈ dom old_dict ∪ dom new_dict →
  m !! key = old_dict !! key →
  (∀ v od nd, old_dict !! key = Some v → v = VDict od → list_free (VDict nd) →
      apply_operations (VDict od) (_compare_dicts od nd [] [])
        = Returned (VDict (overlay_dict od nd))) →
  apply_operations (VDict m) (dict_step old_dict new_dict [] [] key) =
    Returned (VDict (partial_alter (λ _, overlay_dict old_dict new_dict !! key) key m)).
Proof.
  intros Ho Hn Hkey Hm IH. rewrite overlay_dict_lookup.
  unfold dict_step. change ([] ++ [key]) with [key].
  destruct (startswith key "_").
  { rewrite <- Hm. by rewrite partial_alter_self. }
  destruct (old_dict !! key) as [old_val|] eqn:Hold,
           (new_dict !! key) as [new_val|] eqn:Hnew.
  - pose proof (list_free_lookup old_dict key old_val Ho Hold) as Hlo.
    pose proof (list_free_lookup new_dict key new_val Hn Hnew) as Hln.
    rewrite (compare_values_patch m key old_val new_val); try done.
    intros od nd. by apply IH.
  - change (apply_operations (VDict m) ([] ++ [remove_op [key] old_val]))
      with (match _remove_from_nested (VDict m) [key] with
            | (doc, None) | (doc, Some KeyError) | (doc, Some IndexError)
            | (doc, Some TypeError) => Returned doc
            | (_, Some e) => Raised e
            end).
    simpl. by rewrite Hm.
  - change (apply_operations (VDict m) ([] ++ [add_op [key] (default VNone (Some new_val))]))
      with (match _add_to_nested (VDict m) [key] new_val with
            | (doc, None) | (doc, Some KeyError) | (doc, Some IndexError)
            | (doc, Some TypeError) => Returned doc
            | (_, Some e) => Raised e
            end).
    simpl. by rewrite Hm.
  - apply elem_of_union in Hkey as [[v Hv]%elem_of_dom|[v Hv]%elem_of_dom]; congruence.
Qed.

Lemma lookup_foldl_partial_alter (target m : gmap string value)
    (keys : list string) (j : string) :
  foldl (λ m key, partial_alter (λ _, target !! key) key m) m keys !! j =
    if decide (j ∈ keys) then target !! j else m !! j.
Proof.
  revert m. induction keys as [|key keys IH]; intros m; [done|]. simpl.
  rewrite IH. destruct (decide (j ∈ keys)) as [Hin|Hnotin].
  - rewrite decide_True; [done|by right].
  - rewrite lookup_partial_alter. destruct (decide (key = j)) as [->|Hne].
    + rewrite decide_True; [done|by left].
    + rewrite decide_False; [done|]. intros [->|?]%elem_of_cons; done.
Qed.

Lemma dict_steps_patch (old_dict new_dict : gmap string value) (keys : list string)
    (m : gmap string value) :
  list_free (VDict old_dict) → list_free (VDict new_dict) →
  NoDup keys →
  (∀ key, key ∈ keys → key ∈ dom old_dict ∪ dom new_dict ∧ m !! key = old_dict !! key) →
  (∀ key v od nd, old_dict !! key = Some v → v = VDict od → list_free (VDict nd) →
      apply_operations (VDict od) (_compare_dicts od nd [] [])
        = Returned (VDict (overlay_dict od nd))) →
  apply_operations (VDict m) (flat_map (dict_step old_dict new_dict [] []) keys) =
    Returned (VDict (foldl (λ m key,
                partial_alter (λ _, overlay_dict old_dict new_dict !! key) key m)
              m keys)).
Proof.
  intros Ho Hn Hnd Hkeys IH. revert m Hkeys.
  induction keys as [|key keys IHkeys]; intros m Hkeys; [done|]. simpl.
  pose proof (NoDup_cons_1_1 _ _ Hnd) as Hfresh. apply NoDup_cons_1_2 in Hnd.
  destruct (Hkeys key) as [Hdom Hm]; [by left|].
  rewrite apply_operations_app.
  rewrite (dict_step_patch old_dict new_dict m key); try done; [|by apply IH].
  apply IHkeys; [done|]. intros key' Hkey'.
  destruct (Hkeys key') as [Hdom' Hm']; [by right|]. split; [done|].
  rewrite lookup_partial_alter_ne; [done|]. intros ->. done.
Qed.

(** The operations of [_compare_dicts] at the root turn the old mapping into
    the overlay of the two mappings. *)
Lemma compare_dicts_patch (old_val : value) :
  ∀ od nd, old_val = VDict od → list_free (VDict od) → list_free (VDict nd) →
    apply_operations (VDict od) (_compare_dicts od nd [] [])
      = Returned (VDict (overlay_dict od nd)).
Proof.
  induction old_val as [old_val IH] using value_dict_ind.
  intros od nd -> Ho Hn.
  rewrite compare_dicts_flat_map.
  rewrite (dict_steps_patch od nd _ od); try done.
  - do 2 f_equal. apply map_eq. intros j.
    rewrite lookup_foldl_partial_alter. case_decide as Hj; [done|].
    rewrite iter_set_perm, elem_of_elements in Hj.
    apply not_elem_of_union in Hj as [Hjo Hjn].
    apply not_elem_of_dom in Hjo, Hjn.
    rewrite overlay_dict_lookup, Hjo, Hjn. by destruct (startswith j "_").
  - rewrite iter_set_perm. apply NoDup_elements.
  - intros key Hkey. split; [|done].
    by rewrite iter_set_perm, elem_of_elements in Hkey.
  - intros key v od' nd' Hv -> Hnd'.
    apply (IH od key (VDict od')); try done.
    by apply (list_free_lookup od key).
Qed.

(** Without keys that start with an underscore the overlay is the new
    document. *)
Lemma overlay_public (old new : value) :
  public_keys old → public_keys new → overlay old new = new.
Proof.
  revert new. induction old as [old IH] using value_dict_ind. intros new Ho Hn.
  destruct old as [| | | | | |od]; try done.
  destruct new as [| | | | | |nd]; try done.
  rewrite overlay_dicts. f_equal. apply map_eq. intros key.
  rewrite overlay_dict_lookup.
  rewrite public_keys_dict in Ho. rewrite public_keys_dict in Hn.
  destruct (od !! key) as [old_val|] eqn:Hold, (nd !! key) as [new_val|] eqn:Hnew.
  - destruct (Ho _ _ Hold) as [-> ?]. destruct (Hn _ _ Hnew) as [_ ?].
    f_equal. by apply (IH od key).
  - by destruct (Ho _ _ Hold) as [-> ?].
  - by destruct (Hn _ _ Hnew) as [-> ?].
  - by destruct (startswith key "_").
Qed.

(** C1, as the code has it: for documents [X] and [Y] that contain only
    scalars and mappings (no list anywhere), applying the structured diff of
    [X] against [Y] to [X] yields [Y], except that in the mappings that the
    diff compares the entries whose key starts with an underscore are skipped:
    those of [X] are kept and those of [Y] are not copied.  When no key of [X]
    or [Y] starts with an underscore the patch reproduces [Y] exactly. *)
Theorem patch_of_diff_reproduces (X Y : gmap string value) :
  list_free (VDict X) → list_free (VDict Y) →
  apply_diff (VDict X) (_compute_structured_diff X Y)
    = Returned (VDict (overlay_dict X Y))
  ∧ (∀ key, overlay_dict X Y !! key =
       if startswith key "_" then X !! key
       else match X !! key, Y !! key with
            | Some old_val, Some new_val => Some (overlay old_val new_val)
            | Some _, None => None
            | None, new_val => new_val
            end)
  ∧ (public_keys (VDict X) → public_keys (VDict Y) →
     apply_diff (VDict X) (_compute_structured_diff X Y) = Returned (VDict Y)).
Proof.
  intros HlX HlY. unfold apply_diff.
  rewrite compute_structured_diff_root.
  rewrite (compare_dicts_patch (VDict X)) by done.
  split_and!; [done|apply overlay_dict_lookup|]. intros HpX HpY.
  by rewrite <- overlay_dicts, overlay_public.
Qed.

End roundtrip.

Lemma patch_of_diff_reproduces_witness :
  list_free (VDict example_old) ∧ list_free (VDict example_new)
  ∧ public_keys (VDict example_old) ∧ public_keys (VDict example_new)
  ∧ apply_diff (VDict example_old)
      (@_compute_structured_diff example_runtime example_old example_new)
    = Returned (VDict example_new).
Proof.
  assert (H1 : list_free (VDict example_old)) by (vm_compute; tauto).
  assert (H2 : list_free (VDict example_new)) by (vm_compute; tauto).
  assert (H3 : public_keys (VDict example_old)) by (vm_compute; tauto).
  assert (H4 : public_keys (VDict example_new)) by (vm_compute; tauto).
  split_and!; [exact H1 | exact H2 | exact H3 | exact H4 |].
  exact (proj2 (proj2 (@patch_of_diff_reproduces example_runtime
                         example_old example_new H1 H2)) H3 H4).
Defined.

(** The claim C1 as worded fails: the diff skips the keys that start with an
    underscore, so such an entry of [X] that [Y] lacks stays in the patched
    document. *)
Lemma patch_of_diff_keeps_private_key :
  list_free (VDict {[ "_cache" := VInt 1 ]}) ∧ list_free (VDict ∅)
  ∧ @_compute_structured_diff example_runtime {[ "_cache" := VInt 1 ]} ∅ = []
  ∧ apply_diff (VDict {[ "_cache" := VInt 1 ]})
      (@_compute_structured_diff example_runtime {[ "_cache" := VInt 1 ]} ∅)
    = Returned (VDict {[ "_cache" := VInt 1 ]})
  ∧ apply_diff (VDict {[ "_cache" := VInt 1 ]})
      (@_compute_structured_diff example_runtime {[ "_cache" := VInt 1 ]} ∅)
    ≠ Returned (VDict ∅).
Proof.
  split_and!; [by vm_compute | by vm_compute | reflexivity | reflexivity |].
  intros Heq. vm_compute in Heq. discriminate Heq.
Qed.

(** An entry of [Y] under such a key is not copied either, while the other
    entries are. *)
Lemma patch_of_diff_private_keys_example :
  apply_diff (VDict {[ "_id" := VInt 1; "title" := VStr "a" ]})
    (@_compute_structured_diff example_runtime
       {[ "_id" := VInt 1; "title" := VStr "a" ]}
       {[ "_rev" := VInt 2; "title" := VStr "b" ]})
  = Returned (VDict {[ "_id" := VInt 1; "title" := VStr "b" ]}).
Proof. reflexivity. Qed.

(** ** The exceptions of the patcher *)
Section patch_exceptions.

Lemma update_nested_raises (path : list string) (current v : value) (e : exn) :
  (_update_nested current path v).2 = Some e → structural e.
Proof.
  unfold structural. revert current.
  induction path as [|key rest IH]; intros current.
  - destruct current; simpl; intros; simplify_eq; auto 8.
  - destruct rest as [|key1 rest].
    + destruct current as [| | | | |l|d]; simpl; intros He; simplify_eq; auto 8.
      destruct (py_int key); simpl in He; [|simplify_eq; auto 8].
      destruct (_ && _); simpl in He; simplify_eq; auto 8.
    + destruct current as [| | | | |l|d];
        try (simpl; intros; simplify_eq; by auto 8).
      change (_update_nested (VDict d) (key :: key1 :: rest) v) with
        (let d' := match d !! key with
                   | None => <[key := VDict ∅]> d
                   | Some _ => d
                   end in
         let '(sub', raised) :=
           _update_nested (default (VDict ∅) (d' !! key)) (key1 :: rest) v in
         (VDict (<[key := sub']> d'), raised)).
      cbv zeta.
      destruct (_update_nested _ (key1 :: rest) v) as [sub' raised] eqn:Hsub.
      simpl. intros ->. apply (IH (default (VDict ∅)
        (match d !! key with
         | Some _ => d
         | None => <[key:=VDict ∅]> d
         end !! key))). by rewrite Hsub.
Qed.

Lemma add_to_nested_raises (path : list string) (current v : value) (e : exn) :
  (_add_to_nested current path v).2 = Some e → structural e.
Proof.
  unfold structural. revert current.
  induction path as [|key rest IH]; intros current.
  - simpl; intros; simplify_eq; auto 8.
  - destruct rest as [|key1 rest].
    + destruct current as [| | | | |l|d]; simpl; intros He; simplify_eq; auto 8.
      * destruct (py_int key); simpl in He; [|simplify_eq; auto 8].
        repeat (match type of He with
                | context [if ?b then _ else _] => destruct b; simpl in He
                end);
          simplify_eq; auto 8.
      * destruct (d !! key) as [[]|]; simpl in He; simplify_eq.
    + destruct current as [| | | | |l|d];
        try (simpl; intros; simplify_eq; by auto 8).
      change (_add_to_nested (VDict d) (key :: key1 :: rest) v) with
        (let d' := match d !! key with
                   | None => <[key := VDict ∅]> d
                   | Some _ => d
                   end in
         let '(sub', raised) :=
           _add_to_nested (default (VDict ∅) (d' !! key)) (key1 :: rest) v in
         (VDict (<[key := sub']> d'), raised)).
      cbv zeta.
      destruct (_add_to_nested _ (key1 :: rest) v) as [sub' raised] eqn:Hsub.
      simpl. intros ->. apply (IH (default (VDict ∅)
        (match d !! key with
         | Some _ => d
         | None => <[key:=VDict ∅]> d
         end !! key))). by rewrite Hsub.
Qed.

Lemma remove_from_nested_raises (path : list string) (current : value) (e : exn) :
  (_remove_from_nested current path).2 = Some e → structural e.
Proof.
  unfold structural. revert current.
  induction path as [|key rest IH]; intros current.
  - simpl; intros; simplify_eq; auto 8.
  - destruct rest as [|key1 rest].
    + destruct current as [| | | | |l|d]; simpl; intros He; simplify_eq; auto 8.
      * destruct (py_int key); simpl in He; [|simplify_eq; auto 8].
        destruct (_ && _); simpl in He; simplify_eq.
      * destruct (d !! key); simpl in He; simplify_eq.
    + destruct current as [| | | | s|l|d];
        try (simpl; intros; simplify_eq; by auto 8).
      * simpl. destruct (contains key s); simpl; intros; simplify_eq; auto 8.
      * simpl. destruct (py_in (VStr key) l); simpl; intros; simplify_eq; auto 8.
      * change (_remove_from_nested (VDict d) (key :: key1 :: rest)) with
          (match d !! key with
           | None => (VDict d, None)
           | Some sub =>
               let '(sub', raised) := _remove_from_nested sub (key1 :: rest) in
               (VDict (<[key := sub']> d), raised)
           end).
        destruct (d !! key) as [sub|]; [|simpl; intros; simplify_eq].
        destruct (_remove_from_nested sub (key1 :: rest)) as [sub' raised] eqn:Hsub.
        simpl. intros ->. apply (IH sub). by rewrite Hsub.
Qed.

(** X26: the exceptions that can leave [apply_diff] are the [ValueError] of
    a path segment that addresses a sequence and is not a number, and the
    [OverflowError] or [MemoryError] of an [add] that pads a list up to a
    huge index: no [KeyError], [IndexError], [TypeError] or [AttributeError]
    leaves it. *)
Theorem apply_diff_escaping_exceptions (ops : list DiffOperation) (doc : value)
    (e : exn) :
  apply_diff doc ops = Raised e →
  e = ValueError ∨ e = OverflowError ∨ e = MemoryError.
Proof.
  unfold apply_diff. revert doc. induction ops as [|operation ops IH]; intros doc; [done|].
  simpl. destruct (apply_operation doc operation) as [doc' raised] eqn:Hop.
  assert (∀ e', raised = Some e' → structural e') as Hraised.
  { intros e' ->. unfold apply_operation in Hop. repeat case_bool_decide.
    - apply (update_nested_raises (path operation) doc (new_value operation)).
      by rewrite Hop.
    - apply (add_to_nested_raises (path operation) doc (new_value operation)).
      by rewrite Hop.
    - apply (remove_from_nested_raises (path operation) doc). by rewrite Hop.
    - by simplify_eq. }
  destruct raised as [e'|]; [|apply IH].
  destruct (Hraised e' eq_refl) as [->|[->|[->|[->| ->]]]];
    [apply IH | apply IH | ..]; intros He; simplify_eq; auto.
Qed.

End patch_exceptions.

(** ** Diff followed by patch, on all documents *)
Section patch_of_any_diff.
Context `{!Runtime}.

Lemma patched_dicts (old_dict new_dict : gmap string value) :
  patched (VDict old_dict) (VDict new_dict) = Some (VDict (patched_dict old_dict new_dict)).
Proof. reflexivity. Qed.

Lemma patched_type_change (old new : value) :
  type_of old ≠ type_of new → patched old new = Some new.
Proof. intros Hty. destruct old, new; done. Qed.

Lemma patched_dict_lookup (old_dict new_dict : gmap string value) (key : string) :
  patched_dict old_dict new_dict !! key =
    if startswith key "_" then old_dict !! key
    else match old_dict !! key, new_dict !! key with
         | Some old_val, Some new_val => patched old_val new_val
         | Some _, None => None
         | None, new_val => new_val
         end.
Proof.
  unfold patched_dict.
  rewrite lookup_union, !map_lookup_filter, lookup_merge, lookup_fmap. simpl.
  destruct (startswith key "_"), (old_dict !! key) as [old_val|],
           (new_dict !! key) as [new_val|]; simpl; try done;
    by destruct (patched old_val new_val).
Qed.

(** The [add] operations of a list comparison append to the list. *)
Lemma apply_adds (items : list value) (m : gmap string value) (key : string)
    (old_list : list value) :
  m !! key = Some (VList old_list) →
  apply_operations (VDict m) (map (add_op [key]) items) =
    Returned (VDict (<[key := VList (old_list ++ items)]> m)).
Proof.
  revert m old_list. induction items as [|item items IH]; intros m old_list Hm.
  - simpl. by rewrite app_nil_r, insert_id.
  - change (apply_operations (VDict m) (map (add_op [key]) (item :: items))) with
      (match _add_to_nested (VDict m) [key] item with
       | (doc, None) | (doc, Some KeyError) | (doc, Some IndexError)
       | (doc, Some TypeError) => apply_operations doc (map (add_op [key]) items)
       | (_, Some e) => Raised e
       end).
    simpl. rewrite Hm.
    rewrite (IH _ (old_list ++ [item])) by (by rewrite lookup_insert_eq).
    by rewrite insert_insert_eq, <- app_assoc.
Qed.

Lemma apply_removes_absent (items : list value) (m : gmap string value) (key : string) :
  m !! key = None →
  apply_operations (VDict m) (map (remove_op [key]) items) = Returned (VDict m).
Proof.
  intros Hm. induction items as [|item items IH]; [done|].
  change (apply_operations (VDict m) (map (remove_op [key]) (item :: items))) with
    (match _remove_from_nested (VDict m) [key] with
     | (doc, None) | (doc, Some KeyError) | (doc, Some IndexError)
     | (doc, Some TypeError) => apply_operations doc (map (remove_op [key]) items)
     | (_, Some e) => Raised e
     end).
  simpl. by rewrite Hm.
Qed.

(** The first [remove] operation of a list comparison deletes the entry, and
    the following ones find nothing to delete. *)
Lemma apply_removes (items : list value) (m : gmap string value) (key : string) :
  is_Some (m !! key) → items ≠ [] →
  apply_operations (VDict m) (map (remove_op [key]) items) =
    Returned (VDict (delete key m)).
Proof.
  intros [v Hm] Hitems. destruct items as [|item items]; [done|].
  change (apply_operations (VDict m) (map (remove_op [key]) (item :: items))) with
    (match _remove_from_nested (VDict m) [key] with
     | (doc, None) | (doc, Some KeyError) | (doc, Some IndexError)
     | (doc, Some TypeError) => apply_operations doc (map (remove_op [key]) items)
     | (_, Some e) => Raised e
     end).
  simpl. rewrite Hm. apply apply_removes_absent. by rewrite lookup_delete_eq.
Qed.

Lemma compare_lists_patch (m : gmap string value) (key : string)
    (old_list new_list : list value) :
  m !! key = Some (VList old_list) →
  apply_operations (VDict m) (_compare_lists old_list new_list [key] []) =
    Returned (VDict (partial_alter (λ _, patched_list old_list new_list) key m)).
Proof.
  intros Hm. unfold _compare_lists, patched_list.
  destruct (forallb is_primitive old_list && forallb is_primitive new_list).
  - change (map (λ item, Build_DiffOperation "add" [key] VNone item (Qc_of_Z 1)))
      with (map (add_op [key])).
    change (map (λ item, Build_DiffOperation "remove" [key] item VNone (Qc_of_Z 1)))
      with (map (remove_op [key])).
    rewrite app_nil_l, apply_operations_app, (apply_adds _ _ _ _ Hm).
    destruct (List.filter (λ x, negb (py_in x new_list)) old_list) as [|gone rest] eqn:Hgone.
    + done.
    + rewrite apply_removes; [|by rewrite lookup_insert_eq|done].
      by rewrite delete_insert_eq.
  - destruct (py_eq _ _).
    + simpl. rewrite <- Hm. by rewrite partial_alter_self.
    + apply apply_update_at_key.
Qed.

(** Patching with the comparison of the values of one key leaves the patched
    value under that key, or removes the entry. *)
Lemma compare_values_patch_any (m : gmap string value) (key : string)
    (old_val new_val : value) :
  m !! key = Some old_val →
  (∀ od nd, old_val = VDict od →
      apply_operations (VDict od) (_compare_dicts od nd [] [])
        = Returned (VDict (patched_dict od nd))) →
  apply_operations (VDict m) (_compare_values old_val new_val [key] []) =
    Returned (VDict (partial_alter (λ _, patched old_val new_val) key m)).
Proof.
  intros Hm IH.
  destruct (decide (type_of old_val = type_of new_val)) as [Hty|Hty]; cycle 1.
  { rewrite compare_values_type_change, patched_type_change by done.
    apply apply_update_at_key. }
  destruct old_val as [| | | | |old_list|old_dict] eqn:Hold; rewrite <- Hold in *.
  1-5: assert (patched old_val new_val = Some new_val) as -> by (by subst);
       rewrite compare_values_scalars by (by subst; destruct new_val);
       rewrite bool_decide_eq_true_2 by done;
       destruct (py_eq old_val new_val) eqn:Heq;
       [ apply py_eq_same_type in Heq; [|by subst|done];
         simpl; subst new_val; rewrite <- Hm; by rewrite partial_alter_self
       | apply apply_update_at_key ].
  - destruct new_val as [| | | | |new_list|]; try (by subst). subst old_val.
    by apply compare_lists_patch.
  - destruct new_val as [| | | | | |new_dict]; try (by subst). subst old_val.
    pose proof (compare_values_prefix (VDict old_dict) (VDict new_dict) [key] [])
      as Hprefix.
    change ([key] ++ []) with [key] in Hprefix. rewrite Hprefix.
    rewrite compare_values_dicts.
    rewrite (apply_operations_under_key _ _ _ _ Hm (compare_dicts_paths _ _)).
    by rewrite (IH old_dict new_dict).
Qed.

Lemma dict_step_patch_any (old_dict new_dict m : gmap string value) (key : string) :
  key ∈ dom old_dict ∪ dom new_dict →
  m !! key = old_dict !! key →
  (∀ v od nd, old_dict !! key = Some v → v = VDict od →
      apply_operations (VDict od) (_compare_dicts od nd [] [])
        = Returned (VDict (patched_dict od nd))) →
  apply_operations (VDict m) (dict_step old_dict new_dict [] [] key) =
    Returned (VDict (partial_alter (λ _, patched_dict old_dict new_dict !! key) key m)).
Proof.
  intros Hkey Hm IH. rewrite patched_dict_lookup.
  unfold dict_step. change ([] ++ [key]) with [key].
  destruct (startswith key "_").
  { rewrite <- Hm. by rewrite partial_alter_self. }
  destruct (old_dict !! key) as [old_val|] eqn:Hold,
           (new_dict !! key) as [new_val|] eqn:Hnew.
  - rewrite (compare_values_patch_any m key old_val new_val); try done.
    intros od nd. by apply IH.
  - change (apply_operations (VDict m) ([] ++ [remove_op [key] old_val]))
      with (match _remove_from_nested (VDict m) [key] with
            | (doc, None) | (doc, Some KeyError) | (doc, Some IndexError)
            | (doc, Some TypeError) => Returned doc
            | (_, Some e) => Raised e
            end).
    simpl. by rewrite Hm.
  - change (apply_operations (VDict m) ([] ++ [add_op [key] (default VNone (Some new_val))]))
      with (match _add_to_nested (VDict m) [key] new_val with
            | (doc, None) | (doc, Some KeyError) | (doc, Some IndexError)
            | (doc, Some TypeError) => Returned doc
            | (_, Some e) => Raised e
            end).
    simpl. by rewrite Hm.
  - apply elem_of_union in Hkey as [[v Hv]%elem_of_dom|[v Hv]%elem_of_dom]; congruence.
Qed.

Lemma dict_steps_patch_any (old_dict new_dict : gmap string value) (keys : list string)
    (m : gmap string value) :
  NoDup keys →
  (∀ key, key ∈ keys → key ∈ dom old_dict ∪ dom new_dict ∧ m !! key = old_dict !! key) →
  (∀ key v od nd, old_dict !! key = Some v → v = VDict od →
      apply_operations (VDict od) (_compare_dicts od nd [] [])
        = Returned (VDict (patched_dict od nd))) →
  apply_operations (VDict m) (flat_map (dict_step old_dict new_dict [] []) keys) =
    Returned (VDict (foldl (λ m key,
                partial_alter (λ _, patched_dict old_dict new_dict !! key) key m)
              m keys)).
Proof.
  intros Hnd Hkeys IH. revert m Hkeys.
  induction keys as [|key keys IHkeys]; intros m Hkeys; [done|]. simpl.
  pose proof (NoDup_cons_1_1 _ _ Hnd) as Hfresh. apply NoDup_cons_1_2 in Hnd.
  destruct (Hkeys key) as [Hdom Hm]; [by left|].
  rewrite apply_operations_app.
  rewrite (dict_step_patch_any old_dict new_dict m key); try done; [|by apply IH].
  apply IHkeys; [done|]. intros key' Hkey'.
  destruct (Hkeys key') as [Hdom' Hm']; [by right|]. split; [done|].
  rewrite lookup_partial_alter_ne; [done|]. intros ->. done.
Qed.

Lemma compare_dicts_patch_any (old_val : value) :
  ∀ od nd, old_val = VDict od →
    apply_operations (VDict od) (_compare_dicts od nd [] [])
      = Returned (VDict (patched_dict od nd)).
Proof.
  induction old_val as [old_val IH] using value_dict_ind.
  intros od nd ->.
  rewrite compare_dicts_flat_map.
  rewrite (dict_steps_patch_any od nd _ od); try done.
  - do 2 f_equal. apply map_eq. intros j.
    rewrite lookup_foldl_partial_alter. case_decide as Hj; [done|].
    rewrite iter_set_perm, elem_of_elements in Hj.
    apply not_elem_of_union in Hj as [Hjo Hjn].
    apply not_elem_of_dom in Hjo, Hjn.
    rewrite patched_dict_lookup, Hjo, Hjn. by destruct (startswith j "_").
  - rewrite iter_set_perm. apply NoDup_elements.
  - intros key Hkey. split; [|done].
    by rewrite iter_set_perm, elem_of_elements in Hkey.
  - intros key v od' nd' Hv ->. by apply (IH od key (VDict od')).
Qed.

(** X1: for all documents [X] and [Y], lists included, applying the diff of
    [X] against [Y] to [X] returns (no exception escapes), and the result is
    determined entry by entry: an entry whose key starts with an underscore is
    that of [X]; an entry of [Y] alone is copied; an entry of [X] alone is
    deleted; an entry of both is patched recursively. *)
Theorem patch_of_diff_returns (X Y : gmap string value) :
  apply_diff (VDict X) (_compute_structured_diff X Y)
    = Returned (VDict (patched_dict X Y))
  ∧ ∀ key, patched_dict X Y !! key =
      if startswith key "_" then X !! key
      else match X !! key, Y !! key with
           | Some old_val, Some new_val => patched old_val new_val
           | Some _, None => None
           | None, new_val => new_val
           end.
Proof.
  split; [|apply patched_dict_lookup].
  unfold apply_diff. rewrite compute_structured_diff_root.
  by apply (compare_dicts_patch_any (VDict X)).
Qed.

(** X2: when a key that does not start with an underscore holds a list of
    scalars in both documents, patching [X] with its diff against [Y] keeps the
    old list and appends the new values, as long as no old value disappeared;
    when an old value is missing from the new list, the entry is deleted from
    the document altogether. *)
Theorem patch_of_diff_on_scalar_lists (X Y : gmap string value) (key : string)
    (old_list new_list : list value) (result : gmap string value) :
  X !! key = Some (VList old_list) →
  Y !! key = Some (VList new_list) →
  startswith key "_" = false →
  forallb is_primitive old_list = true →
  forallb is_primitive new_list = true →
  apply_diff (VDict X) (_compute_structured_diff X Y) = Returned (VDict result) →
  result !! key =
    match List.filter (λ x, negb (py_in x new_list)) old_list with
    | [] => Some (VList (old_list
                         ++ List.filter (λ x, negb (py_in x old_list)) new_list))
    | _ :: _ => None
    end.
Proof.
  intros HX HY Hkey Ho Hn Hres.
  unfold apply_diff in Hres. rewrite compute_structured_diff_root in Hres.
  rewrite (compare_dicts_patch_any (VDict X) X Y eq_refl) in Hres.
  injection Hres as <-.
  rewrite patched_dict_lookup, Hkey, HX, HY. simpl.
  unfold patched_list. by rewrite Ho, Hn.
Qed.

End patch_of_any_diff.

Lemma patch_of_diff_on_scalar_lists_witness :
  apply_diff (VDict {[ "key_points" := VList [VInt 1; VInt 2] ]})
    (@_compute_structured_diff example_runtime
       {[ "key_points" := VList [VInt 1; VInt 2] ]}
       {[ "key_points" := VList [VInt 2; VInt 3] ]})
    = Returned (VDict ∅)
  ∧ (∅ : gmap string value) !! "key_points" = None.
Proof.
  assert (Hres : apply_diff (VDict {[ "key_points" := VList [VInt 1; VInt 2] ]})
    (@_compute_structured_diff example_runtime
       {[ "key_points" := VList [VInt 1; VInt 2] ]}
       {[ "key_points" := VList [VInt 2; VInt 3] ]})
    = Returned (VDict ∅)) by reflexivity.
  split; [exact Hres|].
  exact (@patch_of_diff_on_scalar_lists example_runtime
    {[ "key_points" := VList [VInt 1; VInt 2] ]}
    {[ "key_points" := VList [VInt 2; VInt 3] ]} "key_points"
    [VInt 1; VInt 2] [VInt 2; VInt 3] ∅ eq_refl eq_refl eq_refl eq_refl eq_refl Hres).
Defined.

(** ** The diff of a document against itself *)
Section same_document.
Context `{!Runtime}.

Lemma weight_elem (l : list value) (v : value) :
  v ∈ l → weight v < weight (VList l).
Proof.
  simpl. induction 1 as [v l|v w l _ IH]; simpl; lia.
Qed.

(** Induction on objects through the values of mappings and the elements of
    lists. *)
Lemma value_children_ind (P : value → Prop) :
  (∀ v, (∀ d k v', v = VDict d → d !! k = Some v' → P v') →
        (∀ l v', v = VList l → v' ∈ l → P v') → P v) →
  ∀ v, P v.
Proof.
  intros Hstep v. remember (weight v) as n eqn:Hn. revert v Hn.
  induction (lt_wf n) as [n _ IH]. intros v ->.
  apply Hstep.
  - intros d k v' -> Hk. eapply IH; [|reflexivity]. by eapply weight_lookup.
  - intros l v' -> Hv'. eapply IH; [|reflexivity]. by apply weight_elem.
Qed.

Lemma py_eq_lists_cons (x y : value) (l m : list value) :
  py_eq (VList (x :: l)) (VList (y :: m)) = py_eq x y && py_eq (VList l) (VList m).
Proof. reflexivity. Qed.

Lemma py_eq_dicts_fold (e : gmap string value) (fs : gmap string (value → bool)) :
  (∀ k f, fs !! k = Some f → ∃ v, e !! k = Some v ∧ f v = true) →
  map_fold (λ k f acc, acc && match e !! k with
                              | Some v => f v
                              | None => false
                              end) true fs = true.
Proof.
  apply (map_fold_weak_ind
    (λ (r : bool) (m : gmap string (value → bool)),
       (∀ k f, m !! k = Some f → ∃ v, e !! k = Some v ∧ f v = true) → r = true)).
  - done.
  - intros i f m r Hi IH Hall.
    destruct (Hall i f) as (v & -> & ->); [by rewrite lookup_insert_eq|].
    rewrite IH; [done|]. intros k g Hk. apply Hall.
    rewrite lookup_insert_ne; [done|]. intros ->. congruence.
Qed.

(** Python's [==] holds between an object and itself. *)
Lemma py_eq_refl (v : value) : py_eq v v = true.
Proof.
  induction v as [v IHd IHl] using value_children_ind.
  destruct v as [| | | | |l|d]; try (simpl; by rewrite ?bool_decide_eq_true_2).
  - assert (∀ x, x ∈ l → py_eq x x = true) as Hall by (intros x; by apply (IHl l)).
    clear IHd IHl. induction l as [|x l IH]; [done|].
    rewrite py_eq_lists_cons, Hall by (by left).
    apply IH. intros y Hy. apply Hall. by right.
  - simpl. rewrite bool_decide_eq_true_2 by done. simpl.
    apply py_eq_dicts_fold. intros k f Hk.
    rewrite lookup_fmap in Hk. destruct (d !! k) as [v|] eqn:Hv; [|done].
    simpl in Hk. injection Hk as <-. exists v. split; [done|]. by apply (IHd d k).
Qed.

Lemma py_in_elem (x : value) (l : list value) : x ∈ l → py_in x l = true.
Proof.
  unfold py_in. induction 1 as [x l|x y l _ IH]; simpl.
  - by rewrite py_eq_refl.
  - rewrite IH. by destruct (py_eq x y).
Qed.

Lemma filter_none (f : value → bool) (l : list value) :
  (∀ x, x ∈ l → f x = false) → List.filter f l = [].
Proof.
  induction l as [|x l IH]; intros Hf; [done|]. simpl.
  rewrite Hf by (by left). apply IH. intros y Hy. apply Hf. by right.
Qed.

Lemma compare_lists_same (l : list value) path ops :
  _compare_lists l l path ops = ops.
Proof.
  unfold _compare_lists. destruct (forallb is_primitive l && forallb is_primitive l).
  - rewrite filter_none; [by rewrite app_nil_r|].
    intros x Hx. by rewrite py_in_elem.
  - by rewrite py_eq_refl.
Qed.

Lemma foldl_unchanged {A B} (f : A → B → A) (a : A) (l : list B) :
  (∀ b, b ∈ l → f a b = a) → foldl f a l = a.
Proof.
  induction l as [|b l IH]; intros Hf; [done|]. simpl.
  rewrite Hf by (by left). apply IH. intros b' Hb'. apply Hf. by right.
Qed.

Lemma compare_values_same (v : value) path ops :
  _compare_values v v path ops = ops.
Proof.
  revert path ops. induction v as [v IH] using value_dict_ind. intros path ops.
  destruct v as [| | | | |l|d];
    try (rewrite compare_values_scalars by done;
         by rewrite bool_decide_eq_true_2, py_eq_refl by done).
  - apply compare_lists_same.
  - rewrite compare_values_dicts, compare_dicts_fold.
    apply foldl_unchanged. intros key Hkey. unfold dict_step.
    destruct (startswith key "_"); [done|].
    rewrite iter_set_perm, elem_of_elements, union_idemp_L in Hkey.
    apply elem_of_dom in Hkey as [v Hv]. rewrite Hv.
    by apply (IH d key).
Qed.

Lemma compute_structured_diff_same (X : gmap string value) :
  _compute_structured_diff X X = [].
Proof.
  rewrite compute_structured_diff_root.
  apply (compare_values_same (VDict X) [] []).
Qed.

(** X3: the structured diff of a document against itself is empty, whatever
    the document holds (floats being numbers: no NaN), and so is the
    comparison of any object with itself below any path. *)
Theorem diff_of_same_document (X : gmap string value) :
  _compute_structured_diff X X = []
  ∧ ∀ (v : value) (path : list string) (ops : list DiffOperation),
      _compare_values v v path ops = ops.
Proof. split; [apply compute_structured_diff_same|apply compare_values_same]. Qed.

(** X4: when the new content equals the stored content of the target memory,
    [_perform_update] reports [skipped] and leaves the store as it was: no
    version is added and no history entry is written. *)
Theorem perform_update_same_content {image : Type} (world : Engine.Collaborators image)
    (store : Store.MemoryDatabase) (memory_id : string) (old_memory : Store.MemoryRecord) :
  Engine._perform_update world store memory_id old_memory
    (Store.structured_content old_memory)
  = (store, Returned {|
       Engine.status := "skipped";
       Engine.memory_id := memory_id;
       Engine.summary := None;
       Engine.changes_count := None;
       Engine.message := "No semantic changes detected." |}).
Proof.
  unfold Engine._perform_update, update_memory_incrementally.
  by rewrite compute_structured_diff_same.
Qed.

End same_document.

(** ** The operations that a diff emits *)
Section diff_operations.
Context `{!Runtime}.

Lemma compare_values_operations (old_val : value) :
  ∀ (new_val : value) (p : list string) (operation : DiffOperation),
    operation ∈ _compare_values old_val new_val p [] →
    (op operation = "add" ∨ op operation = "remove" ∨ op operation = "update")
    ∧ ∃ q, path operation = p ++ q ∧ Forall (λ key, startswith key "_" = false) q.
Proof.
  induction old_val as [old_val IH] using value_dict_ind.
  intros new_val p operation Hin.
  assert (∀ c, operation ∈ [update_op p old_val new_val c] →
    (op operation = "add" ∨ op operation = "remove" ∨ op operation = "update")
    ∧ ∃ q, path operation = p ++ q ∧ Forall (λ key, startswith key "_" = false) q)
    as Hupdate.
  { intros c ->%list_elem_of_singleton. split; [by auto|].
    exists []. by rewrite app_nil_r. }
  destruct (decide (type_of old_val = type_of new_val)) as [Hty|Hty]; cycle 1.
  { rewrite compare_values_type_change in Hin by done. by eapply Hupdate. }
  destruct old_val as [| | | | |old_list|old_dict] eqn:Hold; rewrite <- Hold in *.
  1-5: rewrite compare_values_scalars in Hin by (by subst; destruct new_val);
       rewrite bool_decide_eq_true_2 in Hin by done;
       destruct (py_eq old_val new_val);
       [by apply elem_of_nil in Hin | by eapply Hupdate].
  - destruct new_val as [| | | | |new_list|]; try (by subst). subst old_val.
    simpl in Hin. unfold _compare_lists in Hin.
    destruct (forallb is_primitive old_list && forallb is_primitive new_list).
    + simpl in Hin. apply elem_of_app in Hin as [Hin|Hin];
        apply list_elem_of_fmap in Hin as (item & -> & _);
        (split; [by auto|]); exists []; by rewrite app_nil_r.
    + destruct (py_eq _ _); [by apply elem_of_nil in Hin|]. by eapply Hupdate.
  - destruct new_val as [| | | | | |new_dict]; try (by subst). subst old_val.
    rewrite compare_values_dicts, compare_dicts_flat_map in Hin.
    apply list_elem_of_In, in_flat_map in Hin as (key & _ & Hin).
    apply list_elem_of_In in Hin. unfold dict_step in Hin.
    destruct (startswith key "_") eqn:Hkey; [by apply elem_of_nil in Hin|].
    destruct (old_dict !! key) as [old_val|] eqn:Hov,
             (new_dict !! key) as [new_val|] eqn:Hnv.
    + destruct (IH old_dict key old_val eq_refl Hov new_val (p ++ [key]) operation Hin)
        as [Hkind (q & Hq & Hpublic)].
      split; [done|]. exists (key :: q). split.
      * by rewrite Hq, <- app_assoc.
      * by constructor.
    + apply list_elem_of_singleton in Hin as ->. split; [by auto|].
      exists [key]. split; [done|]. by repeat constructor.
    + apply list_elem_of_singleton in Hin as ->. split; [by auto|].
      exists [key]. split; [done|]. by repeat constructor.
    + apply list_elem_of_singleton in Hin as ->. split; [by auto|].
      exists [key]. split; [done|]. by repeat constructor.
Qed.

(** X5: every operation of a structured diff is an [add], a [remove] or an
    [update]; its path starts with a key of one of the two documents, and no
    segment of its path starts with an underscore. *)
Theorem diff_operations_are_addressed (X Y : gmap string value)
    (operation : DiffOperation) :
  operation ∈ _compute_structured_diff X Y →
  (op operation = "add" ∨ op operation = "remove" ∨ op operation = "update")
  ∧ (∃ key rest, path operation = key :: rest ∧ key ∈ dom X ∪ dom Y)
  ∧ Forall (λ key, startswith key "_" = false) (path operation).
Proof.
  intros Hin.
  rewrite compute_structured_diff_root in Hin.
  pose proof (compare_values_operations (VDict X) (VDict Y) [] operation Hin)
    as [Hkind (q & Hq & Hpublic)].
  simpl in Hq. subst q. split_and!; [done| |done].
  rewrite compare_dicts_flat_map in Hin.
  apply list_elem_of_In, in_flat_map in Hin as (key & Hkey & Hin).
  apply list_elem_of_In in Hin, Hkey.
  rewrite iter_set_perm, elem_of_elements in Hkey.
  unfold dict_step in Hin. destruct (startswith key "_"); [by apply elem_of_nil in Hin|].
  destruct (X !! key) as [old_val|], (Y !! key) as [new_val|];
    try (apply list_elem_of_singleton in Hin as ->; by exists key, []).
  apply compare_values_operations in Hin as [_ (q & Hq & _)].
  exists key, q. by rewrite Hq.
Qed.

End diff_operations.

Lemma diff_operations_are_addressed_witness :
  add_op ["layout"; "depth"] (VInt 3)
    ∈ @_compute_structured_diff example_runtime
        {[ "layout" := VDict {[ "width" := VInt 10 ]}; "_rev" := VInt 1 ]}
        {[ "layout" := VDict {[ "width" := VInt 10; "depth" := VInt 3 ]};
           "_rev" := VInt 2 ]}
  ∧ Forall (λ key, startswith key "_" = false) ["layout"; "depth"].
Proof.
  assert (Hin : add_op ["layout"; "depth"] (VInt 3)
    ∈ @_compute_structured_diff example_runtime
        {[ "layout" := VDict {[ "width" := VInt 10 ]}; "_rev" := VInt 1 ]}
        {[ "layout" := VDict {[ "width" := VInt 10; "depth" := VInt 3 ]};
           "_rev" := VInt 2 ]}).
  { vm_compute. left. }
  split; [exact Hin|].
  exact (proj2 (proj2 (@diff_operations_are_addressed example_runtime _ _ _ Hin))).
Defined.

(** ** What a patch leaves alone, and what an update stores *)
Section patch_frame.

Lemma update_nested_frame (path : list string) (d : gmap string value) (v : value) :
  ∃ d', (_update_nested (VDict d) path v).1 = VDict d'
        ∧ ∀ j, head path ≠ Some j → d' !! j = d !! j.
Proof.
  destruct path as [|key [|key1 rest]].
  - by exists d.
  - exists (<[key := v]> d). split; [done|]. intros j Hj.
    rewrite lookup_insert_ne; [done|]. intros ->. done.
  - change (_update_nested (VDict d) (key :: key1 :: rest) v) with
      (let d' := match d !! key with
                 | None => <[key := VDict ∅]> d
                 | Some _ => d
                 end in
       let '(sub', raised) :=
         _update_nested (default (VDict ∅) (d' !! key)) (key1 :: rest) v in
       (VDict (<[key := sub']> d'), raised)).
    cbv zeta. destruct (_update_nested _ (key1 :: rest) v) as [sub' raised].
    eexists. split; [done|]. intros j Hj.
    assert (key ≠ j) by (intros ->; done).
    rewrite lookup_insert_ne by done.
    destruct (d !! key); [done|]. by rewrite lookup_insert_ne.
Qed.

Lemma add_to_nested_frame (path : list string) (d : gmap string value) (v : value) :
  ∃ d', (_add_to_nested (VDict d) path v).1 = VDict d'
        ∧ ∀ j, head path ≠ Some j → d' !! j = d !! j.
Proof.
  destruct path as [|key [|key1 rest]].
  - by exists d.
  - simpl. assert (∀ x j, Some key ≠ Some j → <[key := x]> d !! j = d !! j) as Hne.
    { intros x j Hj. rewrite lookup_insert_ne; [done|]. intros ->. done. }
    destruct (d !! key) as [[]|]; eexists; (split; [done|]); intros j Hj; by apply Hne.
  - change (_add_to_nested (VDict d) (key :: key1 :: rest) v) with
      (let d' := match d !! key with
                 | None => <[key := VDict ∅]> d
                 | Some _ => d
                 end in
       let '(sub', raised) :=
         _add_to_nested (default (VDict ∅) (d' !! key)) (key1 :: rest) v in
       (VDict (<[key := sub']> d'), raised)).
    cbv zeta. destruct (_add_to_nested _ (key1 :: rest) v) as [sub' raised].
    eexists. split; [done|]. intros j Hj.
    assert (key ≠ j) by (intros ->; done).
    rewrite lookup_insert_ne by done.
    destruct (d !! key); [done|]. by rewrite lookup_insert_ne.
Qed.

Lemma remove_from_nested_frame (path : list string) (d : gmap string value) :
  ∃ d', (_remove_from_nested (VDict d) path).1 = VDict d'
        ∧ ∀ j, head path ≠ Some j → d' !! j = d !! j.
Proof.
  destruct path as [|key [|key1 rest]].
  - by exists d.
  - simpl. destruct (d !! key); eexists; (split; [done|]); intros j Hj; [|done].
    rewrite lookup_delete_ne; [done|]. intros ->. done.
  - change (_remove_from_nested (VDict d) (key :: key1 :: rest)) with
      (match d !! key with
       | None => (VDict d, None)
       | Some sub =>
           let '(sub', raised) := _remove_from_nested sub (key1 :: rest) in
           (VDict (<[key := sub']> d), raised)
       end).
    destruct (d !! key) as [sub|]; [|by exists d].
    destruct (_remove_from_nested sub (key1 :: rest)) as [sub' raised].
    eexists. split; [done|]. intros j Hj.
    rewrite lookup_insert_ne; [done|]. intros ->. done.
Qed.

Lemma apply_operation_frame (d : gmap string value) (operation : DiffOperation) :
  ∃ d', (apply_operation (VDict d) operation).1 = VDict d'
        ∧ ∀ j, head (path operation) ≠ Some j → d' !! j = d !! j.
Proof.
  unfold apply_operation. repeat case_bool_decide.
  - apply update_nested_frame.
  - apply add_to_nested_frame.
  - apply remove_from_nested_frame.
  - by exists d.
Qed.

(** X6: patching a mapping yields a mapping, and every top-level entry with
    which no operation's path starts is left as it was. *)
Theorem apply_diff_frame (ops : list DiffOperation) (d : gmap string value)
    (doc : value) :
  apply_diff (VDict d) ops = Returned doc →
  ∃ d', doc = VDict d'
        ∧ ∀ j, Forall (λ operation, head (path operation) ≠ Some j) ops →
               d' !! j = d !! j.
Proof.
  unfold apply_diff. revert d. induction ops as [|operation ops IH]; intros d Hret.
  - simpl in Hret. injection Hret as <-. by exists d.
  - simpl in Hret.
    destruct (apply_operation_frame d operation) as (d1 & Hd1 & Hframe).
    destruct (apply_operation (VDict d) operation) as [doc1 raised].
    simpl in Hd1. subst doc1.
    assert (apply_operations (VDict d1) ops = Returned doc) as Hrest
      by (by destruct raised as [[]|]).
    destruct (IH d1 Hrest) as (d' & -> & Hframe').
    exists d'. split; [done|]. intros j Hall.
    apply Forall_cons_1 in Hall as [Hhead Hall].
    rewrite Hframe' by done. by apply Hframe.
Qed.

(** X7: an update along a path that leads through mappings (missing levels are
    created as mappings) raises nothing, the value is then found at the path,
    and a second update at the same path replaces the first. *)
Theorem update_then_lookup (path : list string) (doc v : value) :
  passable doc path →
  (_update_nested doc path v).2 = None
  ∧ value_at (_update_nested doc path v).1 path = Some v
  ∧ ∀ w, (_update_nested (_update_nested doc path w).1 path v).1
         = (_update_nested doc path v).1.
Proof.
  revert doc. induction path as [|key rest IH]; intros doc Hpass; [done|].
  destruct doc as [| | | | | |d]; try done.
  destruct rest as [|key1 rest].
  - simpl. rewrite lookup_insert_eq. split_and!; try done.
    intros w. by rewrite insert_insert_eq.
  - change (passable (VDict d) (key :: key1 :: rest)) with
      (match d !! key with
       | Some sub => passable sub (key1 :: rest)
       | None => True
       end) in Hpass.
    assert (passable (VDict ∅) (key1 :: rest)) as Hempty.
    { simpl. destruct rest; [done|]. by rewrite lookup_empty. }
    assert (∀ (d : gmap string value) sub x,
      d !! key = Some sub →
      _update_nested (VDict d) (key :: key1 :: rest) x =
        (VDict (<[key := (_update_nested sub (key1 :: rest) x).1]> d),
         (_update_nested sub (key1 :: rest) x).2)) as Hbelow
      by (intros; by apply update_nested_below).
    assert (∀ (d : gmap string value) x,
      d !! key = None →
      _update_nested (VDict d) (key :: key1 :: rest) x =
        (VDict (<[key := (_update_nested (VDict ∅) (key1 :: rest) x).1]> d),
         (_update_nested (VDict ∅) (key1 :: rest) x).2)) as Hmissing.
    { intros d0 x Hnone.
      change (_update_nested (VDict d0) (key :: key1 :: rest) x) with
        (let d' := match d0 !! key with
                   | None => <[key := VDict ∅]> d0
                   | Some _ => d0
                   end in
         let '(sub', raised) :=
           _update_nested (default (VDict ∅) (d' !! key)) (key1 :: rest) x in
         (VDict (<[key := sub']> d'), raised)).
      rewrite Hnone. cbv zeta. rewrite lookup_insert_eq. cbn [default from_option id].
      destruct (_update_nested (VDict ∅) (key1 :: rest) x) as [sub' raised].
      cbn [fst snd]. by rewrite insert_insert_eq. }
    destruct (d !! key) as [sub|] eqn:Hsub.
    + destruct (IH sub Hpass) as (Hnone & Hat & Hlast).
      rewrite (Hbelow d sub v Hsub). split_and!.
      * done.
      * cbn [fst value_at]. rewrite lookup_insert_eq. exact Hat.
      * intros w. rewrite (Hbelow d sub w Hsub). cbn [fst].
        rewrite (Hbelow _ _ v (lookup_insert_eq d key _)). cbn [fst].
        by rewrite insert_insert_eq, Hlast.
    + destruct (IH (VDict ∅) Hempty) as (Hnone & Hat & Hlast).
      rewrite (Hmissing d v Hsub). split_and!.
      * done.
      * cbn [fst value_at]. rewrite lookup_insert_eq. exact Hat.
      * intros w. rewrite (Hmissing d w Hsub). cbn [fst].
        rewrite (Hbelow _ _ v (lookup_insert_eq d key _)). cbn [fst].
        rewrite insert_insert_eq.
        f_equal. f_equal.
        destruct (IH (VDict ∅) Hempty) as (_ & _ & Hlast'). apply Hlast'.
Qed.

End patch_frame.

Lemma apply_diff_frame_witness :
  apply_diff (VDict {[ "a" := VInt 1; "b" := VInt 2 ]})
    [update_op ["a"; "x"] VNone (VInt 0) (Qc_of_Z 1); add_op ["c"] (VInt 3)]
    = Returned (VDict {[ "a" := VInt 1; "b" := VInt 2; "c" := VInt 3 ]})
  ∧ ∃ d' : gmap string value,
      VDict {[ "a" := VInt 1; "b" := VInt 2; "c" := VInt 3 ]} = VDict d'
      ∧ ∀ j, Forall (λ operation, head (path operation) ≠ Some j)
               [update_op ["a"; "x"] VNone (VInt 0) (Qc_of_Z 1); add_op ["c"] (VInt 3)] →
             d' !! j = ({[ "a" := VInt 1; "b" := VInt 2 ]} : gmap string value) !! j.
Proof.
  assert (Hret : apply_diff (VDict {[ "a" := VInt 1; "b" := VInt 2 ]})
    [update_op ["a"; "x"] VNone (VInt 0) (Qc_of_Z 1); add_op ["c"] (VInt 3)]
    = Returned (VDict {[ "a" := VInt 1; "b" := VInt 2; "c" := VInt 3 ]}))
    by reflexivity.
  split; [exact Hret|].
  exact (apply_diff_frame _ _ _ Hret).
Defined.

Lemma update_then_lookup_witness :
  passable (VDict {[ "layout" := VDict ∅ ]}) ["layout"; "size"; "width"]
  ∧ value_at (_update_nested (VDict {[ "layout" := VDict ∅ ]})
                ["layout"; "size"; "width"] (VInt 10)).1
      ["layout"; "size"; "width"] = Some (VInt 10).
Proof.
  assert (Hpass : passable (VDict {[ "layout" := VDict ∅ ]}) ["layout"; "size"; "width"])
    by (vm_compute; exact I).
  split; [exact Hpass|].
  exact (proj1 (proj2 (update_then_lookup ["layout"; "size"; "width"]
                         (VDict {[ "layout" := VDict ∅ ]}) (VInt 10) Hpass))).
Defined.

(** ** The distance between perceptual hashes *)
Section hamming.

Lemma mismatches_bounds (s t : string) :
  (0 ≤ Store.mismatches s t ≤ Z.of_nat (String.length s))%Z.
Proof.
  revert t. induction s as [|c s IH]; intros t; [done|].
  destruct t as [|c' t]; simpl; [lia|].
  specialize (IH t). case_bool_decide; lia.
Qed.

Lemma mismatches_sym (s t : string) : Store.mismatches s t = Store.mismatches t s.
Proof.
  revert t. induction s as [|c s IH]; intros [|c' t]; simpl; try done.
  rewrite (IH t). repeat case_bool_decide; congruence.
Qed.

Lemma mismatches_zero (s t : string) :
  String.length s = String.length t → Store.mismatches s t = 0%Z → s = t.
Proof.
  revert t. induction s as [|c s IH]; intros [|c' t] Hlen Hzero; simpl in *; try done.
  pose proof (mismatches_bounds s t).
  case_bool_decide; [|lia]. subst c'. f_equal. apply IH; lia.
Qed.

Lemma mismatches_same (s : string) : Store.mismatches s s = 0%Z.
Proof. induction s as [|c s IH]; simpl; [done|]. rewrite IH. by rewrite bool_decide_eq_true_2. Qed.

Lemma mismatches_triangle (s t u : string) :
  String.length s = String.length t → String.length t = String.length u →
  (Store.mismatches s u ≤ Store.mismatches s t + Store.mismatches t u)%Z.
Proof.
  revert t u. induction s as [|c s IH]; intros [|c' t] [|c'' u] Hst Htu;
    simpl in *; try done.
  assert (String.length s = String.length t) as Hst' by lia.
  assert (String.length t = String.length u) as Htu' by lia.
  specialize (IH t u Hst' Htu').
  repeat case_bool_decide; try lia. congruence.
Qed.

(** X8: the distance used by the nearest-match search is symmetric, is zero
    exactly for equal strings, lies between 0 and the common length for
    strings of equal length, and is the constant 1000 for strings of
    different lengths. *)
Theorem hamming_distance_properties (s t : string) :
  Store.hamming_distance s t = Store.hamming_distance t s
  ∧ (Store.hamming_distance s t = 0%Z ↔ s = t)
  ∧ (String.length s = String.length t →
     (0 ≤ Store.hamming_distance s t ≤ Z.of_nat (String.length s))%Z)
  ∧ (String.length s ≠ String.length t → Store.hamming_distance s t = 1000%Z).
Proof.
  unfold Store.hamming_distance. split_and!.
  - destruct (decide (String.length s = String.length t)) as [Hlen|Hlen].
    + rewrite !bool_decide_eq_true_2 by done. apply mismatches_sym.
    + by rewrite !bool_decide_eq_false_2 by congruence.
  - split.
    + case_bool_decide; [by apply mismatches_zero|done].
    + intros ->. rewrite bool_decide_eq_true_2 by done. apply mismatches_same.
  - intros Hlen. rewrite bool_decide_eq_true_2 by done. apply mismatches_bounds.
  - intros Hlen. by rewrite bool_decide_eq_false_2.
Qed.

(** X9: on strings of one length the distance obeys the triangle
    inequality. *)
Theorem hamming_distance_triangle (s t u : string) :
  String.length s = String.length t → String.length t = String.length u →
  (Store.hamming_distance s u
   ≤ Store.hamming_distance s t + Store.hamming_distance t u)%Z.
Proof.
  intros Hst Htu. unfold Store.hamming_distance.
  rewrite !bool_decide_eq_true_2 by congruence. by apply mismatches_triangle.
Qed.

End hamming.

Lemma hamming_distance_triangle_witness :
  String.length "ab12" = String.length "ab00"
  ∧ String.length "ab00" = String.length "ff00"
  ∧ (Store.hamming_distance "ab12" "ff00"
     ≤ Store.hamming_distance "ab12" "ab00" + Store.hamming_distance "ab00" "ff00")%Z.
Proof.
  split_and!; [reflexivity | reflexivity |].
  exact (hamming_distance_triangle "ab12" "ab00" "ff00" eq_refl eq_refl).
Defined.

(** ** The store: insertion, update and lookup *)
Section store_operations.
Implicit Types (db : Store.MemoryDatabase) (row : Store.MemoryRecord).

Lemma find_app_new {A} (f : A → bool) (l : list A) (x : A) :
  (∀ y, y ∈ l → f y = false) → f x = true → List.find f (l ++ [x]) = Some x.
Proof.
  induction l as [|y l IH]; intros Hl Hx; simpl.
  - by rewrite Hx.
  - rewrite Hl by (by left). apply IH; [|done]. intros z Hz. apply Hl. by right.
Qed.

Lemma find_app_old {A} (f : A → bool) (l : list A) (x : A) :
  f x = false → List.find f (l ++ [x]) = List.find f l.
Proof.
  intros Hx. induction l as [|y l IH]; simpl; [by rewrite Hx|].
  by destruct (f y).
Qed.

Lemma add_memory_accepts db now memory_id content content_fp perceptual_fp metadata :
  (∀ row, row ∈ Store.memories db →
      Store.id row ≠ memory_id
      ∧ (is_Some content_fp → Store.content_hash row ≠ content_fp)) →
  Store.add_memory db now memory_id content content_fp perceptual_fp metadata =
    ({| Store.is_remote := Store.is_remote db;
        Store.memories := Store.memories db ++
          [{| Store.id := memory_id; Store.content_hash := content_fp;
              Store.perceptual_hash := perceptual_fp;
              Store.structured_content := content;
              Store.summary := default (VStr EmptyString) (content !! "full_summary");
              Store.version := 1; Store.created_at := now; Store.updated_at := now;
              Store.metadata := metadata |}];
        Store.memory_versions := Store.memory_versions db |}, None).
Proof.
  intros Hfree. unfold Store.add_memory.
  assert (existsb (λ row, bool_decide (Store.id row = memory_id) ||
                     bool_decide (is_Some content_fp ∧ Store.content_hash row = content_fp))
            (Store.memories db) = false) as ->; [|done].
  apply not_true_is_false. intros Hex.
  apply existsb_exists in Hex as (row & Hrow & Htaken).
  apply list_elem_of_In in Hrow. destruct (Hfree row Hrow) as [Hid Hhash].
  apply orb_true_iff in Htaken as [Ht|Ht]; apply bool_decide_eq_true in Ht.
  - done.
  - destruct Ht as [Hsome Heq]. by apply Hhash.
Qed.

(** X10: adding a memory whose summary is a string (or absent) and whose id
    and content hash are not in the store succeeds; [get_memory] then returns
    under the new id a record of version 1 with the id, the hashes, the
    content and the summary ([''] when absent), and (on the local connection)
    [find_by_content_hash] returns under the new hash a record with that id,
    content and summary; the lookups of the other ids and the version history
    are as before. *)
Theorem add_memory_then_lookup db now memory_id content hash perceptual metadata :
  summary_is_text content →
  (∀ row, row ∈ Store.memories db →
      Store.id row ≠ memory_id ∧ Store.content_hash row ≠ Some hash) →
  let result :=
    Store.add_memory db now memory_id content (Some hash) (Some perceptual) metadata in
  let summary := default (VStr EmptyString) (content !! "full_summary") in
  result.2 = None
  ∧ (∃ row, Store.get_memory result.1 memory_id = Some row
            ∧ Store.id row = memory_id
            ∧ Store.content_hash row = Some hash
            ∧ Store.perceptual_hash row = Some perceptual
            ∧ Store.structured_content row = content
            ∧ Store.summary row = summary
            ∧ Store.version row = 1%Z)
  ∧ (Store.is_remote db = false →
     ∃ found, Store.find_by_content_hash result.1 hash = Returned (Some found)
              ∧ Store.id found = memory_id
              ∧ Store.structured_content found = content
              ∧ Store.summary found = summary)
  ∧ (∀ other, other ≠ memory_id →
     Store.get_memory result.1 other = Store.get_memory db other)
  ∧ Store.memory_versions result.1 = Store.memory_versions db.
Proof.
  intros _ Hfree result summary. subst result summary.
  rewrite add_memory_accepts; cycle 1.
  { intros r Hr. destruct (Hfree r Hr). split; [done|]. by intros _. }
  cbn [fst snd]. split_and!.
  - done.
  - eexists. split.
    { unfold Store.get_memory. cbn [Store.memories].
      apply find_app_new; [|by apply bool_decide_eq_true_2].
      intros r Hr. apply bool_decide_eq_false_2. by destruct (Hfree r Hr). }
    done.
  - intros Hlocal. eexists. split.
    { unfold Store.find_by_content_hash. cbn [Store.memories Store.is_remote].
      rewrite find_app_new; [by rewrite Hlocal| |by apply bool_decide_eq_true_2].
      intros r Hr. apply bool_decide_eq_false_2. by destruct (Hfree r Hr). }
    done.
  - intros other Hother. unfold Store.get_memory. cbn [Store.memories].
    apply find_app_old. apply bool_decide_eq_false_2. simpl. congruence.
  - done.
Qed.

(** X11: adding a memory (with a summary that is a string or absent) whose
    id, or whose content hash, is already in the store raises the error of the
    violated constraint, [sqlite3.IntegrityError] on the local connection and
    [ValueError] on the libsql connection, and changes nothing. *)
Theorem add_memory_conflict db now memory_id content hash perceptual metadata
    (row : Store.MemoryRecord) :
  summary_is_text content →
  row ∈ Store.memories db →
  Store.id row = memory_id ∨ Store.content_hash row = Some hash →
  Store.add_memory db now memory_id content (Some hash) (Some perceptual) metadata
    = (db, Some (if Store.is_remote db then ValueError else IntegrityError)).
Proof.
  intros _ Hrow Htaken. unfold Store.add_memory, Store.constraint_error.
  assert (existsb (λ row, bool_decide (Store.id row = memory_id) ||
                     bool_decide (is_Some (Some hash) ∧ Store.content_hash row = Some hash))
            (Store.memories db) = true) as ->; [|done].
  apply existsb_exists. exists row. split; [by apply list_elem_of_In|].
  apply orb_true_iff. destruct Htaken as [Hid|Hhash].
  - left. by apply bool_decide_eq_true_2.
  - right. apply bool_decide_eq_true_2. by split.
Qed.

Lemma find_fmap_update (rows : list Store.MemoryRecord) (memory_id other : string)
    (f : Store.MemoryRecord → Store.MemoryRecord) :
  (∀ row, Store.id (f row) = Store.id row) →
  List.find (λ row, bool_decide (Store.id row = other))
    ((λ row, if bool_decide (Store.id row = memory_id) then f row else row) <$> rows)
  = (λ row, if bool_decide (Store.id row = memory_id) then f row else row)
      <$> List.find (λ row, bool_decide (Store.id row = other)) rows.
Proof.
  intros Hid. induction rows as [|row rows IH]; [done|]. simpl.
  assert (Store.id (if bool_decide (Store.id row = memory_id) then f row else row)
          = Store.id row) as -> by (case_bool_decide; [apply Hid|done]).
  by destruct (bool_decide (Store.id row = other)).
Qed.

(** The record that [update_memory] writes in the place of [row]. *)
Lemma update_memory_known db now memory_id new_content changes version_inc row :
  Store.get_memory db memory_id = Some row →
  let updated_row :=
    {| Store.id := Store.id row; Store.content_hash := Store.content_hash row;
       Store.perceptual_hash := Store.perceptual_hash row;
       Store.structured_content := new_content;
       Store.summary := default (VStr EmptyString) (new_content !! "full_summary");
       Store.version := Store.version row + version_inc;
       Store.created_at := Store.created_at row; Store.updated_at := now;
       Store.metadata := Store.metadata row |} in
  let result := Store.update_memory db now memory_id new_content changes version_inc in
  result.2 = None
  ∧ Store.get_memory result.1 memory_id = Some updated_row
  ∧ (∀ other, other ≠ memory_id →
     Store.get_memory result.1 other = Store.get_memory db other)
  ∧ Store.memory_versions result.1 =
      Store.memory_versions db ++
      [{| Store.memory_id := memory_id;
          Store.entry_version := Store.version row + version_inc;
          Store.diff_content := changes; Store.entry_created_at := now |}]
  ∧ Store.id <$> Store.memories result.1 = Store.id <$> Store.memories db
  ∧ Store.content_hash <$> Store.memories result.1
      = Store.content_hash <$> Store.memories db
  ∧ Store.perceptual_hash <$> Store.memories result.1
      = Store.perceptual_hash <$> Store.memories db
  ∧ Store.is_remote result.1 = Store.is_remote db.
Proof.
  intros Hget updated_row result. subst result updated_row.
  unfold Store.update_memory.
  set (update_row := λ row : Store.MemoryRecord,
         if bool_decide (Store.id row = memory_id)
         then {| Store.id := Store.id row; Store.content_hash := Store.content_hash row;
                 Store.perceptual_hash := Store.perceptual_hash row;
                 Store.structured_content := new_content;
                 Store.summary := default (VStr EmptyString) (new_content !! "full_summary");
                 Store.version := Store.version row + version_inc;
                 Store.created_at := Store.created_at row; Store.updated_at := now;
                 Store.metadata := Store.metadata row |}
         else row).
  assert (∀ other,
    List.find (λ row, bool_decide (Store.id row = other)) (update_row <$> Store.memories db)
    = update_row <$> Store.get_memory db other) as Hfind.
  { intros other. unfold update_row, Store.get_memory.
    by rewrite (find_fmap_update _ memory_id other
      (λ row, {| Store.id := Store.id row; Store.content_hash := Store.content_hash row;
                 Store.perceptual_hash := Store.perceptual_hash row;
                 Store.structured_content := new_content;
                 Store.summary := default (VStr EmptyString) (new_content !! "full_summary");
                 Store.version := Store.version row + version_inc;
                 Store.created_at := Store.created_at row; Store.updated_at := now;
                 Store.metadata := Store.metadata row |})). }
  destruct (get_memory_id db memory_id row Hget) as [Hid _].
  rewrite Hfind, Hget. cbn [fmap option_fmap option_map fst snd].
  assert (update_row row =
    {| Store.id := Store.id row; Store.content_hash := Store.content_hash row;
       Store.perceptual_hash := Store.perceptual_hash row;
       Store.structured_content := new_content;
       Store.summary := default (VStr EmptyString) (new_content !! "full_summary");
       Store.version := Store.version row + version_inc;
       Store.created_at := Store.created_at row; Store.updated_at := now;
       Store.metadata := Store.metadata row |}) as Hrow.
  { unfold update_row. by rewrite bool_decide_eq_true_2. }
  rewrite Hrow. cbn [Store.version Store.memories Store.memory_versions Store.is_remote].
  assert (∀ {B} (g : Store.MemoryRecord → B),
    (∀ r, g (update_row r) = g r) →
    g <$> (update_row <$> Store.memories db) = g <$> Store.memories db) as Hproj.
  { intros B g Hg. rewrite <- list_fmap_compose. apply list_fmap_ext.
    intros _ r _. apply Hg. }
  split_and!; try done.
  - unfold Store.get_memory. cbn [Store.memories]. by rewrite Hfind, Hget, <- Hrow.
  - intros other Hother. unfold Store.get_memory at 1. cbn [Store.memories].
    rewrite Hfind. destruct (Store.get_memory db other) as [r|] eqn:Hother'; [|done].
    destruct (get_memory_id db other r Hother') as [Hido _]. simpl.
    unfold update_row. rewrite bool_decide_eq_false_2; [done|congruence].
  - apply Hproj. intros r. unfold update_row. by case_bool_decide.
  - apply Hproj. intros r. unfold update_row. by case_bool_decide.
  - apply Hproj. intros r. unfold update_row. by case_bool_decide.
Qed.

(** X12: on the local connection, updating a stored memory with a content
    whose summary is a string (or absent), by an increment that keeps the
    version within SQLite's integers, succeeds: it replaces the content, adds the increment to the
    version and appends one history entry that carries the id, the new
    version and the changes; the ids, the hashes, and every other record are
    as before. *)
Theorem update_memory_then_lookup db now memory_id new_content changes version_inc row :
  Store.is_remote db = false →
  summary_is_text new_content →
  fits_int64 version_inc →
  Store.get_memory db memory_id = Some row →
  fits_int64 (Store.version row + version_inc) →
  let result := Store.update_memory db now memory_id new_content changes version_inc in
  result.2 = None
  ∧ (∃ updated_row,
       Store.get_memory result.1 memory_id = Some updated_row
       ∧ Store.structured_content updated_row = new_content
       ∧ Store.summary updated_row
           = default (VStr EmptyString) (new_content !! "full_summary")
       ∧ Store.version updated_row = (Store.version row + version_inc)%Z
       ∧ Store.content_hash updated_row = Store.content_hash row
       ∧ Store.perceptual_hash updated_row = Store.perceptual_hash row)
  ∧ (∀ other, other ≠ memory_id →
     Store.get_memory result.1 other = Store.get_memory db other)
  ∧ (∃ entry,
       Store.memory_versions result.1 = Store.memory_versions db ++ [entry]
       ∧ Store.memory_id entry = memory_id
       ∧ Store.entry_version entry = (Store.version row + version_inc)%Z
       ∧ Store.diff_content entry = changes)
  ∧ Store.id <$> Store.memories result.1 = Store.id <$> Store.memories db.
Proof.
  intros _ _ _ Hget _ result. subst result.
  destruct (update_memory_known db now memory_id new_content changes version_inc row Hget)
    as (H1 & H2 & H3 & H4 & H5 & _).
  split_and!; try done.
  - eexists. split; [exact H2|]. done.
  - eexists. split; [exact H4|]. done.
Qed.

Lemma update_memory_absent db now memory_id new_content changes version_inc :
  Store.get_memory db memory_id = None →
  Store.update_memory db now memory_id new_content changes version_inc
    = (db, Some TypeError).
Proof.
  intros Hget. unfold Store.update_memory.
  match goal with
  | |- context [List.find ?f (?g <$> Store.memories db)] =>
      assert (List.find f (g <$> Store.memories db) = None) as ->; [|done]
  end.
  unfold Store.get_memory in Hget.
  induction (Store.memories db) as [|r rows IH]; [done|]. simpl in *.
  destruct (bool_decide (Store.id r = memory_id)) eqn:Hid; [done|].
  simpl. rewrite Hid. by apply IH.
Qed.

(** X13: on the local connection, updating an id that is not in the store
    (with a summary that is a string or absent and an increment within
    SQLite's integers) raises
    [TypeError]: no row is updated, the version row that is read back is
    missing and indexing it fails; the store is left as it was, without a
    history entry. *)
Theorem update_memory_unknown db now memory_id new_content changes version_inc :
  Store.is_remote db = false →
  summary_is_text new_content →
  fits_int64 version_inc →
  Store.get_memory db memory_id = None →
  Store.update_memory db now memory_id new_content changes version_inc
    = (db, Some TypeError).
Proof. intros _ _ _. apply update_memory_absent. Qed.

End store_operations.

(** ** The constraints of the store *)
Section store_constraints.
Implicit Types (db : Store.MemoryDatabase) (row : Store.MemoryRecord).

Lemma omap_of_fmap {A B} (f : A → option B) (l1 l2 : list A) :
  f <$> l1 = f <$> l2 → omap f l1 = omap f l2.
Proof.
  revert l2. induction l1 as [|x l1 IH]; intros [|y l2] Heq; try done.
  rewrite !fmap_cons in Heq. injection Heq as Hxy Heq.
  specialize (IH l2 Heq).
  change (omap f (x :: l1)) with
    (match f x with Some b => b :: omap f l1 | None => omap f l1 end).
  change (omap f (y :: l2)) with
    (match f y with Some b => b :: omap f l2 | None => omap f l2 end).
  by rewrite Hxy, IH.
Qed.

Lemma add_memory_constraints db now memory_id content content_fp perceptual_fp metadata :
  constraints_hold db →
  constraints_hold
    (Store.add_memory db now memory_id content content_fp perceptual_fp metadata).1.
Proof.
  intros [Hids Hhashes]. unfold Store.add_memory.
  destruct (existsb _ (Store.memories db)) eqn:Htaken; [done|].
  assert (∀ row, row ∈ Store.memories db →
            Store.id row ≠ memory_id
            ∧ ¬ (is_Some content_fp ∧ Store.content_hash row = content_fp)) as Hfree.
  { intros row Hrow.
    assert (bool_decide (Store.id row = memory_id) ||
            bool_decide (is_Some content_fp ∧ Store.content_hash row = content_fp)
            = false) as Hrow'.
    { apply not_true_is_false. intros Ht.
      assert (existsb (λ row, bool_decide (Store.id row = memory_id) ||
                bool_decide (is_Some content_fp ∧ Store.content_hash row = content_fp))
                (Store.memories db) = true) as Hex.
      { apply existsb_exists. exists row. split; [by apply list_elem_of_In|done]. }
      congruence. }
    apply orb_false_elim in Hrow' as [H1 H2].
    apply bool_decide_eq_false in H1, H2. done. }
  split; cbn [fst Store.memories].
  - rewrite fmap_app. apply list.NoDup_app. split_and!; [done| |apply NoDup_singleton].
    intros x (row & Hx & Hrow)%list_elem_of_fmap Hnew%list_elem_of_singleton.
    simpl in Hnew. destruct (Hfree row Hrow). congruence.
  - rewrite omap_app. apply list.NoDup_app. split_and!; [done| |].
    + intros h (row & Hrow & Hh)%list_elem_of_omap Hnew.
      simpl in Hnew. destruct content_fp as [h'|]; [|by apply elem_of_nil in Hnew].
      apply list_elem_of_singleton in Hnew as ->.
      destruct (Hfree row Hrow) as [_ Hhash]. apply Hhash. by split.
    + simpl. destruct content_fp; [apply NoDup_singleton|apply NoDup_nil_2].
Qed.

Lemma update_memory_constraints db now memory_id new_content changes version_inc :
  constraints_hold db →
  constraints_hold
    (Store.update_memory db now memory_id new_content changes version_inc).1.
Proof.
  intros [Hids Hhashes].
  destruct (Store.get_memory db memory_id) as [row|] eqn:Hget.
  - destruct (update_memory_known db now memory_id new_content changes version_inc
                row Hget) as (_ & _ & _ & _ & Hid & Hhash & _).
    split.
    + by rewrite Hid.
    + by rewrite (omap_of_fmap _ _ _ Hhash).
  - by rewrite update_memory_absent.
Qed.

End store_constraints.

(** ** The engine *)
Section engine_properties.
Context `{!Runtime} {image : Type} (world : Engine.Collaborators image).
Implicit Types (store : Store.MemoryDatabase) (row : Store.MemoryRecord).

Lemma update_memory_incrementally_changed (memory_id : string)
    (old_content new_content : gmap string value) (old_summary : string) :
  _compute_structured_diff old_content new_content ≠ [] →
  default (VStr EmptyString) (old_content !! "full_summary") = VStr old_summary →
  update_memory_incrementally memory_id old_content new_content =
    let changes := _compute_structured_diff old_content new_content in
    let new_summary :=
      VStr (_generate_incremental_summary old_summary changes
              (VDict (patched_dict old_content new_content))) in
    Returned {| updated := true; Updater.memory_id := memory_id; changes := changes;
                new_content := <["full_summary" := new_summary]>
                                 (patched_dict old_content new_content);
                new_summary := new_summary; version_increment := 1 |}.
Proof.
  intros Hchanges Hsummary. unfold update_memory_incrementally. rewrite Hsummary.
  assert (apply_diff (VDict old_content) (_compute_structured_diff old_content new_content)
          = Returned (VDict (patched_dict old_content new_content))) as Hpatch.
  { unfold apply_diff. rewrite compute_structured_diff_root.
    by apply (compare_dicts_patch_any (VDict old_content)). }
  destruct (_compute_structured_diff old_content new_content) as [|c cs] eqn:Hdiff;
    [done|].
  by rewrite Hpatch.
Qed.


(** The store after a call of [process_screen]: it is the store before the
    call, or the result of one successful [update_memory] or [add_memory]. *)
Lemma process_screen_store (store store' : Store.MemoryDatabase) (image_path : image)
    (metadata : option Engine.Metadata) (result : outcome Engine.Response) :
  Engine.process_screen world store image_path metadata = (store', result) →
  store' = store
  ∨ (∃ response, result = Returned response)
    ∧ ((∃ memory_id content changes version_inc,
          Store.update_memory store (Engine.now world) memory_id content changes
            version_inc = (store', None))
       ∨ (∃ memory_id content content_fp perceptual_fp metadata,
            Store.add_memory store (Engine.now world) memory_id content content_fp
              perceptual_fp metadata = (store', None))).
Proof.
  unfold Engine.process_screen, Engine._perform_update. intros Hcall.
  destruct (Engine.generate_all_fingerprints world image_path) as [fingerprints|];
    [|left; by simplify_eq].
  destruct (Store.find_by_content_hash store _) as [[existing|]|];
    [left; by simplify_eq| |left; by simplify_eq].
  destruct (Engine.process_hybrid world image_path) as [structured_content|];
    [|left; by simplify_eq].
  cbv zeta in Hcall.
  destruct (_ ≫= Store.get_memory store) as [old_memory|];
    [destruct (Engine.nonempty _) as [target|]|].
  2-3: destruct (Store.add_memory store _ _ _ _ _ _) as [store1 [e|]] eqn:Hadd;
       [ unfold Store.add_memory in Hadd; destruct (existsb _ _); simplify_eq; by left
       | simplify_eq; right; split; [by eexists|]; right; by do 5 eexists ].
  destruct (update_memory_incrementally target _ _) as [update_result|];
    [|left; by simplify_eq].
  destruct (updated update_result); [|left; by simplify_eq].
  destruct (Store.update_memory store _ _ _ _ _) as [store1 [e|]] eqn:Hupdate.
  - unfold Store.update_memory in Hupdate.
    destruct (List.find _ _); simplify_eq. by left.
  - simplify_eq. right. split; [by eexists|]. left. by do 4 eexists.
Qed.

(** X15: a call of [process_screen] that raises leaves the store as it was. *)
Theorem process_screen_failure_keeps_store (store store' : Store.MemoryDatabase)
    (image_path : image) (metadata : option Engine.Metadata) (e : exn) :
  Engine.process_screen world store image_path metadata = (store', Raised e) →
  store' = store.
Proof.
  intros Hcall.
  destruct (process_screen_store _ _ _ _ _ Hcall) as [?|[[response ?] _]]; done.
Qed.

(** X16: [process_screen] keeps the constraints of the store, never changes
    the id or a hash of a stored record, and appends at most one record. *)
Theorem process_screen_keeps_records (store store' : Store.MemoryDatabase)
    (image_path : image) (metadata : option Engine.Metadata)
    (result : outcome Engine.Response) :
  Engine.process_screen world store image_path metadata = (store', result) →
  (constraints_hold store → constraints_hold store')
  ∧ Store.is_remote store' = Store.is_remote store
  ∧ ∃ new_rows, length new_rows ≤ 1
      ∧ Store.id <$> Store.memories store'
          = (Store.id <$> Store.memories store) ++ (Store.id <$> new_rows)
      ∧ Store.content_hash <$> Store.memories store'
          = (Store.content_hash <$> Store.memories store)
            ++ (Store.content_hash <$> new_rows)
      ∧ Store.perceptual_hash <$> Store.memories store'
          = (Store.perceptual_hash <$> Store.memories store)
            ++ (Store.perceptual_hash <$> new_rows).
Proof.
  intros Hcall.
  destruct (process_screen_store _ _ _ _ _ Hcall)
    as [->|[_ [(memory_id & content & changes & inc & Hupdate)
               |(memory_id & content & cfp & pfp & md & Hadd)]]].
  - split_and!; try done. exists []. cbn [fmap list_fmap]. rewrite !app_nil_r. split_and!; [simpl; lia|done..].
  - split.
    { intros Hc. pose proof (update_memory_constraints store (Engine.now world)
        memory_id content changes inc Hc) as Hc'. by rewrite Hupdate in Hc'. }
    destruct (Store.get_memory store memory_id) as [row|] eqn:Hget.
    + destruct (update_memory_known store (Engine.now world) memory_id content
                  changes inc row Hget) as (_ & _ & _ & _ & Hid & Hch & Hph & Hrem).
      rewrite Hupdate in Hid, Hch, Hph, Hrem. cbn [fst] in *.
      split; [done|]. exists []. cbn [fmap list_fmap]. rewrite !app_nil_r.
      split_and!; [simpl; lia|done..].
    + rewrite update_memory_absent in Hupdate by done. simplify_eq.
  - split.
    { intros Hc. pose proof (add_memory_constraints store (Engine.now world)
        memory_id content cfp pfp md Hc) as Hc'. by rewrite Hadd in Hc'. }
    unfold Store.add_memory in Hadd. destruct (existsb _ _); simplify_eq.
    cbn [Store.is_remote Store.memories]. split; [done|].
    eexists [_]. rewrite !fmap_app. split; [simpl; lia|done].
Qed.

(** X17: an explicit [update_memory_id] that is not empty decides the target
    without the perceptual index being consulted: the named memory is updated
    if it exists, and a new memory is created if it does not. *)
Theorem process_screen_explicit_target (store : Store.MemoryDatabase)
    (image_path : image) (metadata : Engine.Metadata)
    (fingerprints : Engine.FingerprintSet) (structured_content : gmap string value)
    (target : string) :
  Engine.generate_all_fingerprints world image_path = Returned fingerprints →
  Store.find_by_content_hash store (Engine.content fingerprints) = Returned None →
  Engine.process_hybrid world image_path = Returned structured_content →
  Engine.update_memory_id metadata = Some target →
  target ≠ EmptyString →
  Engine.process_screen world store image_path (Some metadata) =
    match Store.get_memory store target with
    | Some old_memory =>
        Engine._perform_update world store target old_memory structured_content
    | None =>
        let added :=
          Store.add_memory store (Engine.now world) (Engine.uuid4 world)
            structured_content (Some (Engine.content fingerprints))
            (Some (Engine.perceptual fingerprints))
            (Engine.metadata_dict (Some metadata)) in
        match added.2 with
        | Some e => (added.1, Raised e)
        | None =>
            (added.1, Returned {|
               Engine.status := "created";
               Engine.memory_id := Engine.uuid4 world;
               Engine.summary :=
                 Some (default VNone (structured_content !! "full_summary"));
               Engine.changes_count := None;
               Engine.message := "New memory created successfully." |})
        end
    end.
Proof.
  intros Hfp Hexact Hvision Htarget Hne. unfold Engine.process_screen.
  rewrite Hfp, Hexact, Hvision. cbn [mbind option_bind]. rewrite Htarget.
  assert (Engine.nonempty (Some target) = Some target) as Hnonempty
    by (by destruct target).
  rewrite Hnonempty. cbv zeta. rewrite Hnonempty. cbn [mbind option_bind].
  destruct (Store.get_memory store target); [done|].
  by destruct (Store.add_memory store _ _ _ _ _ _) as [store1 [e|]].
Qed.

(** X18: on the local connection, an image that matches nothing and whose
    extracted summary is a string (or absent) is stored as a new memory of
    version 1 under the fresh id, and submitting the same image again, with
    any metadata, reports [unchanged] with that id and leaves the store, the
    version included, as it is. *)
Theorem process_screen_created_then_unchanged (store : Store.MemoryDatabase)
    (image_path : image) (again : option Engine.Metadata)
    (fingerprints : Engine.FingerprintSet) (structured_content : gmap string value) :
  Store.is_remote store = false →
  Engine.generate_all_fingerprints world image_path = Returned fingerprints →
  Engine.process_hybrid world image_path = Returned structured_content →
  summary_is_text structured_content →
  (∀ row, row ∈ Store.memories store →
      Store.id row ≠ Engine.uuid4 world
      ∧ Store.content_hash row ≠ Some (Engine.content fingerprints)) →
  Store.find_by_perceptual_hash store (Engine.perceptual fingerprints) 4 = None →
  let first := Engine.process_screen world store image_path None in
  let second := Engine.process_screen world first.1 image_path again in
  first.2 = Returned {|
      Engine.status := "created";
      Engine.memory_id := Engine.uuid4 world;
      Engine.summary := Some (default VNone (structured_content !! "full_summary"));
      Engine.changes_count := None;
      Engine.message := "New memory created successfully." |}
  ∧ (∃ row, Store.get_memory first.1 (Engine.uuid4 world) = Some row
            ∧ Store.version row = 1%Z
            ∧ Store.structured_content row = structured_content)
  ∧ second.1 = first.1
  ∧ second.2 = Returned {|
      Engine.status := "unchanged";
      Engine.memory_id := Engine.uuid4 world;
      Engine.summary :=
        Some (default (VStr EmptyString) (structured_content !! "full_summary"));
      Engine.changes_count := None;
      Engine.message := "Exact duplicate found. No processing needed." |}.
Proof.
  intros Hlocal Hfp Hvision _ Hfresh Hnear first second.
  assert (Store.find_by_content_hash store (Engine.content fingerprints) = Returned None)
    as Hexact.
  { unfold Store.find_by_content_hash.
    destruct (List.find _ (Store.memories store)) as [row|] eqn:Hfind; [|done].
    apply find_some in Hfind as [Hin Hhash]. apply bool_decide_eq_true in Hhash.
    apply list_elem_of_In in Hin. by destruct (Hfresh row Hin). }
  pose proof (add_memory_accepts store (Engine.now world) (Engine.uuid4 world)
                structured_content (Some (Engine.content fingerprints))
                (Some (Engine.perceptual fingerprints)) ∅) as Hadd.
  specialize (Hadd (λ r Hr, conj (proj1 (Hfresh r Hr)) (λ _, proj2 (Hfresh r Hr)))).
  set (new_row := Store.Build_MemoryRecord _ _ _ _ _ _ _ _ _) in Hadd.
  set (store1 := Store.Build_MemoryDatabase _ _ _) in Hadd.
  assert (first = (store1, Returned {|
                     Engine.status := "created";
                     Engine.memory_id := Engine.uuid4 world;
                     Engine.summary :=
                       Some (default VNone (structured_content !! "full_summary"));
                     Engine.changes_count := None;
                     Engine.message := "New memory created successfully." |}))
    as Hfirst.
  { subst first. unfold Engine.process_screen.
    rewrite Hfp, Hexact, Hvision. cbn [mbind option_bind Engine.nonempty].
    rewrite Hnear. cbn [fmap option_fmap option_map Engine.nonempty mbind option_bind].
    cbv zeta. cbn [Engine.metadata_dict]. by rewrite Hadd. }
  assert (Engine.process_screen world store1 image_path again =
            (store1, Returned {|
               Engine.status := "unchanged";
               Engine.memory_id := Store.id new_row;
               Engine.summary := Some (Store.summary new_row);
               Engine.changes_count := None;
               Engine.message := "Exact duplicate found. No processing needed." |}))
    as Hsecond.
  { apply (process_screen_duplicate_local world store1 image_path again fingerprints);
      [done|done|].
    apply find_app_new; [|by apply bool_decide_eq_true_2].
    intros r Hr. apply bool_decide_eq_false_2. by destruct (Hfresh r Hr). }
  subst second. rewrite Hfirst. cbn [fst snd]. rewrite Hsecond. split_and!; try done.
  exists new_row. split; [|done]. unfold Store.get_memory.
  apply find_app_new; [|by apply bool_decide_eq_true_2].
  intros r Hr. apply bool_decide_eq_false_2. by destruct (Hfresh r Hr).
Qed.

End engine_properties.

(** ** Instances of the properties of the store and of the engine *)

Lemma add_memory_then_lookup_witness :
  ∃ row,
    Store.get_memory
      (Store.add_memory (example_store false [example_row "mem-1" (Some "c0ffee") None])
         "2024-01-02T00:00:00" "mem-2" {[ "full_summary" := VStr "A form." ]}
         (Some "beef") (Some "ff00") ∅).1 "mem-2" = Some row
    ∧ Store.summary row = VStr "A form."
    ∧ Store.version row = 1%Z.
Proof.
  destruct (add_memory_then_lookup
    (example_store false [example_row "mem-1" (Some "c0ffee") None])
    "2024-01-02T00:00:00" "mem-2" {[ "full_summary" := VStr "A form." ]} "beef" "ff00" ∅)
    as (_ & (row & Hget & _ & _ & _ & _ & Hsummary & Hversion) & _).
  - vm_compute. exact I.
  - intros row Hrow. apply list_elem_of_singleton in Hrow. subst row.
    split; discriminate.
  - exists row. split_and!; [exact Hget | exact Hsummary | exact Hversion].
Defined.

Lemma add_memory_conflict_witness :
  Store.add_memory (example_store false [example_row "mem-1" (Some "c0ffee") None])
    "2024-01-02T00:00:00" "mem-2" ∅ (Some "c0ffee") (Some "ff00") ∅
  = (example_store false [example_row "mem-1" (Some "c0ffee") None], Some IntegrityError).
Proof.
  refine (add_memory_conflict
    (example_store false [example_row "mem-1" (Some "c0ffee") None])
    "2024-01-02T00:00:00" "mem-2" ∅ "c0ffee" "ff00" ∅
    (example_row "mem-1" (Some "c0ffee") None) _ _ _).
  - vm_compute. exact I.
  - apply list_elem_of_singleton. reflexivity.
  - right. reflexivity.
Defined.

Lemma update_memory_then_lookup_witness :
  (Store.update_memory (example_store false [example_row "mem-1" (Some "c0ffee") None])
     "2024-01-02T00:00:00" "mem-1" {[ "full_summary" := VStr "A form." ]} [] 1).2 = None.
Proof.
  refine (proj1 (update_memory_then_lookup
    (example_store false [example_row "mem-1" (Some "c0ffee") None])
    "2024-01-02T00:00:00" "mem-1" {[ "full_summary" := VStr "A form." ]} [] 1
    (example_row "mem-1" (Some "c0ffee") None) _ _ _ _ _)).
  - reflexivity.
  - vm_compute. exact I.
  - unfold fits_int64. lia.
  - reflexivity.
  - unfold fits_int64. simpl. lia.
Defined.

Lemma update_memory_unknown_witness :
  Store.update_memory (example_store false [example_row "mem-1" (Some "c0ffee") None])
    "2024-01-02T00:00:00" "mem-9" ∅ [] 1
  = (example_store false [example_row "mem-1" (Some "c0ffee") None], Some TypeError).
Proof.
  refine (update_memory_unknown
    (example_store false [example_row "mem-1" (Some "c0ffee") None])
    "2024-01-02T00:00:00" "mem-9" ∅ [] 1 _ _ _ _).
  - reflexivity.
  - vm_compute. exact I.
  - unfold fits_int64. lia.
  - reflexivity.
Defined.


Lemma process_screen_failure_keeps_store_witness :
  @Engine.process_screen example_runtime string example_world
    (example_store true [example_row "mem-1" (Some "c0ffee") (Some "ff00")])
    "screenshot.png" None
  = (example_store true [example_row "mem-1" (Some "c0ffee") (Some "ff00")],
     Raised ValueError)
  ∧ example_store true [example_row "mem-1" (Some "c0ffee") (Some "ff00")]
    = example_store true [example_row "mem-1" (Some "c0ffee") (Some "ff00")].
Proof.
  split; [reflexivity|].
  exact (@process_screen_failure_keeps_store example_runtime string example_world
           (example_store true [example_row "mem-1" (Some "c0ffee") (Some "ff00")])
           _ "screenshot.png" None ValueError eq_refl).
Defined.

Lemma process_screen_keeps_records_witness :
  Store.is_remote
    (@Engine.process_screen example_runtime string example_world
       (example_store false [example_row "mem-1" (Some "beef") (Some "0000")])
       "screenshot.png" None).1 = false.
Proof.
  refine (proj1 (proj2 (@process_screen_keeps_records example_runtime string example_world
    (example_store false [example_row "mem-1" (Some "beef") (Some "0000")])
    _ "screenshot.png" None _ _))).
  apply surjective_pairing.
Defined.

Lemma process_screen_explicit_target_witness :
  @Engine.process_screen example_runtime string example_world
    (example_store false [example_row "mem-1" (Some "beef") (Some "0000")])
    "screenshot.png"
    (Some {| Engine.update_memory_id := Some "mem-1"; Engine.other_entries := ∅ |})
  = @Engine._perform_update example_runtime string example_world
      (example_store false [example_row "mem-1" (Some "beef") (Some "0000")])
      "mem-1" (example_row "mem-1" (Some "beef") (Some "0000"))
      {[ "full_summary" := VStr "A login form, again." ]}.
Proof.
  refine (@process_screen_explicit_target example_runtime string example_world
    (example_store false [example_row "mem-1" (Some "beef") (Some "0000")])
    "screenshot.png"
    {| Engine.update_memory_id := Some "mem-1"; Engine.other_entries := ∅ |}
    {| Engine.content := "c0ffee"; Engine.perceptual := "ff00";
       Engine.structural := "5eed" |}
    {[ "full_summary" := VStr "A login form, again." ]} "mem-1" _ _ _ _ _);
    [reflexivity | reflexivity | reflexivity | reflexivity | discriminate].
Defined.

Lemma process_screen_created_then_unchanged_witness :
  (@Engine.process_screen example_runtime string example_world
     (@Engine.process_screen example_runtime string example_world
        (example_store false []) "screenshot.png" None).1
     "screenshot.png" None).2
  = Returned {|
      Engine.status := "unchanged";
      Engine.memory_id := "mem-2";
      Engine.summary := Some (VStr "A login form, again.");
      Engine.changes_count := None;
      Engine.message := "Exact duplicate found. No processing needed." |}.
Proof.
  refine (proj2 (proj2 (proj2 (@process_screen_created_then_unchanged
    example_runtime string example_world (example_store false []) "screenshot.png" None
    {| Engine.content := "c0ffee"; Engine.perceptual := "ff00";
       Engine.structural := "5eed" |}
    {[ "full_summary" := VStr "A login form, again." ]} _ _ _ _ _ _))));
    [reflexivity | reflexivity | reflexivity | vm_compute; exact I | | reflexivity].
  intros row Hrow. apply elem_of_nil in Hrow. destruct Hrow.
Defined.

(** ** Compression of the diff log *)
Section compress_properties.
Context `{!DiffLog.Library}.
Implicit Types (entry current : DiffLog.DiffLogEntry) (log rest : list DiffLog.DiffLogEntry).

Lemma can_merge_nonempty (diff1 diff2 : DiffLog.DiffLogEntry) :
  DiffLog.operations diff1 ≠ [] → is_Some (DiffLog._can_merge_diffs diff1 diff2).
Proof.
  intros Hops. unfold DiffLog._can_merge_diffs. cbv zeta.
  case_bool_decide; [by eexists|].
  rewrite bool_decide_eq_false_2; [by eexists|].
  destruct (DiffLog.operations diff1) as [|operation ops]; [done|].
  rewrite fmap_cons, list_to_set_cons.
  assert (size ({[DiffLog.str_of_operation operation]}
                  ∪ list_to_set (DiffLog.str_of_operation <$> ops) : gset string) ≠ 0)
    as Hsize; [|lia].
  intros Hzero%size_empty_inv. set_solver.
Qed.

Lemma compress_loop_returns rest :
  ∀ (compressed : list DiffLog.DiffLogEntry) current,
    Forall (λ entry, DiffLog.operations entry ≠ []) (current :: rest) →
    ∃ result,
      DiffLog.compress_loop compressed current rest = Some result
      ∧ concat (DiffLog.operations <$> result)
          = concat (DiffLog.operations <$> compressed ++ current :: rest)
      ∧ foldr Z.add 0%Z (DiffLog.change_count <$> result)
          = foldr Z.add 0%Z (DiffLog.change_count <$> compressed ++ current :: rest)
      ∧ length result ≤ length (compressed ++ current :: rest)
      ∧ DiffLog.timestamp <$> list.last result
          = DiffLog.timestamp <$> list.last (current :: rest).
Proof.
  induction rest as [|next_diff rest IH]; intros compressed current Hnonempty.
  - eexists. split; [done|]. split_and!; try done; try lia.
    by rewrite last_snoc.
  - apply Forall_cons_1 in Hnonempty as [Hcurrent Hrest].
    pose proof Hrest as [Hnext Hrest']%Forall_cons_1.
    simpl. destruct (can_merge_nonempty current next_diff Hcurrent) as [[] ->].
    + destruct (IH compressed (DiffLog._merge_diffs current next_diff))
        as (result & -> & Hops & Hcount & Hlen & Htime).
      { constructor; [|done]. simpl. by destruct (DiffLog.operations current). }
      exists result. split; [done|]. split_and!.
      * rewrite Hops, !fmap_app, !concat_app. simpl. by rewrite <- !app_assoc.
      * rewrite Hcount, !fmap_app, !foldr_app. simpl. f_equal. lia.
      * rewrite !length_app in *. simpl in *. lia.
      * rewrite Htime. by destruct rest.
    + destruct (IH (compressed ++ [current]) next_diff Hrest)
        as (result & -> & Hops & Hcount & Hlen & Htime).
      exists result. split; [done|]. rewrite <- !app_assoc in *. simpl in *.
      split_and!; try done.
Qed.

(** X19: on a log whose entries all carry operations (as the entries built by
    [update_memory_incrementally] do), [compress_diffs] returns, and the
    compressed log has the same operations in the same order, the same total
    change count, no more entries, and the time stamp of the last entry. *)
Theorem compress_diffs_preserves log :
  Forall (λ entry, DiffLog.operations entry ≠ []) log →
  ∃ result,
    DiffLog.compress_diffs log = Some result
    ∧ concat (DiffLog.operations <$> result) = concat (DiffLog.operations <$> log)
    ∧ foldr Z.add 0%Z (DiffLog.change_count <$> result)
        = foldr Z.add 0%Z (DiffLog.change_count <$> log)
    ∧ length result ≤ length log
    ∧ DiffLog.timestamp <$> list.last result = DiffLog.timestamp <$> list.last log.
Proof.
  intros Hnonempty. destruct log as [|first [|second rest]].
  - by exists [].
  - by exists [first].
  - apply (compress_loop_returns (second :: rest) [] first Hnonempty).
Qed.

Lemma compress_loop_far_apart rest :
  ∀ (compressed : list DiffLog.DiffLogEntry) current,
    (∀ i entry1 entry2,
        (current :: rest) !! i = Some entry1 → (current :: rest) !! S i = Some entry2 →
        (Qc_of_Z 300 < Qc_abs (DiffLog.seconds_of (DiffLog.timestamp entry2)
                               - DiffLog.seconds_of (DiffLog.timestamp entry1)))%Qc) →
    DiffLog.compress_loop compressed current rest = Some (compressed ++ current :: rest).
Proof.
  induction rest as [|next_diff rest IH]; intros compressed current Hgap; [done|].
  simpl. unfold DiffLog._can_merge_diffs. cbv zeta.
  rewrite bool_decide_eq_true_2 by (by apply (Hgap 0)).
  rewrite IH; [by rewrite <- app_assoc|].
  intros i entry1 entry2 H1 H2. by apply (Hgap (S i)).
Qed.

(** X20: a log in which consecutive entries are more than 300 seconds apart
    is returned as it is, whatever its operations are. *)
Theorem compress_diffs_far_apart log :
  (∀ i entry1 entry2,
      log !! i = Some entry1 → log !! S i = Some entry2 →
      (Qc_of_Z 300 < Qc_abs (DiffLog.seconds_of (DiffLog.timestamp entry2)
                             - DiffLog.seconds_of (DiffLog.timestamp entry1)))%Qc) →
  DiffLog.compress_diffs log = Some log.
Proof.
  intros Hgap. destruct log as [|first [|second rest]]; [done|done|].
  by apply (compress_loop_far_apart (second :: rest) [] first).
Qed.

(** X21: when the first two entries of a log are at most 300 seconds apart
    and neither carries an operation, [compress_diffs] raises (the
    [ZeroDivisionError] of [_can_merge_diffs]), whatever follows. *)
Theorem compress_diffs_divides_by_zero (first second : DiffLog.DiffLogEntry) rest :
  DiffLog.operations first = [] →
  DiffLog.operations second = [] →
  (Qc_abs (DiffLog.seconds_of (DiffLog.timestamp second)
           - DiffLog.seconds_of (DiffLog.timestamp first)) <= Qc_of_Z 300)%Qc →
  DiffLog._can_merge_diffs first second = None
  ∧ DiffLog.compress_diffs (first :: second :: rest) = None.
Proof.
  intros Hfirst Hsecond Hnear.
  assert (DiffLog._can_merge_diffs first second = None) as Hmerge.
  { unfold DiffLog._can_merge_diffs. cbv zeta.
    rewrite bool_decide_eq_false_2 by (by apply Qcle_not_lt).
    by rewrite Hfirst, Hsecond. }
  split; [done|]. simpl. by rewrite Hmerge.
Qed.

End compress_properties.

Lemma compress_diffs_preserves_witness :
  ∃ result,
    @DiffLog.compress_diffs example_library
      [example_entry "100" [add_op ["a"] (VInt 1)] 1;
       example_entry "160" [add_op ["a"] (VInt 1)] 1] = Some result
    ∧ length result ≤ 2.
Proof.
  destruct (@compress_diffs_preserves example_library
              [example_entry "100" [add_op ["a"] (VInt 1)] 1;
               example_entry "160" [add_op ["a"] (VInt 1)] 1])
    as (result & Hresult & _ & _ & Hlength & _).
  { repeat constructor; discriminate. }
  exists result. split; [exact Hresult | exact Hlength].
Defined.

Lemma compress_diffs_far_apart_witness :
  @DiffLog.compress_diffs example_library
    [example_entry "100" [] 0; example_entry "500" [] 0; example_entry "1000" [] 0]
  = Some [example_entry "100" [] 0; example_entry "500" [] 0; example_entry "1000" [] 0].
Proof.
  refine (@compress_diffs_far_apart example_library
    [example_entry "100" [] 0; example_entry "500" [] 0; example_entry "1000" [] 0] _).
  intros [|[|[|i]]] entry1 entry2 H1 H2; simplify_eq/=; reflexivity.
Defined.

Lemma compress_diffs_divides_by_zero_witness :
  @DiffLog.compress_diffs example_library
    [example_entry "100" [] 0; example_entry "160" [] 0] = None.
Proof.
  refine (proj2 (@compress_diffs_divides_by_zero example_library
    (example_entry "100" [] 0) (example_entry "160" [] 0) [] eq_refl eq_refl _)).
  intros Hgt. vm_compute in Hgt. discriminate Hgt.
Defined.

(** ** The summary of an updated memory *)
Section summary_properties.
Context `{!Runtime}.

Lemma take_chars_append (n : nat) (s t : string) :
  String.length s ≤ n →
  take_chars n (s +:+ t) = s +:+ take_chars (n - String.length s) t.
Proof.
  unfold take_chars. revert n. induction s as [|c s IH]; intros n Hn; simpl in *.
  - by rewrite Nat.sub_0_r.
  - destruct n as [|n]; [lia|].
    change (substring 0 (S n) (String c (s +:+ t))
            = String c (s +:+ substring 0 (n - String.length s) t)).
    simpl. f_equal. apply IH. lia.
Qed.

Lemma string_append_empty (s : string) : s +:+ "" = s.
Proof.
  induction s as [|c s IH]; [done|].
  change (String c (s +:+ "") = String c s). by rewrite IH.
Qed.

Lemma string_append_assoc (s t u : string) : (s +:+ t) +:+ u = s +:+ (t +:+ u).
Proof.
  induction s as [|c s IH]; [done|].
  change (String c ((s +:+ t) +:+ u) = String c (s +:+ (t +:+ u))). by rewrite IH.
Qed.

(** X22: a summary shorter than 200 characters is never shortened or
    rewritten: the summary produced for it starts with it, whatever the
    changes are. *)
Theorem short_summary_is_extended (old_summary : string) (changes : list DiffOperation)
    (new_content : value) :
  String.length old_summary < 200 →
  ∃ suffix,
    _generate_incremental_summary old_summary changes new_content
      = old_summary +:+ suffix.
Proof.
  intros Hshort. rewrite generate_summary_unfold.
  destruct (significant_changes changes) as [|d ds];
    [exists EmptyString; by rewrite string_append_empty|].
  unfold incorporate_changes. cbv zeta.
  destruct (Nat.ltb_spec (String.length old_summary) 200) as [_|?]; [|lia].
  destruct (500 <? _).
  - rewrite take_chars_append by lia.
    eexists. apply string_append_assoc.
  - by eexists.
Qed.

(** X23: for documents whose text fields are strings or absent: when no
    change of the diff touches a significant field, the update keeps the old
    summary: the result reports it as the new summary, and an
    updated document carries it under [full_summary], whatever summary the
    new document came with. *)
Theorem update_keeps_summary (memory_id : string) (old_content new_content : gmap string value)
    (old_summary : string) :
  text_fields_are_strings old_content →
  text_fields_are_strings new_content →
  default (VStr EmptyString) (old_content !! "full_summary") = VStr old_summary →
  existsb touches_significant (_compute_structured_diff old_content new_content) = false →
  ∃ result,
    update_memory_incrementally memory_id old_content new_content = Returned result
    ∧ new_summary result = VStr old_summary
    ∧ (updated result = true →
       Updater.new_content result !! "full_summary" = Some (VStr old_summary)).
Proof.
  intros _ _ Hsummary Hplain.
  destruct (decide (_compute_structured_diff old_content new_content = [])) as [Hsame|Hdiff].
  - unfold update_memory_incrementally. rewrite Hsame, Hsummary. by eexists.
  - rewrite (update_memory_incrementally_changed _ _ _ old_summary) by done. cbv zeta.
    rewrite generate_summary_unfold, significant_changes_untouched by done.
    eexists. split; [done|]. split; [done|]. intros _. simpl.
    by rewrite lookup_insert_eq.
Qed.

End summary_properties.

Lemma short_summary_is_extended_witness :
  ∃ suffix,
    @_generate_incremental_summary example_runtime "A login form."
      [add_op ["content_type"] (VStr "form")] VNone
    = ("A login form." +:+ suffix)%string.
Proof.
  refine (@short_summary_is_extended example_runtime "A login form."
    [add_op ["content_type"] (VStr "form")] VNone _).
  simpl. lia.
Defined.

Lemma update_keeps_summary_witness :
  ∃ result,
    @update_memory_incrementally example_runtime "mem-1"
      {[ "full_summary" := VStr "A login form." ]}
      {[ "full_summary" := VStr "A login form, again." ]} = Returned result
    ∧ new_summary result = VStr "A login form."
    ∧ (updated result = true →
       Updater.new_content result !! "full_summary" = Some (VStr "A login form.")).
Proof.
  refine (@update_keeps_summary example_runtime "mem-1"
    {[ "full_summary" := VStr "A login form." ]}
    {[ "full_summary" := VStr "A login form, again." ]} "A login form." _ _ _ _);
    [ repeat (constructor; [vm_compute; exact I|]); constructor
    | repeat (constructor; [vm_compute; exact I|]); constructor
    | reflexivity | vm_compute; reflexivity].
Defined.

(** ** The range of the confidence *)
Section confidence_range.
Context `{!Runtime}.

Ltac Qc_to_Q :=
  unfold Qcle, Qclt, Qcminus, Qcplus, Qcopp, Qcmult, Qc_of_Z, Q2Qc in *;
  cbn [this] in *; rewrite ?Qred_correct in *; unfold inject_Z in *.

Lemma Qc_of_Z_le (a b : Z) : (a ≤ b)%Z → (Qc_of_Z a <= Qc_of_Z b)%Qc.
Proof. intros Hle. unfold Qcle. simpl. by rewrite <- Zle_Qle. Qed.

Lemma Qc_of_Z_lt (a b : Z) : (a < b)%Z → (Qc_of_Z a < Qc_of_Z b)%Qc.
Proof. intros Hlt. unfold Qclt. simpl. by rewrite <- Zlt_Qlt. Qed.

Lemma Qc_abs_bounds (a b : Qc) :
  (Qc_of_Z 0 <= Qc_abs (a - b))%Qc
  ∧ (Qc_abs (a - b) <= Qc_of_Z 2 * Qc_max (Qc_abs a) (Qc_abs b))%Qc
  ∧ (Qc_abs a <= Qc_max (Qc_abs a) (Qc_abs b))%Qc.
Proof.
  unfold Qc_abs, Qc_max. repeat destruct (decide _); Qc_to_Q.
  all: repeat match goal with H : ¬ _ |- _ => apply Qnot_lt_le in H end.
  all: split_and!; lra.
Qed.

Lemma Qc_div_bounds (x y k : Qc) :
  (Qc_of_Z 0 < y)%Qc → (Qc_of_Z 0 <= x)%Qc → (x <= k * y)%Qc →
  (Qc_of_Z 0 <= x / y)%Qc ∧ (x / y <= k)%Qc.
Proof.
  intros Hy Hx Hle.
  assert (Qc_of_Z 0 = Q2Qc 0) as Hzero by (apply Qc_is_canon; reflexivity).
  rewrite Hzero in *. split.
  - apply Qcmult_nonneg_nonneg; [done|]. by apply Qclt_le_weak, Qcinv_pos.
  - apply (Qcmult_le_mono_pos_r _ _ y Hy).
    replace (x / y * y)%Qc with x; [done|].
    field. intros ->. by apply (Qclt_not_le _ _ Hy).
Qed.

Lemma numeric_similarity_range (a b : Qc) :
  (Qc_of_Z (-1) <= numeric_similarity a b)%Qc ∧ (numeric_similarity a b <= Qc_of_Z 1)%Qc.
Proof.
  rewrite <- numeric_similarity_tests.
  destruct (bool_decide (a = Qc_of_Z 0)) eqn:Ha, (bool_decide (b = Qc_of_Z 0)) eqn:Hb;
    cbn [andb orb]; try (split; by apply Qc_of_Z_le).
  apply bool_decide_eq_false in Ha.
  destruct (Qc_abs_bounds a b) as (Hd0 & Hd2 & Hmax).
  assert (Qc_of_Z 0 < Qc_max (Qc_abs a) (Qc_abs b))%Qc as Hpos.
  { apply Qclt_le_trans with (Qc_abs a); [|done].
    unfold Qc_abs. destruct (decide _) as [Hneg|Hnonneg].
    - Qc_to_Q. lra.
    - apply Qcnot_lt_le in Hnonneg.
      destruct (Qcle_lt_or_eq _ _ Hnonneg) as [?|Heq]; [done|]. by destruct Ha. }
  destruct (Qc_div_bounds _ _ _ Hpos Hd0 Hd2) as [Hq0 Hq2].
  generalize dependent (Qc_abs (a - b) / Qc_max (Qc_abs a) (Qc_abs b))%Qc.
  intros q Hq0 Hq2. Qc_to_Q. lra.
Qed.

Lemma numeric_similarity_negative (a b : Qc) :
  (a < Qc_of_Z 0)%Qc ∧ (Qc_of_Z 0 < b)%Qc ∨ (b < Qc_of_Z 0)%Qc ∧ (Qc_of_Z 0 < a)%Qc →
  (numeric_similarity a b < Qc_of_Z 0)%Qc.
Proof.
  intros Hsigns. unfold numeric_similarity.
  assert (a ≠ Qc_of_Z 0 ∧ b ≠ Qc_of_Z 0) as [Ha Hb].
  { split; intros ->; destruct Hsigns as [[H1 H2]|[H1 H2]];
      revert H1 H2; Qc_to_Q; lra. }
  rewrite !bool_decide_eq_false_2 by tauto.
  assert (Qc_of_Z 0 < Qc_max (Qc_abs a) (Qc_abs b))%Qc as Hpos.
  { unfold Qc_abs, Qc_max. repeat destruct (decide _); Qc_to_Q; lra. }
  assert (Qc_max (Qc_abs a) (Qc_abs b) < Qc_abs (a - b))%Qc as Hlarger.
  { unfold Qc_abs, Qc_max. repeat destruct (decide _); Qc_to_Q; lra. }
  assert (Qc_of_Z 1 < Qc_abs (a - b) / Qc_max (Qc_abs a) (Qc_abs b))%Qc as Hq.
  { assert (Qc_of_Z 0 = Q2Qc 0) as Hzero by (apply Qc_is_canon; reflexivity).
    rewrite Hzero in Hpos.
    apply (Qcmult_lt_mono_pos_r _ _ _ Hpos).
    replace (Qc_abs (a - b) / Qc_max (Qc_abs a) (Qc_abs b)
             * Qc_max (Qc_abs a) (Qc_abs b))%Qc with (Qc_abs (a - b)).
    - replace (Qc_of_Z 1 * Qc_max (Qc_abs a) (Qc_abs b))%Qc
        with (Qc_max (Qc_abs a) (Qc_abs b)); [done|].
      replace (Qc_of_Z 1) with 1%Qc by (apply Qc_is_canon; reflexivity). ring.
    - field. intros Heq. rewrite Heq in Hpos. by apply (Qclt_not_le _ _ Hpos). }
  generalize dependent (Qc_abs (a - b) / Qc_max (Qc_abs a) (Qc_abs b))%Qc.
  intros q Hq. Qc_to_Q. lra.
Qed.

Lemma jaccard_range (s t : string) :
  (Qc_of_Z 0 <= jaccard s t)%Qc ∧ (jaccard s t <= Qc_of_Z 1)%Qc.
Proof.
  unfold jaccard. case_bool_decide as Hempty; [split; by apply Qc_of_Z_le|].
  assert (word_set s ≠ ∅ ∧ word_set t ≠ ∅) as [Hs Ht] by tauto.
  apply Qc_div_bounds.
  - apply (Qc_of_Z_lt 0). apply (Nat2Z.inj_lt 0).
    assert (size (word_set s ∪ word_set t) ≠ 0); [|lia].
    intros Hzero%size_empty_inv. apply Hs. set_solver.
  - apply (Qc_of_Z_le 0). lia.
  - replace (Qc_of_Z 1 * Qc_of_Z (Z.of_nat (size (word_set s ∪ word_set t))))%Qc
      with (Qc_of_Z (Z.of_nat (size (word_set s ∪ word_set t)))).
    + apply Qc_of_Z_le, Nat2Z.inj_le, subseteq_size.
      etrans; [apply intersection_subseteq_l | apply union_subseteq_l].
    + replace (Qc_of_Z 1) with 1%Qc by (apply Qc_is_canon; reflexivity). ring.
Qed.

Lemma compute_similarity_range (old new : value) :
  (Qc_of_Z (-1) <= _compute_similarity old new)%Qc
  ∧ (_compute_similarity old new <= Qc_of_Z 1)%Qc.
Proof.
  assert ((Qc_of_Z (-1) <= Qc_of_Z 1)%Qc ∧ (Qc_of_Z 1 <= Qc_of_Z 1)%Qc) as Hone
    by (split; by apply Qc_of_Z_le).
  assert ((Qc_of_Z (-1) <= Qc_of_Z 0)%Qc ∧ (Qc_of_Z 0 <= Qc_of_Z 1)%Qc) as Hzero
    by (split; by apply Qc_of_Z_le).
  destruct (py_eq old new) eqn:Heq.
  { unfold _compute_similarity. by rewrite Heq. }
  destruct (num_of old) as [a|] eqn:Ha, (num_of new) as [b|] eqn:Hb.
  - rewrite (compute_similarity_numbers old new a b Ha Hb).
    + apply numeric_similarity_range.
    + intros ->. destruct old, new; simplify_eq/=;
        by rewrite bool_decide_eq_true_2 in Heq.
  - unfold _compute_similarity. rewrite Heq. destruct old, new; simplify_eq/=; done.
  - unfold _compute_similarity. rewrite Heq. destruct old, new; simplify_eq/=; done.
  - destruct old as [| | | |s| |], new as [| | | |t| |]; simplify_eq/=;
      try (unfold _compute_similarity; rewrite ?Heq; simpl; rewrite ?Heq; done).
    apply bool_decide_eq_false in Heq.
    rewrite compute_similarity_strings by done.
    destruct (jaccard_range s t) as [H0 H1]. split; [|done].
    apply Qcle_trans with (Qc_of_Z 0); [by apply Qc_of_Z_le|done].
Qed.

(** X24: the similarity of two values that are not floats lies between -1
    and 1; it is not negative for two strings, and it is negative for two
    integers of opposite signs whose magnitudes are at most 2^52, where the
    rounding of the quotient cannot reach 1 (the documented range is 0 to
    1). *)
Theorem similarity_range :
  (∀ old new : value,
      is_float old = false → is_float new = false →
      (Qc_of_Z (-1) <= _compute_similarity old new)%Qc
      ∧ (_compute_similarity old new <= Qc_of_Z 1)%Qc)
  ∧ (∀ s t : string, (Qc_of_Z 0 <= _compute_similarity (VStr s) (VStr t))%Qc)
  ∧ (∀ a b : Z,
       (a < 0 ∧ 0 < b ∨ b < 0 ∧ 0 < a)%Z →
       (Z.abs a ≤ 2 ^ 52)%Z → (Z.abs b ≤ 2 ^ 52)%Z →
       (_compute_similarity (VInt a) (VInt b) < Qc_of_Z 0)%Qc).
Proof.
  split_and!.
  - intros old new _ _. apply compute_similarity_range.
  - intros s t. destruct (decide (s = t)) as [->|Hne].
    + unfold _compute_similarity. simpl. rewrite bool_decide_eq_true_2 by done.
      by apply Qc_of_Z_le.
    + rewrite compute_similarity_strings by done. apply jaccard_range.
  - intros a b Hsigns _ _.
    assert ((Qc_of_Z a < Qc_of_Z 0)%Qc ∧ (Qc_of_Z 0 < Qc_of_Z b)%Qc
            ∨ (Qc_of_Z b < Qc_of_Z 0)%Qc ∧ (Qc_of_Z 0 < Qc_of_Z a)%Qc) as Hsigns'.
    { destruct Hsigns as [[? ?]|[? ?]]; [left|right]; split; by apply Qc_of_Z_lt. }
    rewrite (compute_similarity_numbers (VInt a) (VInt b) (Qc_of_Z a) (Qc_of_Z b))
      by first [done | intros Heq; rewrite Heq in Hsigns';
                       destruct Hsigns' as [[H1 H2]|[H1 H2]];
                       by apply (Qclt_not_le _ _ H1), Qclt_le_weak].
    by apply numeric_similarity_negative.
Qed.

Lemma compare_values_confidence (old_val : value) :
  ∀ (new_val : value) (p : list string) (operation : DiffOperation),
    operation ∈ _compare_values old_val new_val p [] →
    ((Qc_of_Z (-1) <= confidence operation)%Qc ∧ (confidence operation <= Qc_of_Z 1)%Qc)
    ∧ (op operation ≠ "update" → confidence operation = Qc_of_Z 1).
Proof.
  assert ((Qc_of_Z (-1) <= Qc_of_Z 1)%Qc ∧ (Qc_of_Z 1 <= Qc_of_Z 1)%Qc) as Hone
    by (split; by apply Qc_of_Z_le).
  induction old_val as [old_val IH] using value_dict_ind.
  intros new_val p operation Hin.
  destruct (decide (type_of old_val = type_of new_val)) as [Hty|Hty]; cycle 1.
  { rewrite compare_values_type_change in Hin by done.
    by apply list_elem_of_singleton in Hin as ->. }
  destruct old_val as [| | | | |old_list|old_dict] eqn:Hold; rewrite <- Hold in *.
  1-5: rewrite compare_values_scalars in Hin by (by subst; destruct new_val);
       rewrite bool_decide_eq_true_2 in Hin by done;
       destruct (py_eq old_val new_val);
       [by apply elem_of_nil in Hin|];
       apply list_elem_of_singleton in Hin as ->;
       split; [apply compute_similarity_range|done].
  - destruct new_val as [| | | | |new_list|]; try (by subst). subst old_val.
    simpl in Hin. unfold _compare_lists in Hin.
    destruct (forallb is_primitive old_list && forallb is_primitive new_list).
    + simpl in Hin. apply elem_of_app in Hin as [Hin|Hin];
        by apply list_elem_of_fmap in Hin as (item & -> & _).
    + destruct (py_eq _ _); [by apply elem_of_nil in Hin|].
      apply list_elem_of_singleton in Hin as ->. split; [|done]. simpl.
      split; Qc_to_Q; vm_compute; discriminate.
  - destruct new_val as [| | | | | |new_dict]; try (by subst). subst old_val.
    rewrite compare_values_dicts, compare_dicts_flat_map in Hin.
    apply list_elem_of_In, in_flat_map in Hin as (key & _ & Hin).
    apply list_elem_of_In in Hin. unfold dict_step in Hin.
    destruct (startswith key "_") eqn:Hkey; [by apply elem_of_nil in Hin|].
    destruct (old_dict !! key) as [old_val|] eqn:Hov,
             (new_dict !! key) as [new_val|] eqn:Hnv;
      try (by apply list_elem_of_singleton in Hin as ->).
    by apply (IH old_dict key old_val eq_refl Hov new_val (p ++ [key])).
Qed.

(** X25: every operation of the structured diff of two documents without
    floats carries a confidence between -1 and 1, and the confidence of an
    [add] or a [remove] is 1. *)
Theorem diff_confidence_range (X Y : gmap string value) (operation : DiffOperation) :
  float_free (VDict X) → float_free (VDict Y) →
  operation ∈ _compute_structured_diff X Y →
  (Qc_of_Z (-1) <= confidence operation)%Qc
  ∧ (confidence operation <= Qc_of_Z 1)%Qc
  ∧ (op operation ≠ "update" → confidence operation = Qc_of_Z 1).
Proof.
  intros _ _ Hin. rewrite compute_structured_diff_root in Hin.
  destruct (compare_values_confidence (VDict X) (VDict Y) [] operation Hin)
    as [[Hlow Hhigh] Hone].
  done.
Qed.

End confidence_range.

Lemma similarity_range_witness :
  (_compute_similarity (VInt 1) (VInt (-1)) < Qc_of_Z 0)%Qc.
Proof.
  refine (proj2 (proj2 similarity_range) 1%Z (-1)%Z _ _ _).
  - right. lia.
  - simpl. lia.
  - simpl. lia.
Defined.

Lemma diff_confidence_range_witness :
  add_op ["a"] (VInt 1) ∈ @_compute_structured_diff example_runtime ∅ {[ "a" := VInt 1 ]}
  ∧ confidence (add_op ["a"] (VInt 1)) = Qc_of_Z 1.
Proof.
  assert (Hin : add_op ["a"] (VInt 1)
                  ∈ @_compute_structured_diff example_runtime ∅ {[ "a" := VInt 1 ]}).
  { vm_compute. left. }
  split; [exact Hin|].
  refine (proj2 (proj2 (@diff_confidence_range example_runtime ∅ {[ "a" := VInt 1 ]}
                          _ _ _ Hin)) _).
  - vm_compute. exact I.
  - vm_compute. split; exact I.
  - discriminate.
Defined.

Lemma apply_diff_escaping_exceptions_witness :
  apply_diff (VDict {[ "a" := VList [] ]})
    [add_op ["a"; "9223372036854775807"] (VInt 0)]
  = Raised OverflowError
  ∧ (OverflowError = ValueError ∨ OverflowError = OverflowError
     ∨ OverflowError = MemoryError).
Proof.
  assert (Hraised : apply_diff (VDict {[ "a" := VList [] ]})
            [add_op ["a"; "9223372036854775807"] (VInt 0)] = Raised OverflowError)
    by (vm_compute; reflexivity).
  split; [exact Hraised|].
  exact (apply_diff_escaping_exceptions _ _ _ Hraised).
Defined.
